(** * The proxylab LRU cache and request pipeline, verified against the C source

    The development embeds [proxylab/cache.c], [proxylab/util.c] and
    [proxy.c] of the repository.  Heap-allocated [entry_t] nodes live in a
    finite map from addresses to records; a C pointer is an [option addr]
    with [None] for [NULL]; a function that would dereference [NULL] or a
    dangling pointer returns [None].  Loops carry a fuel that is computed
    from the state, so every function is total and can be evaluated. *)

From Stdlib Require Import ZArith NArith Lia String Ascii List.
From Stdlib.Init Require Import Byte.
From stdpp Require Import base option list gmap strings pretty.

Local Open Scope N_scope.

(** ** cache.h *)

Definition MAX_CACHE_SIZE : N := 1024 * 1024.
Definition MAX_OBJECT_SIZE : N := 100 * 1024.

(** [size_t] arithmetic: 64-bit, wraps around. *)
Definition SIZE_MOD : N := 2 ^ 64.
Definition size_add (a b : N) : N := (a + b) mod SIZE_MOD.
Definition size_sub (a b : N) : N := (a + (SIZE_MOD - b mod SIZE_MOD)) mod SIZE_MOD.

(** [int]: incrementing [INT_MAX] is undefined. *)
Definition INT_MAX : Z := 2147483647.
Definition INT_MIN : Z := -2147483648.

Definition addr := positive.

(** The public view [cache_entry_t] of an entry. *)
Record cache_entry_t := CacheEntry {
  ce_key : string;
  ce_val : list byte;
  ce_size : N
}.

(** ** cache.c: data *)

(** [entry_t]: a node of the circular doubly-linked list. *)
Record entry_t := Entry {
  e_key : string;
  e_val : list byte;
  e_size : N;
  e_next : option addr;
  e_prev : option addr;
  e_ref : Z
}.

Definition set_next (n : option addr) (e : entry_t) : entry_t :=
  Entry (e_key e) (e_val e) (e_size e) n (e_prev e) (e_ref e).
Definition set_prev (p : option addr) (e : entry_t) : entry_t :=
  Entry (e_key e) (e_val e) (e_size e) (e_next e) p (e_ref e).
Definition set_ref (r : Z) (e : entry_t) : entry_t :=
  Entry (e_key e) (e_val e) (e_size e) (e_next e) (e_prev e) r.

(** What a holder of a [cache_entry_t *] reads through it. *)
Definition view (e : entry_t) : cache_entry_t :=
  CacheEntry (e_key e) (e_val e) (e_size e).

(** [_cache_t] without its mutex: every public operation runs wholly between
    [cache_mutex_lock] and [cache_mutex_unlock], so the operations of several
    workers take effect one whole operation after another. *)
Record _cache_t := Cache {
  c_size : N;
  c_head : option addr
}.

(** The memory the cache functions work on: the allocated entries and the
    cache object itself. *)
Record mem := Mem {
  heap : gmap addr entry_t;
  cache : _cache_t
}.

(** [p->field = v] for an allocated [p]. *)
Definition store (h : gmap addr entry_t) (p : addr) (f : entry_t → entry_t)
  : option (gmap addr entry_t) :=
  e ← h !! p; Some (<[p := f e]> h).

(** ** util.c *)

Definition memset (n : nat) (b : byte) : list byte := replicate n b.
Definition memcpy (dst src : list byte) (n : nat) : list byte :=
  take n src ++ drop n dst.

Definition malloc_with_data (src : list byte) (size : N) : list byte :=
  let ret := memset (N.to_nat size) x00 in
  memcpy ret src (N.to_nat size).

(** ** cache.c: functions *)

(** [Calloc] hands out an address that is not allocated at the moment. *)
Definition Calloc (h : gmap addr entry_t) : addr := fresh (dom h).

Definition cache_create : mem := Mem ∅ (Cache 0 None).

Fixpoint find_loop (fuel : nat) (h : gmap addr entry_t) (head curr : addr)
    (key : string) : option (option addr) :=
  match fuel with
  | O => None
  | S fuel' =>
      e ← h !! curr;
      if decide (e_key e = key) then Some (Some curr)
      else match e_next e with
           | None => Some None
           | Some nx =>
               if decide (nx = head) then Some None
               else find_loop fuel' h head nx key
           end
  end.

Definition find (m : mem) (key : string) : option (option addr) :=
  match c_head (cache m) with
  | None => Some None
  | Some head => find_loop (size (heap m)) (heap m) head head key
  end.

Definition insert_front (m : mem) (e : addr) : option mem :=
  h' ← match c_head (cache m) with
       | None =>
           h1 ← store (heap m) e (set_prev (Some e));
           store h1 e (set_next (Some e))
       | Some head =>
           hd ← heap m !! head;
           prev ← e_prev hd;
           h1 ← store (heap m) prev (set_next (Some e));
           h2 ← store h1 head (set_prev (Some e));
           h3 ← store h2 e (set_next (Some head));
           store h3 e (set_prev (Some prev))
       end;
  ee ← h' !! e;
  Some (Mem h' (Cache (size_add (c_size (cache m)) (e_size ee)) (Some e))).

Definition remove_entry (m : mem) (e : addr) : option mem :=
  ee ← heap m !! e;
  '(h1, head1) ←
    (if decide (e_next ee = Some e) then Some (heap m, None)
     else
       prev ← e_prev ee;
       next ← e_next ee;
       h1 ← store (heap m) prev (set_next (Some next));
       h2 ← store h1 next (set_prev (Some prev));
       Some (h2, c_head (cache m)));
  ee1 ← h1 !! e;
  let head2 := if decide (head1 = Some e) then e_next ee1 else head1 in
  h2 ← store h1 e (set_prev None);
  h3 ← store h2 e (set_next None);
  ee3 ← h3 !! e;
  Some (Mem h3 (Cache (size_sub (c_size (cache m)) (e_size ee3)) head2)).

Definition free_entry (h : gmap addr entry_t) (e : addr) : gmap addr entry_t :=
  delete e h.

(** [--e->ref == 0] followed by [free_entry]; used by [evict_entry] and
    [cache_entry_release]. *)
Definition unref (h : gmap addr entry_t) (e : addr)
  : option (gmap addr entry_t) :=
  ee ← h !! e;
  if decide (e_ref ee = INT_MIN) then None
  else
    let r := (e_ref ee - 1)%Z in
    if decide (r = 0%Z) then Some (free_entry h e)
    else Some (<[e := set_ref r ee]> h).

Definition evict_entry (m : mem) (e : addr) : option mem :=
  m1 ← remove_entry m e;
  h ← unref (heap m1) e;
  Some (Mem h (cache m1)).

Fixpoint evict_loop (fuel : nat) (m : mem) : option mem :=
  if decide (MAX_CACHE_SIZE < c_size (cache m) ∧ is_Some (c_head (cache m)))
  then
    match fuel with
    | O => None
    | S fuel' =>
        hd ← c_head (cache m) ≫= (heap m !!.);
        victim ← e_prev hd;
        m1 ← evict_entry m victim;
        evict_loop fuel' m1
    end
  else Some m.

Definition cache_insert (m : mem) (key : string) (val : list byte) (size : N)
  : option (mem * option addr) :=
  if decide (MAX_OBJECT_SIZE < size) then Some (m, None)
  else
    found ← find m key;
    match found with
    | None =>
        let e := Calloc (heap m) in
        let ee := Entry key (malloc_with_data val size) size None None 1 in
        let m1 := Mem (<[e := ee]> (heap m)) (cache m) in
        m2 ← insert_front m1 e;
        m3 ← evict_loop (stdpp.base.size (heap m2)) m2;
        Some (m3, Some e)
    | Some e =>
        m1 ← remove_entry m e;
        m2 ← insert_front m1 e;
        Some (m2, Some e)
    end.

Definition cache_get (m : mem) (key : string) : option (mem * option addr) :=
  found ← find m key;
  match found with
  | None => Some (m, None)
  | Some ret =>
      m1 ← remove_entry m ret;
      m2 ← insert_front m1 ret;
      ee ← heap m2 !! ret;
      if decide (e_ref ee = INT_MAX) then None
      else Some (Mem (<[ret := set_ref (e_ref ee + 1) ee]> (heap m2)) (cache m2),
                 Some ret)
  end.

Definition cache_entry_release (m : mem) (e : addr) : option mem :=
  h ← unref (heap m) e;
  Some (Mem h (cache m)).

(** The entries reachable from [cache->head] through [next], most recently
    used first. *)
Fixpoint walk (fuel : nat) (h : gmap addr entry_t) (head curr : addr)
  : list addr :=
  match fuel with
  | O => []
  | S fuel' =>
      curr :: match h !! curr ≫= e_next with
              | Some nx => if decide (nx = head) then [] else walk fuel' h head nx
              | None => []
              end
  end.

Definition entries (m : mem) : list addr :=
  match c_head (cache m) with
  | None => []
  | Some head => walk (size (heap m)) (heap m) head head
  end.

(** The [size] field of the entry at [a]. *)
Definition esize (h : gmap addr entry_t) (a : addr) : N :=
  from_option e_size 0 (h !! a).

Definition total (h : gmap addr entry_t) (l : list addr) : N :=
  foldr (λ a s, esize h a + s) 0 l.

Definition held_total (m : mem) : N := total (heap m) (entries m).

Local Close Scope N_scope.

(** ** The shape of the list *)

(** [ring h l]: in [h] the nodes [l] form a circular doubly-linked list in
    this order.  For a node [a] with the nodes [l1] before it and [l2] after
    it, the [next] pointer leads to the first node of [l2 ++ l1] and the
    [prev] pointer to the last one; a single node points to itself. *)
Definition node (h : gmap addr entry_t) (a : addr) (nx pv : option addr) : Prop :=
  ∃ e, h !! a = Some e ∧ e_next e = nx ∧ e_prev e = pv.

Definition ring (h : gmap addr entry_t) (l : list addr) : Prop :=
  NoDup l ∧
  ∀ l1 a l2, l = l1 ++ a :: l2 →
    node h a (head (l2 ++ l1 ++ [a])) (last (a :: l2 ++ l1)).

(** The first entry of [l] whose key is [key]. *)
Fixpoint lookup_key (h : gmap addr entry_t) (key : string) (l : list addr)
  : option addr :=
  match l with
  | [] => None
  | a :: l' =>
      if decide (e_key <$> h !! a = Some key) then Some a
      else lookup_key h key l'
  end.

(** Two heaps that differ in [next] and [prev] pointers only. *)
Definition payload (e : entry_t) : string * list byte * N * Z :=
  (e_key e, e_val e, e_size e, e_ref e).

Definition same_data (h h' : gmap addr entry_t) : Prop :=
  ∀ a, payload <$> h' !! a = payload <$> h !! a.

(** ** Clients of the cache *)

(** A handle is the pointer a worker got from [cache_get], together with what
    it read through it at that moment. *)
Definition handle : Type := addr * cache_entry_t.

(** The number of handles for the entry at [a] that are not released yet. *)
Definition held (hs : list handle) (a : addr) : nat :=
  length (filter (λ x, x.1 = a) hs).

(** Whether [a] is a member of the list, as the reference it accounts for. *)
Definition in_list (l : list addr) (a : addr) : Z :=
  if decide (a ∈ l) then 1%Z else 0%Z.

(** [promote a l]: [a] moved to the most-recently-used end of [l]. *)
Definition promote (a : addr) (l : list addr) : list addr :=
  a :: filter (λ b, b ≠ a) l.

(** The handles that remain after one handle for [a] is released. *)
Fixpoint drop_handle (a : addr) (hs : list handle) : list handle :=
  match hs with
  | [] => []
  | x :: hs' => if decide (x.1 = a) then hs' else x :: drop_handle a hs'
  end.

(** [h'] holds no entry that [h] does not hold, and the entries that stay
    keep their key, bytes and size. *)
Definition shrinks (h h' : gmap addr entry_t) : Prop :=
  ∀ b e', h' !! b = Some e' → ∃ e, h !! b = Some e ∧ view e = view e'.

(** The eviction loop in the words of the specification, on the list of
    entries with the least recently used one first: while the total is over
    the bound and there is an entry, drop the least recently used one. *)
Definition sum_sizes (sz : addr → N) (l : list addr) : N :=
  foldr (λ a s, sz a + s)%N 0%N l.

Fixpoint spec_evict_lru_first (sz : addr → N) (rl : list addr) : list addr :=
  match rl with
  | [] => []
  | z :: rl' =>
      if decide (MAX_CACHE_SIZE < sum_sizes sz (z :: rl'))%N
      then spec_evict_lru_first sz rl'
      else z :: rl'
  end.

Definition spec_evict (sz : addr → N) (l : list addr) : list addr :=
  reverse (spec_evict_lru_first sz (reverse l)).

(** The representation invariant: the nodes [l] form the list of the cache
    [m] in most-recently-used order, [hs] are the handles that workers hold,
    and the total size stays within [bound]. *)
Record rep (bound : N) (l : list addr) (m : mem) (hs : list handle) : Prop := Rep {
  rep_ring : ring (heap m) l;
  rep_head : c_head (cache m) = head l;
  rep_size : c_size (cache m) = total (heap m) l;
  rep_bound : (total (heap m) l ≤ bound)%N;
  rep_obj : ∀ a e, heap m !! a = Some e → (e_size e ≤ MAX_OBJECT_SIZE)%N;
  rep_keys : ∀ a b ea eb, a ∈ l → b ∈ l →
      heap m !! a = Some ea → heap m !! b = Some eb →
      e_key ea = e_key eb → a = b;
  rep_ref : ∀ a e, heap m !! a = Some e →
      e_ref e = (in_list l a + Z.of_nat (held hs a))%Z ∧ (0 < e_ref e)%Z;
  rep_handles : ∀ a v, (a, v) ∈ hs → ∃ e, heap m !! a = Some e ∧ view e = v
}.

(** ** Workers calling the cache *)

(** The cache together with the handles that workers hold. *)
Record sys := Sys {
  s_mem : mem;
  s_handles : list handle
}.

Inductive call :=
  | Insert (key : string) (val : list byte) (size : N)
  | Get (key : string)
  | Release (e : addr).

(** What a worker may call: it releases only a handle that it holds (each
    handle once), and there are fewer than [INT_MAX - 1] handles at a time,
    the reference count of an entry being an [int]. *)
Definition allowed (s : sys) (c : call) : Prop :=
  match c with
  | Insert _ _ _ => True
  | Get _ => (Z.of_nat (length (s_handles s)) < INT_MAX - 1)%Z
  | Release e => e ∈ (s_handles s).*1
  end.

Global Instance allowed_dec s c : Decision (allowed s c).
Proof. destruct c; simpl; apply _. Defined.

(** One call under the cache mutex; [None] when the C code would fault. *)
Definition do_call (s : sys) (c : call) : option sys :=
  match c with
  | Insert key val size =>
      '(m, _) ← cache_insert (s_mem s) key val size;
      Some (Sys m (s_handles s))
  | Get key =>
      '(m, r) ← cache_get (s_mem s) key;
      match r with
      | None => Some (Sys m (s_handles s))
      | Some a => e ← heap m !! a; Some (Sys m ((a, view e) :: s_handles s))
      end
  | Release e =>
      m ← cache_entry_release (s_mem s) e;
      Some (Sys m (drop_handle e (s_handles s)))
  end.

Definition init : sys := Sys cache_create [].

(** The states that the workers can bring the cache into. *)
Inductive reachable : sys → Prop :=
  | reach_init : reachable init
  | reach_call s c s' :
      reachable s → allowed s c → do_call s c = Some s' → reachable s'.

(** Runs a sequence of calls, as long as each is allowed. *)
Fixpoint run (s : sys) (cs : list call) : option sys :=
  match cs with
  | [] => Some s
  | c :: cs' =>
      if decide (allowed s c) then s' ← do_call s c; run s' cs' else None
  end.

(** The keys that the cache holds, most recently used first. *)
Definition present_keys (m : mem) : list string :=
  omap (λ a, e_key <$> heap m !! a) (entries m).

(** The entry as [cache_get] leaves it: one more reference on the entry that
    was hit. *)
Definition got (a b : addr) (e : entry_t) : entry_t :=
  if decide (b = a) then set_ref (e_ref e + 1) e else e.


(** A small run, used to exercise the statements below. *)
Definition bytes_of (s : string) : list byte := list_byte_of_string s.

Definition demo_calls : list call :=
  [ Insert "http://h/a" (bytes_of "abc") 3;
    Get "http://h/a";
    Insert "http://h/b" (bytes_of "hello") 5;
    Insert "http://h/a" (bytes_of "XYZ") 3;
    Get "http://h/b" ].

Definition demo : sys := default init (run init demo_calls).

(** Two entries, the second inserted one at the head. *)
Definition two_keys : sys :=
  default init (run init [ Insert "k1" (bytes_of "one") 3;
                           Insert "k2" (bytes_of "two") 3 ]).

(** Scenario D of the specification: objects [k0], [k1], ... of [n] bytes
    each, the object [ki] filled with the byte [i]. *)
Definition scenario_key (i : nat) : string := "k" +:+ pretty i.

Definition scenario_object (n : N) (i : nat) : list byte :=
  replicate (N.to_nat n) (default x00 (Byte.of_nat i)).

Definition scenario_inserts (n : N) (count : nat) : list call :=
  (λ i, Insert (scenario_key i) (scenario_object n i) n) <$> seq 0 count.

Definition KiB : N := 1024.

(** What a worker reads through the pointer that [cache_get] returns: the
    bytes and the size, or nothing when the key is absent. *)
Definition get_bytes (m : mem) (key : string)
  : option (option (list byte * N)) :=
  '(m', r) ← cache_get m key;
  match r with
  | None => Some None
  | Some a => e ← heap m' !! a; Some (Some (e_val e, e_size e))
  end.

(** * The proxy *)

(** ** csapp.h and the buffered I/O of csapp.c *)

(** Modelled from the spec: [csapp.h] is not among the sources.  [MAXLINE]
    is the size of the request buffer of a worker, for which section 4.2 of
    the specification gives 8 KiB; [MAXBUF] is the size of the buffer for
    the body of an error page. *)
Definition MAXLINE : nat := 8192.
Definition MAXBUF : nat := 8192.

Definition CRLF : string := String "013" (String "010" EmptyString).

(** The quotation mark of the error page. *)
Definition QUOTE : string := String "034" EmptyString.

Inductive fd := ClientFd | HostFd.

Global Instance fd_eq_dec : EqDecision fd.
Proof. solve_decision. Defined.

(** How the stream of a peer ends once its data is consumed. *)
Inductive stream_end := AtEOF | ReadFails.

(** What a worker does to the outside, in the order in which it does it. *)
Inductive event :=
  | Wrote (f : fd) (bs : list byte)
  | Connected (host port : string)
  | Inserted (key : string) (val : list byte) (size : N)
  | Closed (f : fd).

(** The surroundings of one worker: what its client and the origin send,
    how many more bytes each of them accepts ([None]: any number), whether
    the origin can be connected to, the shared cache, and the events so
    far. *)
Record world := World {
  client_lines : list string;
  client_end : stream_end;
  origin_bytes : list byte;
  origin_end : stream_end;
  room : fd → option nat;
  connect_ok : bool;
  g_cache : mem;
  log : list event
}.

Definition set_client_lines (l : list string) (w : world) : world :=
  World l (client_end w) (origin_bytes w) (origin_end w) (room w)
        (connect_ok w) (g_cache w) (log w).
Definition set_origin_bytes (b : list byte) (w : world) : world :=
  World (client_lines w) (client_end w) b (origin_end w) (room w)
        (connect_ok w) (g_cache w) (log w).
Definition set_room (r : fd → option nat) (w : world) : world :=
  World (client_lines w) (client_end w) (origin_bytes w) (origin_end w) r
        (connect_ok w) (g_cache w) (log w).
Definition set_g_cache (m : mem) (w : world) : world :=
  World (client_lines w) (client_end w) (origin_bytes w) (origin_end w)
        (room w) (connect_ok w) m (log w).
Definition add_event (e : event) (w : world) : world :=
  World (client_lines w) (client_end w) (origin_bytes w) (origin_end w)
        (room w) (connect_ok w) (g_cache w) (log w ++ [e]).

(** A worker's code: it changes the world and returns a value, or faults
    (undefined behaviour in C, or a loop out of fuel). *)
Definition M (A : Type) : Type := world → option (A * world).

Definition ret {A} (x : A) : M A := λ w, Some (x, w).
Definition bind {A B} (m : M A) (k : A → M B) : M B :=
  λ w, match m w with Some (x, w') => k x w' | None => None end.
Definition fault {A} : M A := λ _, None.

Notation "'do' x <- m ; k" := (bind m (λ x, k))
  (at level 200, x pattern, m at level 100, k at level 200,
   right associativity, format "'[v' 'do'  x  <-  m ; '/' k ']'").

(** Modelled from the spec: the buffered I/O of [csapp.c], section 6.
    [read_line] returns the bytes read including the newline, 0 at end of
    file, a negative number on error; here [Some line], [Some EmptyString]
    and [None].  Each element of [client_lines] is what one call returns. *)
Definition rio_readlineb : M (option string) := λ w,
  match client_lines w with
  | line :: rest => Some (Some line, set_client_lines rest w)
  | [] =>
      match client_end w with
      | AtEOF => Some (Some EmptyString, w)
      | ReadFails => Some (None, w)
      end
  end.

(** Modelled from the spec: [read_block] returns up to [n] bytes, fewer
    only at end of file; [None] is the negative result on error. *)
Definition rio_readnb (n : nat) : M (option (list byte)) := λ w,
  if decide (n ≤ length (origin_bytes w))
  then Some (Some (take n (origin_bytes w)),
             set_origin_bytes (drop n (origin_bytes w)) w)
  else match origin_end w with
       | AtEOF => Some (Some (origin_bytes w), set_origin_bytes [] w)
       | ReadFails => Some (None, set_origin_bytes [] w)
       end.

(** Modelled from the spec: [write_all] writes all the bytes ([true]) or
    fails ([false]) after the bytes that the peer still accepted. *)
Definition rio_writen (f : fd) (bs : list byte) : M bool := λ w,
  match room w f with
  | None => Some (true, add_event (Wrote f bs) w)
  | Some r =>
      if decide (length bs ≤ r)
      then Some (true,
                 add_event (Wrote f bs)
                   (set_room (λ g, if decide (g = f) then Some (r - length bs)
                                   else room w g) w))
      else Some (false,
                 add_event (Wrote f (take r bs))
                   (set_room (λ g, if decide (g = f) then Some 0
                                   else room w g) w))
  end.

Definition open_clientfd (host port : string) : M bool := λ w,
  if connect_ok w then Some (true, add_event (Connected host port) w)
  else Some (false, w).

Definition close (f : fd) : M unit := λ w, Some (tt, add_event (Closed f) w).

(** The cache functions on the global [g_cache]. *)
Definition g_cache_get (key : string) : M (option (addr * entry_t)) := λ w,
  '(m, r) ← cache_get (g_cache w) key;
  match r with
  | None => Some (None, set_g_cache m w)
  | Some a => e ← heap m !! a; Some (Some (a, e), set_g_cache m w)
  end.

Definition g_cache_entry_release (a : addr) : M unit := λ w,
  m ← cache_entry_release (g_cache w) a; Some (tt, set_g_cache m w).

Definition g_cache_insert (key : string) (val : list byte) (size : N)
  : M (option addr) := λ w,
  '(m, r) ← cache_insert (g_cache w) key val size;
  Some (r, add_event (Inserted key val size) (set_g_cache m w)).

(** ** http_parser.h *)

Record header_t := Header {
  h_name : string;
  h_value : string
}.

Inductive parser_state := REQUEST | HEADER | ERROR.

Inductive parser_value_type :=
  | METHOD | HOST | SCHEME | URI | PORT | PATH | HTTP_VERSION.

(** Modelled from the spec: the line parser ([http_parser.c] is not among
    the sources), section 6 and [http_parser.h].  The parser keeps the
    values of the request line, the headers and the position of its header
    iterator; how it reads one line is left open, as the function [lex]
    below. *)
Record request_t := Request {
  r_method : option string;
  r_host : option string;
  r_scheme : option string;
  r_uri : option string;
  r_port : option string;
  r_path : option string;
  r_version : option string
}.

Inductive parsed_line :=
  | IsRequest (r : request_t)
  | IsHeader (h : header_t)
  | IsError.

Record parser_t := Parser {
  p_values : request_t;
  p_headers : list header_t;
  p_cursor : nat
}.

Definition parser_new : parser_t :=
  Parser (Request None None None None None None None) [] 0.

Definition parser_parse_line (lex : string → parsed_line) (p : parser_t)
    (line : string) : parser_t * parser_state :=
  match lex line with
  | IsRequest r => (Parser r (p_headers p) (p_cursor p), REQUEST)
  | IsHeader h => (Parser (p_values p) (p_headers p ++ [h]) (p_cursor p), HEADER)
  | IsError => (p, ERROR)
  end.

(** [Some v] for the result 0 with [*val = v], [None] for a negative
    result. *)
Definition parser_retrieve (p : parser_t) (type : parser_value_type)
  : option string :=
  match type with
  | METHOD => r_method (p_values p)
  | HOST => r_host (p_values p)
  | SCHEME => r_scheme (p_values p)
  | URI => r_uri (p_values p)
  | PORT => r_port (p_values p)
  | PATH => r_path (p_values p)
  | HTTP_VERSION => r_version (p_values p)
  end.

Definition parser_retrieve_next_header (p : parser_t)
  : parser_t * option header_t :=
  match p_headers p !! p_cursor p with
  | Some h => (Parser (p_values p) (p_headers p) (S (p_cursor p)), Some h)
  | None => (p, None)
  end.

(** ** proxy.c *)

Record http_info := HttpInfo {
  i_method : string;
  i_version : string;
  i_scheme : string;
  i_uri : string;
  i_host : string;
  i_port : string;
  i_path : string
}.

Definition header_user_agent : string :=
  "Mozilla/5.0" +:+ " (X11; Linux x86_64; rv:3.10.0)"
  +:+ " Gecko/20220411 Firefox/63.0.1".

(** [strcmp(a, b) == 0] *)
Definition streq (a b : string) : bool := bool_decide (a = b).

Definition clienterror_body (errnum shortmsg longmsg : string) : string :=
  "<!DOCTYPE html>" +:+ CRLF +:+
  "<html>" +:+ CRLF +:+
  "<head><title>Error</title></head>" +:+ CRLF +:+
  "<body bgcolor=" +:+ QUOTE +:+ "ffffff" +:+ QUOTE +:+ ">" +:+ CRLF +:+
  "<h1>" +:+ errnum +:+ ": " +:+ shortmsg +:+ "</h1>" +:+ CRLF +:+
  "<p>" +:+ longmsg +:+ "</p>" +:+ CRLF +:+
  "<hr /><em>Proxy</em>" +:+ CRLF +:+
  "</body></html>" +:+ CRLF.

Definition clienterror_headers (errnum shortmsg : string) (bodylen : nat)
  : string :=
  "HTTP/1.0 " +:+ errnum +:+ " " +:+ shortmsg +:+ CRLF +:+
  "Content-Type: text/html" +:+ CRLF +:+
  "Content-Length: " +:+ pretty bodylen +:+ CRLF +:+ CRLF.

Definition clienterror (f : fd) (errnum shortmsg longmsg : string) : M unit :=
  let body := clienterror_body errnum shortmsg longmsg in
  let bodylen := String.length body in
  if decide (MAXBUF ≤ bodylen) then ret tt
  else
    let buf := clienterror_headers errnum shortmsg bodylen in
    let buflen := String.length buf in
    if decide (MAXLINE ≤ buflen) then ret tt
    else
      do ok <- rio_writen f (bytes_of buf);
      if negb ok then ret tt
      else
        do ok <- rio_writen f (bytes_of body);
        ret tt.

(** The loop of [parse_http_request] that reads and parses the request
    lines; [None] when [rio_readlineb] failed, otherwise the parser and the
    number [n] of characters parsed. *)
Fixpoint read_request_lines (lex : string → parsed_line) (fuel : nat)
    (p : parser_t) (n : nat) : M (option (parser_t * nat)) :=
  match fuel with
  | O => fault
  | S fuel' =>
      do len <- rio_readlineb;
      match len with
      | None => ret None
      | Some buf =>
          if decide (String.length buf = 0) then ret (Some (p, n))
          else if streq buf CRLF then ret (Some (p, n))
          else
            let '(p', state) := parser_parse_line lex p buf in
            match state with
            | ERROR => ret (Some (p', n))
            | _ => read_request_lines lex fuel' p' (n + String.length buf)
            end
      end
  end.

(** [None] for the result [false]. *)
Definition parse_http_request (lex : string → parsed_line) (f : fd)
    (p : parser_t) : M (parser_t * option http_info) :=
  do r <- (λ w, read_request_lines lex (S (length (client_lines w))) p 0 w);
  match r with
  | None => ret (p, None)
  | Some (p, n) =>
      if decide (n = 0) then ret (p, None)
      else
        match parser_retrieve p HTTP_VERSION with
        | None =>
            do _ <- clienterror f "400" "Bad Request" "Cannot parse HTTP version";
            ret (p, None)
        | Some version =>
        if negb (streq version "1.0" || streq version "1.1") then
            do _ <- clienterror f "400" "Bad Request" "Wrong HTTP version";
            ret (p, None)
        else
        match parser_retrieve p METHOD with
        | None =>
            do _ <- clienterror f "400" "Bad Request" "Cannot parse HTTP method";
            ret (p, None)
        | Some method =>
        if negb (streq method "GET") then
            do _ <- clienterror f "501" "Not Implemented"
                      "HTTP method not implemented";
            ret (p, None)
        else
        match parser_retrieve p SCHEME with
        | None =>
            do _ <- clienterror f "400" "Bad Request" "Cannot parse HTTP scheme";
            ret (p, None)
        | Some scheme =>
        if negb (streq scheme "http") then
            do _ <- clienterror f "501" "Not Implemented"
                      "HTTP scheme not implemented";
            ret (p, None)
        else
        match parser_retrieve p URI with
        | None =>
            do _ <- clienterror f "400" "Bad Request" "Cannot parse uri";
            ret (p, None)
        | Some uri =>
        match parser_retrieve p HOST with
        | None =>
            do _ <- clienterror f "400" "Bad Request" "Cannot parse host";
            ret (p, None)
        | Some host =>
        match parser_retrieve p PORT with
        | None =>
            do _ <- clienterror f "400" "Bad Request" "Cannot parse port";
            ret (p, None)
        | Some port =>
        match parser_retrieve p PATH with
        | None =>
            do _ <- clienterror f "400" "Bad Request" "Cannot parse path";
            ret (p, None)
        | Some path =>
            ret (p, Some (HttpInfo method version scheme uri host port path))
        end end end end end end end
  end.

(** The request buffer [new_req] while [construct_new_request] fills it:
    [out - new_req] and the characters stored so far. *)
Record reqbuf := Reqbuf {
  off : nat;
  text : string
}.

(** [len = snprintf(out, MAXLINE, ...); out += len;] for the formatted text
    [s]: at most [MAXLINE - 1] characters and a terminating NUL are stored
    at [out], and [len] is the length of the whole text.  [None] when the
    characters stored do not fit between [out] and the end of [new_req]:
    a write past the end of the array. *)
Definition snprintf (b : reqbuf) (s : string) : option reqbuf :=
  let w := Nat.min (String.length s) (MAXLINE - 1) in
  if decide (off b + w + 1 ≤ MAXLINE)
  then Some (Reqbuf (off b + String.length s) (text b +:+ substring 0 w s))
  else None.

Definition overridden (name : string) : bool :=
  streq name "Connection" || streq name "Proxy-Connection"
  || streq name "User-Agent".

Fixpoint copy_headers (fuel : nat) (p : parser_t) (host_found : bool)
    (out : reqbuf) : option (parser_t * bool * reqbuf) :=
  match fuel with
  | O => None
  | S fuel' =>
      let '(p', header) := parser_retrieve_next_header p in
      match header with
      | None => Some (p', host_found, out)
      | Some header =>
          if overridden (h_name header)
          then copy_headers fuel' p' host_found out
          else
            let host_found' :=
              if streq (h_name header) "Host" then true else host_found in
            out' ← snprintf out
                     (h_name header +:+ ": " +:+ h_value header +:+ CRLF);
            copy_headers fuel' p' host_found' out'
      end
  end.

Definition override_headers : string :=
  "Connection: close" +:+ CRLF +:+ "Proxy-Connection: close" +:+ CRLF +:+
  "User-Agent: " +:+ header_user_agent +:+ CRLF +:+ CRLF.

(** The result [bool], the text left in [new_req] and the parser with its
    iterator advanced; [None] when a write went past the end of [new_req]. *)
Definition construct_new_request (p : parser_t) (info : http_info)
  : option (bool * string * parser_t) :=
  out ← snprintf (Reqbuf 0 EmptyString)
          ("GET " +:+ i_uri info +:+ " HTTP/1.0" +:+ CRLF);
  '(p', host_found, out) ←
    copy_headers (S (length (p_headers p))) p false out;
  out ← (if (host_found : bool) then Some out
         else snprintf out
                ("Host: " +:+ i_host info +:+ ":" +:+ i_port info +:+ CRLF));
  out ← snprintf out override_headers;
  Some (true, text out, p').

(** The loop of [forward_http_response]: [None] when reading or writing
    failed, otherwise the buffer and [cache_size] at end of file. *)
Fixpoint forward_loop (fuel : nat) (buf : list byte) (cache_size : N)
  : M (option (list byte * N)) :=
  match fuel with
  | O => fault
  | S fuel' =>
      do len <- rio_readnb (N.to_nat MAX_OBJECT_SIZE);
      match len with
      | None => ret None
      | Some chunk =>
          if decide (length chunk = 0) then ret (Some (buf, cache_size))
          else
            let buf' := chunk ++ drop (length chunk) buf in
            do ok <- rio_writen ClientFd (take (length chunk) buf');
            if negb ok then ret None
            else forward_loop fuel' buf'
                   (size_add cache_size (N.of_nat (length chunk)))
      end
  end.

(** [buf0] is what the local array [buf] holds when the function starts. *)
Definition forward_http_response (buf0 : list byte) (cache_key : string)
  : M bool :=
  do r <- (λ w, forward_loop (S (length (origin_bytes w))) buf0 0%N w);
  match r with
  | None => ret false
  | Some (buf, cache_size) =>
      if decide ((cache_size ≤ MAX_OBJECT_SIZE)%N ∧ (0 < cache_size)%N)
      then
        do e <- g_cache_insert cache_key buf cache_size;
        match e with
        | None => ret false
        | Some _ => ret true
        end
      else ret true
  end.

Definition serve (lex : string → parsed_line) (buf0 : list byte) : M unit :=
  let p := parser_new in
  do _ <-
    (do (p, r) <- parse_http_request lex ClientFd p;
     match r with
     | None => ret tt
     | Some info =>
         do entry <- g_cache_get (i_uri info);
         match entry with
         | Some (a, e) =>
             do _ <- rio_writen ClientFd (take (N.to_nat (e_size e)) (e_val e));
             g_cache_entry_release a
         | None =>
             match construct_new_request p info with
             | None => fault
             | Some (false, _, _) => ret tt
             | Some (true, new_req, _) =>
                 do connected <- open_clientfd (i_host info) (i_port info);
                 if negb connected then ret tt
                 else
                   do ok <- rio_writen HostFd (bytes_of new_req);
                   if negb ok then ret tt
                   else
                     do _ <- forward_http_response buf0 (i_uri info);
                     ret tt
             end
         end
     end);
  close ClientFd.

(** The wire format of the outbound request in the words of the
    specification (section 4.2): the request line with version 1.0, one
    line per header, an empty line. *)
Definition header_line (h : header_t) : string :=
  h_name h +:+ ": " +:+ h_value h +:+ CRLF.

(** Whether the client sent a [Host] header. *)
Definition has_host (hs : list header_t) : bool :=
  bool_decide (Exists (λ h, h_name h = "Host") hs).

(** The header that the rewriter adds when the client sent no [Host]. *)
Definition synthesized_host (info : http_info) (hs : list header_t)
  : list header_t :=
  if has_host hs then []
  else [Header "Host" (i_host info +:+ ":" +:+ i_port info)].

(** The client's headers that are not overridden. *)
Definition passed_through (hs : list header_t) : list header_t :=
  filter (λ h, overridden (h_name h) = false) hs.

(** The header lines, one after the other. *)
Definition lines (hs : list header_t) : string :=
  foldr String.append EmptyString (header_line <$> hs).

Definition request_message (uri : string) (hs : list header_t) : string :=
  "GET " +:+ uri +:+ " HTTP/1.0" +:+ CRLF +:+ lines hs +:+ CRLF.

(** The headers of the outbound request for the client headers [hs]: the
    client's headers without the overridden ones, the synthesized [Host],
    the three fixed overrides. *)
Definition rewritten_headers (info : http_info) (hs : list header_t)
  : list header_t :=
  passed_through hs ++
  synthesized_host info hs ++
  [ Header "Connection" "close";
    Header "Proxy-Connection" "close";
    Header "User-Agent" header_user_agent ].

(** A client request with repeated and differently spelled headers. *)
Definition demo_parser : parser_t :=
  Parser (Request (Some "GET") (Some "h") (Some "http") (Some "http://h/a")
                  (Some "80") (Some "/a") (Some "1.1"))
         [ Header "Connection" "keep-alive"; Header "Accept" "*/*";
           Header "User-Agent" "curl/8.0"; Header "connection" "x";
           Header "Connection" "upgrade"; Header "Proxy-Connection" "keep-alive" ]
         0.

Definition demo_info : http_info :=
  HttpInfo "GET" "1.1" "http" "http://h/a" "h" "80" "/a".

(** A request whose rewritten form needs more than [MAXLINE] bytes: three
    headers of 4000 characters each. *)
Definition long_value : string := string_of_list_ascii (replicate 4000 "a"%char).

Definition overflow_parser : parser_t :=
  Parser (Request (Some "GET") (Some "h") (Some "http") (Some "http://h/a")
                  (Some "80") (Some "/a") (Some "1.1"))
         [ Header "X-A" long_value; Header "X-B" long_value;
           Header "X-C" long_value ]
         0.

(** The bytes that the events put on the socket [f], in order. *)
Definition written (f : fd) (evs : list event) : list byte :=
  mjoin (omap (λ e, match e with
                    | Wrote g bs => if decide (g = f) then Some bs else None
                    | _ => None
                    end) evs).

(** The calls of [cache_insert] among the events. *)
Definition inserts (evs : list event) : list (string * list byte * N) :=
  omap (λ e, match e with
             | Inserted key val size => Some (key, val, size)
             | _ => None
             end) evs.

(** The events of a run from [w] to [w']. *)
Definition events_since (w w' : world) : list event :=
  drop (length (log w)) (log w').

(** The blocks in which [rio_readnb] delivers a stream when asked for [n]
    bytes at a time. *)
Fixpoint blocks (fuel n : nat) (bs : list byte) : list (list byte) :=
  match fuel with
  | O => []
  | S fuel' =>
      if decide (length bs = 0) then []
      else take n bs :: blocks fuel' n (drop n bs)
  end.

(** The whole response of the origin arrives in the first read of
    [forward_http_response]. *)
Definition single_read (w : world) : Prop :=
  fst <$> rio_readnb (N.to_nat MAX_OBJECT_SIZE) w = Some (Some (origin_bytes w)).

(** A world whose origin answers with a short response, and one whose
    origin answers with more than [MAX_OBJECT_SIZE] bytes. *)
Definition demo_world (response : list byte) : world :=
  World [] AtEOF response AtEOF (λ _, None) true (s_mem demo) [].

(** The checks that [parse_http_request] makes after reading the request,
    in its order: the reply to send (status, short and long message), or the
    request when every check passes. *)
Definition validate (p : parser_t) : (string * string * string) + http_info :=
  match parser_retrieve p HTTP_VERSION with
  | None => inl ("400", "Bad Request", "Cannot parse HTTP version")
  | Some version =>
  if negb (streq version "1.0" || streq version "1.1")
  then inl ("400", "Bad Request", "Wrong HTTP version")
  else
  match parser_retrieve p METHOD with
  | None => inl ("400", "Bad Request", "Cannot parse HTTP method")
  | Some method =>
  if negb (streq method "GET")
  then inl ("501", "Not Implemented", "HTTP method not implemented")
  else
  match parser_retrieve p SCHEME with
  | None => inl ("400", "Bad Request", "Cannot parse HTTP scheme")
  | Some scheme =>
  if negb (streq scheme "http")
  then inl ("501", "Not Implemented", "HTTP scheme not implemented")
  else
  match parser_retrieve p URI with
  | None => inl ("400", "Bad Request", "Cannot parse uri")
  | Some uri =>
  match parser_retrieve p HOST with
  | None => inl ("400", "Bad Request", "Cannot parse host")
  | Some host =>
  match parser_retrieve p PORT with
  | None => inl ("400", "Bad Request", "Cannot parse port")
  | Some port =>
  match parser_retrieve p PATH with
  | None => inl ("400", "Bad Request", "Cannot parse path")
  | Some path => inr (HttpInfo method version scheme uri host port path)
  end end end end end end end.

(** The error replies of [parse_http_request]. *)
Definition error_replies : list (string * string * string) :=
  [ ("400", "Bad Request", "Cannot parse HTTP version");
    ("400", "Bad Request", "Wrong HTTP version");
    ("400", "Bad Request", "Cannot parse HTTP method");
    ("501", "Not Implemented", "HTTP method not implemented");
    ("400", "Bad Request", "Cannot parse HTTP scheme");
    ("501", "Not Implemented", "HTTP scheme not implemented");
    ("400", "Bad Request", "Cannot parse uri");
    ("400", "Bad Request", "Cannot parse host");
    ("400", "Bad Request", "Cannot parse port");
    ("400", "Bad Request", "Cannot parse path") ].

(** The events of an error reply: the headers, then the body. *)
Definition error_page (errnum shortmsg longmsg : string) : list event :=
  [ Wrote ClientFd
      (bytes_of (clienterror_headers errnum shortmsg
                   (String.length (clienterror_body errnum shortmsg longmsg))));
    Wrote ClientFd (bytes_of (clienterror_body errnum shortmsg longmsg)) ].

(** The version that the parser holds is 1.0 or 1.1. *)
Definition version_ok (p : parser_t) : Prop :=
  parser_retrieve p HTTP_VERSION = Some "1.0" ∨
  parser_retrieve p HTTP_VERSION = Some "1.1".

(** A parser for the examples: it knows three lines. *)
Definition example_lex (line : string) : parsed_line :=
  if streq line ("POST http://h/ HTTP/2.0" +:+ CRLF) then
    IsRequest (Request (Some "POST") (Some "h") (Some "http") (Some "http://h/")
                       (Some "80") (Some "/") (Some "2.0"))
  else if streq line ("POST http://h/ HTTP/1.0" +:+ CRLF) then
    IsRequest (Request (Some "POST") (Some "h") (Some "http") (Some "http://h/")
                       (Some "80") (Some "/") (Some "1.0"))
  else if streq line ("Host: h" +:+ CRLF) then IsHeader (Header "Host" "h")
  else IsError.

(** A world whose client sends [lines] and then nothing. *)
Definition client_world (lines : list string) : world :=
  World lines AtEOF [] AtEOF (λ _, None) true cache_create [].

(** The world after the loop has forwarded all of the origin's bytes. *)
Definition forwarded (fuel : nat) (w : world) : world :=
  World (client_lines w) (client_end w) [] (origin_end w) (room w)
        (connect_ok w) (g_cache w)
        (log w ++ (Wrote ClientFd <$>
                   blocks fuel (N.to_nat MAX_OBJECT_SIZE) (origin_bytes w))).

(** The peer on [f] still accepts [n] bytes. *)
Definition can_take (w : world) (f : fd) (n : nat) : Prop :=
  match room w f with
  | None => True
  | Some r => n ≤ r
  end.

(** The part of [serve] that follows a successful [parse_http_request]: the
    lookup in the cache and, when the URI is not cached, the exchange with
    the origin. *)
Definition serve_request (buf0 : list byte) (p : parser_t) (info : http_info)
  : M unit :=
  do entry <- g_cache_get (i_uri info);
  match entry with
  | Some (a, e) =>
      do _ <- rio_writen ClientFd (take (N.to_nat (e_size e)) (e_val e));
      g_cache_entry_release a
  | None =>
      match construct_new_request p info with
      | None => fault
      | Some (false, _, _) => ret tt
      | Some (true, new_req, _) =>
          do connected <- open_clientfd (i_host info) (i_port info);
          if negb connected then ret tt
          else
            do ok <- rio_writen HostFd (bytes_of new_req);
            if negb ok then ret tt
            else
              do _ <- forward_http_response buf0 (i_uri info);
              ret tt
      end
  end.

(** Whether an event is the closing of a descriptor. *)
Definition is_closed (e : event) : bool :=
  match e with
  | Closed _ => true
  | _ => false
  end.

(** A parser for the examples of a whole exchange: it knows a request line
    and a header. *)
Definition get_lex (line : string) : parsed_line :=
  if streq line ("GET http://h/a HTTP/1.1" +:+ CRLF) then
    IsRequest (Request (Some "GET") (Some "h") (Some "http") (Some "http://h/a")
                       (Some "80") (Some "/a") (Some "1.1"))
  else if streq line ("GET http://h/c HTTP/1.1" +:+ CRLF) then
    IsRequest (Request (Some "GET") (Some "h") (Some "http") (Some "http://h/c")
                       (Some "80") (Some "/c") (Some "1.1"))
  else if streq line ("Accept: */*" +:+ CRLF) then
    IsHeader (Header "Accept" "*/*")
  else IsError.

(** A client that asks for [uri] in a world with the cache of [demo], in
    which [http://h/a] is cached and [http://h/c] is not; the origin answers
    with [response]. *)
Definition exchange_world (request_line : string) (response : list byte)
    (reachable_origin : bool) : world :=
  World [request_line +:+ CRLF; "Accept: */*" +:+ CRLF; CRLF] AtEOF
        response AtEOF (λ _, None) reachable_origin (s_mem demo) [].

(** A line after which the reading loop of [parse_http_request] goes on:
    it is not the end of file, not the blank line, and the parser takes
    it. *)
Definition goes_on (lex : string → parsed_line) (line : string) : Prop :=
  line ≠ EmptyString ∧ line ≠ CRLF ∧ lex line ≠ IsError.

(** The parser after the lines [ls], and the number of characters in
    them. *)
Definition parse_lines (lex : string → parsed_line) (p : parser_t)
    (ls : list string) : parser_t :=
  foldl (λ p line, (parser_parse_line lex p line).1) p ls.

Definition chars (ls : list string) : nat :=
  foldr (λ line n, String.length line + n) 0 ls.

(** * Proofs *)

Lemma SIZE_MOD_eq : SIZE_MOD = 18446744073709551616%N.
Proof. reflexivity. Qed.

Lemma MAX_CACHE_SIZE_eq : MAX_CACHE_SIZE = 1048576%N.
Proof. reflexivity. Qed.

Lemma MAX_OBJECT_SIZE_eq : MAX_OBJECT_SIZE = 102400%N.
Proof. reflexivity. Qed.

(** Linear arithmetic with the constants of [cache.h] spelled out. *)
Ltac size_lia :=
  rewrite ?SIZE_MOD_eq, ?MAX_CACHE_SIZE_eq, ?MAX_OBJECT_SIZE_eq in *; lia.

Section list_facts.
Context {A : Type}.
Implicit Types (l s : list A) (a e : A).

Lemma last_cons_self a s : NoDup (a :: s) → last (a :: s) = Some a → s = [].
Proof.
  intros Hnd Hl. destruct s as [|b s]; [done|].
  exfalso. apply NoDup_cons in Hnd as [Hn _]. apply Hn.
  rewrite last_cons_cons in Hl. by apply last_Some_elem_of.
Qed.

Lemma head_snoc_self a s : NoDup (a :: s) → head (s ++ [a]) = Some a → s = [].
Proof.
  intros Hnd Hh. destruct s as [|b s]; [done|]. simpl in Hh.
  apply NoDup_cons in Hnd as [Hn _]. exfalso. apply Hn. set_solver.
Qed.

Lemma head_app_cons a s l : head ((a :: s) ++ l) = Some a.
Proof. done. Qed.

Lemma split_cons e l l1 a l2 :
  e :: l = l1 ++ a :: l2 →
  (l1 = [] ∧ a = e ∧ l2 = l) ∨ (∃ l1', l1 = e :: l1' ∧ l = l1' ++ a :: l2).
Proof. destruct l1 as [|b l1]; naive_solver. Qed.

Lemma split_app p q l1 a l2 :
  p ++ q = l1 ++ a :: l2 →
  (∃ p2, p = l1 ++ a :: p2 ∧ l2 = p2 ++ q) ∨
  (∃ q1, q = q1 ++ a :: l2 ∧ l1 = p ++ q1).
Proof.
  revert l1. induction p as [|b p IH]; intros l1 H; simpl in *.
  - right. by exists l1.
  - destruct l1 as [|c l1]; injection H as -> H.
    + left. by exists p.
    + destruct (IH _ H) as [(p2 & -> & ->)|(q1 & -> & ->)].
      * left. by exists p2.
      * right. by exists q1.
Qed.

Lemma head_app_self l1 a l2 :
  NoDup (l1 ++ a :: l2) → head (l1 ++ a :: l2) = Some a → l1 = [].
Proof.
  destruct l1 as [|b l1]; [done|]. simpl. intros Hnd [= ->].
  apply NoDup_cons in Hnd as [Hn _]. exfalso. apply Hn. set_solver.
Qed.

Lemma head_app_ne s l : s ≠ [] → head (s ++ l) = head s.
Proof. by destruct s. Qed.

Lemma last_app_ne l s : s ≠ [] → last (l ++ s) = last s.
Proof. destruct s as [|b s]; [done|]. intros _. apply last_app_cons. Qed.

Lemma last_cons_ne a s : s ≠ [] → last (a :: s) = last s.
Proof. destruct s; [done|]. intros _. apply last_cons_cons. Qed.

(** A node [a] of [p ++ q], seen from the list [p ++ e :: q]: going round
    from [a] one meets [s1], then [e], then [s2]. *)
Lemma removal_context p e q l1 a l2 :
  p ++ q = l1 ++ a :: l2 →
  ∃ l1o l2o s1 s2,
    p ++ e :: q = l1o ++ a :: l2o ∧ l2o ++ l1o = s1 ++ e :: s2 ∧
    l2 ++ l1 = s1 ++ s2 ∧ q ++ p = s2 ++ a :: s1.
Proof.
  intros [(p2 & -> & ->)|(q1 & -> & ->)]%split_app.
  - exists l1, (p2 ++ e :: q), p2, (q ++ l1).
    by rewrite <- !app_assoc.
  - exists (p ++ e :: q1), l2, (l2 ++ p), q1.
    by rewrite <- !app_assoc.
Qed.
End list_facts.

Section ring_facts.
Implicit Types (h : gmap addr entry_t) (l : list addr) (a : addr) (e : entry_t).

Lemma ring_nil h : ring h [].
Proof. split; [constructor|]. intros [|??] ???; done. Qed.

Lemma ring_NoDup h l : ring h l → NoDup l.
Proof. by intros [? _]. Qed.

Lemma ring_alloc h l a : ring h l → a ∈ l → is_Some (h !! a).
Proof.
  intros [_ Hr] (l1 & l2 & ->)%list_elem_of_split.
  destruct (Hr l1 a l2 eq_refl) as (e & -> & _); eauto.
Qed.

Lemma ring_length h l : ring h l → length l ≤ size h.
Proof.
  intros Hr. rewrite <- size_dom, <- (size_list_to_set (C := gset addr) l)
    by (by apply ring_NoDup in Hr).
  apply subseteq_size. intros a Ha%elem_of_list_to_set.
  apply elem_of_dom. eauto using ring_alloc.
Qed.

Lemma ring_next h l1 a l2 e :
  ring h (l1 ++ a :: l2) → h !! a = Some e →
  e_next e = head (l2 ++ l1 ++ [a]).
Proof. intros [_ Hr] He. destruct (Hr l1 a l2 eq_refl) as (? & ? & ? & ?). congruence. Qed.

Lemma ring_prev h l1 a l2 e :
  ring h (l1 ++ a :: l2) → h !! a = Some e →
  e_prev e = last (a :: l2 ++ l1).
Proof. intros [_ Hr] He. destruct (Hr l1 a l2 eq_refl) as (? & ? & ? & ?). congruence. Qed.

(** Only the pointers of the nodes of [l] matter. *)
Lemma ring_frame h h' l :
  ring h l →
  (∀ a e, a ∈ l → h !! a = Some e →
     ∃ e', h' !! a = Some e' ∧ e_next e' = e_next e ∧ e_prev e' = e_prev e) →
  ring h' l.
Proof.
  intros [Hnd Hr] Hf. split; [done|]. intros l1 a l2 ->.
  destruct (Hr l1 a l2 eq_refl) as (e & He & Hn & Hp).
  destruct (Hf a e) as (e' & ? & ? & ?); [set_solver|done|].
  exists e'. split_and!; congruence.
Qed.

Lemma walk_ring h a0 l1 c l2 fuel :
  ring h (l1 ++ c :: l2) → head (l1 ++ [c]) = Some a0 →
  length (c :: l2) ≤ fuel →
  walk fuel h a0 c = c :: l2.
Proof.
  revert l1 c fuel. induction l2 as [|d l2 IH]; intros l1 c fuel Hr Hh Hf;
    (destruct fuel as [|fuel]; [simpl in Hf; lia|]); simpl;
    destruct (ring_alloc h _ c Hr) as [e He]; [set_solver| |set_solver|];
    rewrite He; simpl; rewrite (ring_next _ _ _ _ _ Hr He); simpl.
  - rewrite Hh. by rewrite decide_True.
  - rewrite decide_False.
    + f_equal. apply (IH (l1 ++ [c])).
      * by rewrite <- app_assoc.
      * rewrite <- Hh. by destruct l1.
      * simpl in *. lia.
    + intros ->. apply ring_NoDup in Hr.
      assert (a0 ∈ l1 ++ [c]) as Hin by (by apply head_Some_elem_of).
      rewrite cons_middle, app_assoc in Hr.
      apply NoDup_app in Hr as (_ & Hd & _). apply (Hd a0 Hin). set_solver.
Qed.

Lemma find_loop_ring h a0 l1 c l2 fuel key :
  ring h (l1 ++ c :: l2) → head (l1 ++ [c]) = Some a0 →
  length (c :: l2) ≤ fuel →
  find_loop fuel h a0 c key = Some (lookup_key h key (c :: l2)).
Proof.
  revert l1 c fuel. induction l2 as [|d l2 IH]; intros l1 c fuel Hr Hh Hf;
    (destruct fuel as [|fuel]; [simpl in Hf; lia|]); simpl;
    destruct (ring_alloc h _ c Hr) as [e He]; [set_solver| |set_solver|];
    rewrite He; simpl; rewrite (ring_next _ _ _ _ _ Hr He); simpl.
  - rewrite Hh. rewrite (decide_True (P := a0 = a0)) by done.
    destruct (decide (e_key e = key)).
    + by rewrite decide_True by congruence.
    + by rewrite decide_False by congruence.
  - destruct (decide (e_key e = key)).
    { by rewrite decide_True by congruence. }
    rewrite (decide_False (P := Some (e_key e) = Some key)) by congruence.
    rewrite decide_False.
    + apply (IH (l1 ++ [c])).
      * by rewrite <- app_assoc.
      * rewrite <- Hh. by destruct l1.
      * simpl in *. lia.
    + intros ->. apply ring_NoDup in Hr.
      assert (a0 ∈ l1 ++ [c]) as Hin by (by apply head_Some_elem_of).
      rewrite cons_middle, app_assoc in Hr.
      apply NoDup_app in Hr as (_ & Hd & _). apply (Hd a0 Hin). set_solver.
Qed.

Lemma entries_ring h c l :
  ring h l → c_head c = head l → entries (Mem h c) = l.
Proof.
  intros Hr Hh. unfold entries. simpl. rewrite Hh.
  destruct l as [|a l]; [done|]. simpl.
  apply (walk_ring h a [] a l); [done..|].
  by apply ring_length in Hr.
Qed.

Lemma find_ring h c l key :
  ring h l → c_head c = head l →
  find (Mem h c) key = Some (lookup_key h key l).
Proof.
  intros Hr Hh. unfold find. simpl. rewrite Hh.
  destruct l as [|a l]; [done|]. cbn [head].
  apply (find_loop_ring h a [] a l); [done..|].
  by apply ring_length in Hr.
Qed.
End ring_facts.

Section heap_facts.
Implicit Types (h : gmap addr entry_t) (l : list addr) (a p : addr) (e : entry_t).

Lemma store_is_Some h p f :
  is_Some (h !! p) →
  ∃ h', store h p f = Some h' ∧
        ∀ a, h' !! a = (if decide (a = p) then f else id) <$> h !! a.
Proof.
  intros [e He]. exists (<[p := f e]> h). unfold store. rewrite He. split; [done|].
  intros a. case_decide as Ha.
  - subst. by rewrite lookup_insert_eq, He.
  - rewrite lookup_insert_ne by done. by destruct (h !! a).
Qed.

Lemma same_data_refl h : same_data h h.
Proof. done. Qed.

Lemma same_data_trans h1 h2 h3 :
  same_data h1 h2 → same_data h2 h3 → same_data h1 h3.
Proof. intros H1 H2 a. by rewrite H2, H1. Qed.

Lemma same_data_lookup h h' a e' :
  same_data h h' → h' !! a = Some e' →
  ∃ e, h !! a = Some e ∧ payload e = payload e'.
Proof.
  intros Hs He. specialize (Hs a). rewrite He in Hs.
  destruct (h !! a) as [e|]; simplify_eq /=.
  eexists; split; [done|]. unfold payload. congruence.
Qed.

Lemma same_data_lookup_r h h' a e :
  same_data h h' → h !! a = Some e →
  ∃ e', h' !! a = Some e' ∧ payload e = payload e'.
Proof.
  intros Hs He. specialize (Hs a). rewrite He in Hs.
  destruct (h' !! a) as [e'|]; simplify_eq /=.
  eexists; split; [done|]. unfold payload. congruence.
Qed.

Lemma same_data_None h h' a : same_data h h' → h !! a = None ↔ h' !! a = None.
Proof.
  intros Hs. specialize (Hs a).
  destruct (h !! a), (h' !! a); naive_solver.
Qed.

Lemma same_data_esize h h' a : same_data h h' → esize h' a = esize h a.
Proof.
  intros Hs. unfold esize. specialize (Hs a).
  destruct (h !! a) as [e|], (h' !! a) as [e'|]; simplify_eq /=; done.
Qed.

Lemma same_data_total h h' l : same_data h h' → total h' l = total h l.
Proof.
  intros Hs. induction l as [|a l IH]; [done|]. simpl.
  by rewrite IH, (same_data_esize h h').
Qed.

Lemma same_data_lookup_key h h' key l :
  same_data h h' → lookup_key h' key l = lookup_key h key l.
Proof.
  intros Hs. induction l as [|a l IH]; [done|]. simpl. rewrite IH.
  assert (e_key <$> h' !! a = e_key <$> h !! a) as ->; [|done].
  specialize (Hs a). unfold payload in Hs.
  destruct (h !! a), (h' !! a); simplify_eq /=; congruence.
Qed.

Lemma same_data_size h h' : same_data h h' → size h' = size h.
Proof.
  intros Hs. rewrite <- !size_dom. f_equal. apply set_eq. intros a.
  rewrite !elem_of_dom. specialize (Hs a).
  destruct (h !! a), (h' !! a); simplify_eq /=; split; intros []; eauto; done.
Qed.
End heap_facts.

Section list_ops.
Implicit Types (h : gmap addr entry_t) (l p q : list addr) (a : addr) (e : entry_t).

(** Decides the address comparisons that the context settles. *)
Ltac addr_cases :=
  repeat match goal with
  | |- context [decide (?x = ?x)] => rewrite (decide_True (P := x = x)) by done
  | H : ?x ≠ ?y |- context [decide (?x = ?y)] =>
      rewrite (decide_False (P := x = y)) by done
  | H : ?y ≠ ?x |- context [decide (?x = ?y)] =>
      rewrite (decide_False (P := x = y)) by done
  end.

Lemma insert_front_ring h c l a e :
  ring h l → c_head c = head l → a ∉ l → h !! a = Some e →
  ∃ h', insert_front (Mem h c) a
        = Some (Mem h' (Cache (size_add (c_size c) (e_size e)) (Some a))) ∧
        ring h' (a :: l) ∧ same_data h h'.
Proof.
  intros Hr Hh Ha He. unfold insert_front. cbn [heap cache]. rewrite Hh.
  destruct l as [|a0 r]; cbn [head].
  - destruct (store_is_Some h a (set_prev (Some a))) as (h1 & -> & L1); [eauto|].
    cbn [mbind option_bind].
    destruct (store_is_Some h1 a (set_next (Some a))) as (h2 & -> & L2).
    { rewrite L1, He. eauto. }
    cbn [mbind option_bind].
    assert (∀ b, h2 !! b = (if decide (b = a)
              then set_next (Some a) ∘ set_prev (Some a) else id) <$> h !! b) as L.
    { intros b. rewrite L2, L1. case_decide; by destruct (h !! b). }
    rewrite L, He, decide_True by done. simpl.
    eexists. split; [reflexivity|]. split.
    + split; [apply NoDup_singleton|]. intros [|? [|]] b l2 [=]; subst.
      eexists. rewrite L, He, decide_True by done. done.
    + intros b. rewrite L. case_decide; by destruct (h !! b).
  - destruct (ring_alloc h _ a0 Hr) as [e0 He0]; [set_solver|].
    rewrite He0. cbn [mbind option_bind].
    pose proof (ring_prev h [] a0 r e0 Hr He0) as Hp. rewrite app_nil_r in Hp.
    destruct (last (a0 :: r)) as [z|] eqn:Hz; [|by apply last_None in Hz].
    rewrite Hp. cbn [mbind option_bind].
    assert (z ∈ a0 :: r) as Hzin by (by apply last_Some_elem_of).
    destruct (store_is_Some h z (set_next (Some a))) as (h1 & -> & L1).
    { eauto using ring_alloc. }
    cbn [mbind option_bind].
    destruct (store_is_Some h1 a0 (set_prev (Some a))) as (h2 & -> & L2).
    { rewrite L1, He0. eauto. }
    cbn [mbind option_bind].
    destruct (store_is_Some h2 a (set_next (Some a0))) as (h3 & -> & L3).
    { rewrite L2, L1, He. eauto. }
    cbn [mbind option_bind].
    destruct (store_is_Some h3 a (set_prev (Some z))) as (h4 & -> & L4).
    { rewrite L3, L2, L1, He. eauto. }
    cbn [mbind option_bind].
    assert (a ≠ z) as Haz by (intros ->; done).
    assert (a ≠ a0) as Ha0 by set_solver.
    rewrite L4, L3, L2, L1, He. rewrite !decide_True, !decide_False by done.
    simpl. eexists. split; [reflexivity|]. split.
    + split; [by apply NoDup_cons; split; [|apply ring_NoDup in Hr]|].
      intros l1 b l2 [(-> & -> & ->)|(l1' & -> & Hl)]%split_cons.
      * eexists. rewrite L4, L3, L2, L1, He.
        rewrite !decide_True, !decide_False by done. simpl.
        split_and!; [done..|]. simpl. by rewrite app_nil_r.
      * assert (b ≠ a) as Hba by (intros ->; apply Ha; rewrite Hl; set_solver).
        assert (NoDup (l1' ++ b :: l2)) as Hnd
          by (rewrite <- Hl; by apply ring_NoDup in Hr).
        rewrite Hl in Hr, Hz. simpl in Hh.
        assert (head (l1' ++ b :: l2) = Some a0) as Hh0 by (by rewrite <- Hl).
        destruct (ring_alloc h _ b Hr) as [eb Heb]; [set_solver|].
        pose proof (ring_next _ _ _ _ _ Hr Heb) as Hn.
        pose proof (ring_prev _ _ _ _ _ Hr Heb) as Hpv.
        rewrite last_app_cons in Hz.
        assert (b = z → l2 = []) as F1.
        { intros ->. apply last_cons_self in Hz; [done|].
          by apply NoDup_app in Hnd as (_ & _ & ?). }
        assert (b ≠ z → l2 ≠ []) as F2.
        { intros Hbz ->. simpl in Hz. congruence. }
        assert (b = a0 → l1' = []) as F3.
        { intros ->. by apply head_app_self in Hh0. }
        assert (b ≠ a0 → l1' ≠ []) as F4.
        { intros Hb0 ->. simpl in Hh0. congruence. }
        eexists. rewrite L4, L3, L2, L1, Heb.
        rewrite !(decide_False (P := b = a)) by done. simpl.
        split; [done|].
        destruct (decide (b = z)) as [Hbz|Hbz], (decide (b = a0)) as [Hb0|Hb0];
          simpl; split.
        all: try (rewrite (F1 Hbz); done).
        all: try (rewrite Hn, !head_app_ne by auto; done).
        all: try (rewrite (F3 Hb0), app_comm_cons, last_snoc; done).
        all: rewrite Hpv, !app_comm_cons, !last_app_ne by auto.
        all: by rewrite last_cons_ne by auto.
    + intros b. rewrite L4, L3, L2, L1.
      destruct (h !! b); simpl; [|done]. by repeat case_decide.
Qed.

Lemma remove_entry_ring h c p a q :
  ring h (p ++ a :: q) → c_head c = head (p ++ a :: q) →
  ∃ h' e, h !! a = Some e ∧
    remove_entry (Mem h c) a
    = Some (Mem h' (Cache (size_sub (c_size c) (e_size e)) (head (p ++ q)))) ∧
    ring h' (p ++ q) ∧ same_data h h' ∧
    h' !! a = Some (set_next None (set_prev None e)).
Proof.
  intros Hr Hh. destruct (ring_alloc h _ a Hr) as [e He]; [set_solver|].
  pose proof (ring_next _ _ _ _ _ Hr He) as Hn.
  pose proof (ring_prev _ _ _ _ _ Hr He) as Hp.
  pose proof (ring_NoDup _ _ Hr) as Hnd.
  unfold remove_entry. cbn [heap cache]. rewrite He. cbn [mbind option_bind].
  destruct (decide (q ++ p = [])) as [Hemp|Hne].
  - apply app_eq_nil in Hemp as [-> ->]. simpl in Hn.
    rewrite decide_True by done. cbn [mbind option_bind]. rewrite He.
    cbn [mbind option_bind]. rewrite decide_False by done.
    destruct (store_is_Some h a (set_prev None)) as (h2 & -> & L2); [eauto|].
    cbn [mbind option_bind].
    destruct (store_is_Some h2 a (set_next None)) as (h3 & -> & L3).
    { rewrite L2, He. eauto. }
    cbn [mbind option_bind]. rewrite L3, L2, He, !decide_True by done. simpl.
    eexists _, _. split; [done|]. split; [reflexivity|].
    split; [apply ring_nil|]. split.
    + intros b. rewrite L3, L2. destruct (h !! b); simpl; [|done].
      by repeat case_decide.
    + by rewrite L3, L2, He, !decide_True by done.
  - destruct (head (q ++ p)) as [nx|] eqn:Hnx; [|by apply head_None in Hnx].
    destruct (last (q ++ p)) as [pv|] eqn:Hpv; [|by apply last_None in Hpv].
    rewrite app_assoc, head_app_ne, Hnx in Hn by done.
    rewrite last_cons_ne, Hpv in Hp by done.
    assert (NoDup (q ++ p) ∧ a ∉ q ++ p) as [Hnd' Hnin].
    { rewrite <- Permutation_middle in Hnd.
      apply NoDup_cons in Hnd as [??]. by rewrite (comm (++)). }
    assert (nx ∈ q ++ p) as Hnxin by (by apply head_Some_elem_of).
    assert (pv ∈ q ++ p) as Hpvin by (by apply last_Some_elem_of).
    assert (a ≠ nx ∧ a ≠ pv) as [Hanx Hapv] by (split; intros ->; done).
    rewrite Hn, Hp, decide_False by congruence. cbn [mbind option_bind].
    destruct (store_is_Some h pv (set_next (Some nx))) as (h1 & -> & L1).
    { apply (ring_alloc h _ pv Hr). set_solver. }
    cbn [mbind option_bind].
    destruct (store_is_Some h1 nx (set_prev (Some pv))) as (h2 & -> & L2).
    { rewrite L1. apply fmap_is_Some, (ring_alloc h _ nx Hr). set_solver. }
    cbn [mbind option_bind]. rewrite L2, L1, He, !decide_False by done.
    cbn [mbind option_bind fmap option_fmap option_map id].
    destruct (store_is_Some h2 a (set_prev None)) as (h3 & -> & L3).
    { rewrite L2, L1, He. eauto. }
    cbn [mbind option_bind].
    destruct (store_is_Some h3 a (set_next None)) as (h4 & -> & L4).
    { rewrite L3, L2, L1, He. eauto. }
    cbn [mbind option_bind].
    rewrite L4, L3, L2, L1, He. addr_cases. simpl. rewrite Hn.
    assert ((if decide (c_head c = Some a) then Some nx else c_head c)
            = head (p ++ q)) as ->.
    { rewrite Hh. destruct p as [|b p]; simpl.
      - rewrite decide_True by done. by rewrite app_nil_r in Hnx.
      - rewrite decide_False; [done|]. intros [= ->]. set_solver. }
    eexists _, _. split; [done|]. split; [reflexivity|]. split; [|split].
    + split; [by rewrite (comm (++))|]. intros l1 b l2 Heq.
      destruct (removal_context p a q l1 b l2 Heq)
        as (l1o & l2o & s1 & s2 & Hold & Hrot & Hnew & Hq).
      rewrite Hold in Hr.
      destruct (ring_alloc h _ b Hr) as [eb Heb]; [set_solver|].
      pose proof (ring_next _ _ _ _ _ Hr Heb) as Hnb.
      pose proof (ring_prev _ _ _ _ _ Hr Heb) as Hpb.
      rewrite app_assoc, Hrot in Hnb. rewrite Hrot in Hpb.
      rewrite app_assoc, Hnew. rewrite Hq in Hnx, Hpv, Hnd', Hnin.
      rewrite last_app_cons in Hpv.
      assert (b ≠ a) as Hba by (intros ->; set_solver).
      assert (b = pv → s1 = []) as F1.
      { intros ->. apply last_cons_self in Hpv; [done|].
        by apply NoDup_app in Hnd' as (_ & _ & ?). }
      assert (b ≠ pv → s1 ≠ []) as F2.
      { intros ? ->. simpl in Hpv. congruence. }
      assert (b = nx → s2 = []) as F3.
      { intros ->. by apply head_app_self in Hnx. }
      assert (b ≠ nx → s2 ≠ []) as F4.
      { intros ? ->. simpl in Hnx. congruence. }
      eexists. rewrite L4, L3, L2, L1, Heb. addr_cases. simpl.
      split; [done|].
      destruct (decide (b = pv)) as [Hbp|Hbp], (decide (b = nx)) as [Hbn|Hbn];
        simpl; split.
      all: try (rewrite Hnb, <- !app_assoc, !head_app_ne by auto; done).
      all: try (rewrite Hpb, !app_comm_cons, last_app_cons, last_app_ne,
                  last_cons_ne by auto; done).
      all: try (rewrite (F3 Hbn), app_nil_r; done).
      all: rewrite (F1 Hbp) in Hnx |- *; rewrite <- Hnx; by destruct s2.
    + intros b. rewrite L4, L3, L2, L1.
      destruct (h !! b); simpl; [|done]. by repeat case_decide.
    + rewrite L4, L3, L2, L1, He. by addr_cases.
Qed.
End list_ops.

Section sizes.
Implicit Types (h : gmap addr entry_t) (l p q : list addr) (a : addr).

Lemma size_add_small (x y : N) :
  (x + y < SIZE_MOD)%N → size_add x y = (x + y)%N.
Proof. intros. unfold size_add. by apply N.mod_small. Qed.

Lemma size_sub_small (x y : N) :
  (y ≤ x)%N → (x < SIZE_MOD)%N → size_sub x y = (x - y)%N.
Proof.
  intros Hy Hx. unfold size_sub. rewrite (N.mod_small y) by lia.
  replace (x + (SIZE_MOD - y))%N with ((x - y) + 1 * SIZE_MOD)%N by lia.
  rewrite N.Div0.mod_add. apply N.mod_small. lia.
Qed.

Lemma total_app h p q : total h (p ++ q) = (total h p + total h q)%N.
Proof. induction p as [|a p IH]; simpl; [done|]. rewrite IH. lia. Qed.

Lemma total_Permutation h l l' : l ≡ₚ l' → total h l = total h l'.
Proof. induction 1; simpl; lia. Qed.

Lemma total_middle h p a q :
  total h (p ++ a :: q) = (esize h a + total h (p ++ q))%N.
Proof. rewrite !total_app. simpl. lia. Qed.

Lemma total_ext h h' l :
  (∀ a, a ∈ l → esize h' a = esize h a) → total h' l = total h l.
Proof.
  induction l as [|a l IH]; intros Hs; simpl; [done|].
  rewrite IH, Hs by set_solver. done.
Qed.

Lemma filter_ne_id l a : a ∉ l → filter (λ b, b ≠ a) l = l.
Proof.
  induction l as [|b l IH]; intros Ha; [done|].
  rewrite filter_cons_True by set_solver. f_equal. apply IH. set_solver.
Qed.

Lemma promote_split p a q :
  NoDup (p ++ a :: q) → promote a (p ++ a :: q) = a :: p ++ q.
Proof.
  intros Hnd. unfold promote. f_equal.
  rewrite filter_app, filter_cons_False by naive_solver.
  apply NoDup_app in Hnd as (_ & Hp & Hq%NoDup_cons).
  f_equal; apply filter_ne_id; set_solver.
Qed.

Lemma promote_Permutation a l : NoDup l → a ∈ l → promote a l ≡ₚ l.
Proof.
  intros Hnd (p & q & ->)%list_elem_of_split.
  rewrite promote_split by done. apply Permutation_middle.
Qed.
End sizes.

Section promote.
Implicit Types (h : gmap addr entry_t) (l p q : list addr) (a : addr).

Lemma esize_le_total h l a : a ∈ l → (esize h a ≤ total h l)%N.
Proof.
  intros (p & q & ->)%list_elem_of_split. rewrite total_middle. lia.
Qed.

(** [remove_entry] followed by [insert_front] moves the entry to the
    front and changes nothing else. *)
Lemma move_front_ring h c l a :
  ring h l → c_head c = head l → a ∈ l →
  c_size c = total h l → (total h l < SIZE_MOD)%N →
  ∃ h', (remove_entry (Mem h c) a ≫= λ m1, insert_front m1 a)
        = Some (Mem h' (Cache (c_size c) (Some a))) ∧
        ring h' (promote a l) ∧ same_data h h'.
Proof.
  intros Hr Hh (p & q & ->)%list_elem_of_split Hs Hb.
  destruct (remove_entry_ring h c p a q Hr Hh)
    as (h1 & e & He & -> & Hr1 & Hd1 & He1).
  cbn [mbind option_bind].
  destruct (insert_front_ring h1 (Cache (size_sub (c_size c) (e_size e))
              (head (p ++ q))) (p ++ q) a
              (set_next None (set_prev None e)) Hr1 eq_refl)
    as (h2 & -> & Hr2 & Hd2); [|exact He1|].
  { apply ring_NoDup in Hr. rewrite <- Permutation_middle in Hr.
    by apply NoDup_cons in Hr as [? _]. }
  exists h2. split; [|split].
  - do 2 f_equal. f_equal. simpl.
    assert (e_size e ≤ total h (p ++ a :: q))%N.
    { replace (e_size e) with (esize h a) by (unfold esize; by rewrite He).
      apply esize_le_total. set_solver. }
    rewrite size_sub_small by lia. rewrite size_add_small by lia. lia.
  - rewrite promote_split by (by apply ring_NoDup in Hr). done.
  - by eapply same_data_trans.
Qed.
End promote.

Section invariant.
Implicit Types (h : gmap addr entry_t) (l p q : list addr) (a b : addr).
Implicit Types (m : mem) (hs : list handle) (e : entry_t).

Lemma lookup_key_Some h key l a :
  lookup_key h key l = Some a → a ∈ l ∧ e_key <$> h !! a = Some key.
Proof.
  induction l as [|b l IH]; simpl; [done|]. case_decide.
  - intros [= ->]. split; [set_solver|done].
  - intros [??]%IH. split; [set_solver|done].
Qed.

Lemma lookup_key_None h key l a :
  lookup_key h key l = None → a ∈ l → e_key <$> h !! a ≠ Some key.
Proof.
  induction l as [|b l IH]; simpl; [set_solver|]. case_decide; [done|].
  intros Hl [->|?]%elem_of_cons; auto.
Qed.

Lemma held_cons hs a b v :
  held ((a, v) :: hs) b = if decide (a = b) then S (held hs b) else held hs b.
Proof.
  unfold held. rewrite filter_cons. simpl. by repeat case_decide.
Qed.

Lemma held_le hs a : held hs a ≤ length hs.
Proof. apply length_filter. Qed.

Lemma held_elem_of hs a v : (a, v) ∈ hs → 0 < held hs a.
Proof.
  intros Hin. unfold held.
  assert ((a, v) ∈ filter (λ x : handle, x.1 = a) hs) as Hf
    by (by apply list_elem_of_filter).
  destruct (filter _ hs); [set_solver|simpl; lia].
Qed.

Lemma in_list_Permutation l l' a : l ≡ₚ l' → in_list l a = in_list l' a.
Proof.
  intros Hp. unfold in_list. by repeat case_decide; try done; rewrite Hp in *.
Qed.

Lemma in_list_range l a : (0 ≤ in_list l a ≤ 1)%Z.
Proof. unfold in_list. case_decide; lia. Qed.

(** Re-establishes the invariant after an operation that allocates
    nothing. *)
Lemma rep_shrink B0 B l l' m m' hs hs' :
  rep B0 l m hs →
  ring (heap m') l' → c_head (cache m') = head l' →
  c_size (cache m') = total (heap m') l' → (total (heap m') l' ≤ B)%N →
  l' ⊆ l →
  (∀ b e', heap m' !! b = Some e' →
     ∃ e, heap m !! b = Some e ∧ view e = view e') →
  (∀ b e', heap m' !! b = Some e' →
     e_ref e' = (in_list l' b + Z.of_nat (held hs' b))%Z ∧ (0 < e_ref e')%Z) →
  (∀ b v, (b, v) ∈ hs' → ∃ e', heap m' !! b = Some e' ∧ view e' = v) →
  rep B l' m' hs'.
Proof.
  intros [] ?? ?? Hsub Hv ??. split; try done.
  - intros b e' (e & He & Hve)%Hv.
    replace (e_size e') with (e_size e) by (by injection Hve). eauto.
  - intros a b ea eb Ha Hb (ea0 & ? & Hva)%Hv (eb0 & ? & Hvb)%Hv Hk.
    eapply rep_keys0; [by apply Hsub|by apply Hsub|done..|].
    injection Hva as -> _ _. injection Hvb as -> _ _. done.
Qed.

Lemma cache_get_miss B l m hs key :
  rep B l m hs → lookup_key (heap m) key l = None →
  cache_get m key = Some (m, None).
Proof.
  intros [] Hl. unfold cache_get. destruct m as [h c].
  rewrite (find_ring h c l) by done. simpl in *. by rewrite Hl.
Qed.

Lemma cache_get_hit B l m hs key a :
  rep B l m hs → (B < SIZE_MOD)%N →
  lookup_key (heap m) key l = Some a →
  (Z.of_nat (length hs) < INT_MAX - 1)%Z →
  ∃ m' e, heap m !! a = Some e ∧ e_key e = key ∧
    cache_get m key = Some (m', Some a) ∧
    rep B (promote a l) m' ((a, view e) :: hs) ∧
    c_size (cache m') = c_size (cache m) ∧
    ∀ b, payload <$> heap m' !! b
         = (λ x, payload (if decide (b = a) then set_ref (e_ref x + 1) x else x))
             <$> heap m !! b.
Proof.
  intros Hrep HB Hlk Hfew.
  pose proof (lookup_key_Some _ _ _ _ Hlk) as [Hin Hkey].
  pose proof Hrep as [Hr Hh Hs Hb Ho Hk Href Hhs].
  destruct m as [h c]. simpl in *.
  destruct (h !! a) as [e|] eqn:He; [|done]. injection Hkey as Hkey.
  unfold cache_get. rewrite (find_ring h c l) by done.
  cbn [mbind option_bind heap]. rewrite Hlk.
  destruct (move_front_ring h c l a) as (h' & Hmv & Hr' & Hd); [done..|lia|].
  destruct (remove_entry (Mem h c) a) as [m1|]; [|done].
  cbn [mbind option_bind] in Hmv |- *. rewrite Hmv.
  cbn [mbind option_bind heap cache].
  destruct (same_data_lookup_r h h' a e Hd He) as (e2 & He2 & Hp2).
  rewrite He2. cbn [mbind option_bind].
  destruct (Href a e He) as [Hra Hpos].
  assert (in_list l a = 1%Z) as Hil by (unfold in_list; by rewrite decide_True).
  pose proof (held_le hs a).
  assert (e_ref e2 = e_ref e) as Hre by (by injection Hp2).
  rewrite decide_False by lia.
  eexists _, e. split; [done|]. split; [done|]. split; [reflexivity|].
  assert (∀ b, <[a := set_ref (e_ref e2 + 1) e2]> h' !! b
            = (λ x, if decide (b = a) then set_ref (e_ref x + 1) x else x)
                <$> h' !! b) as L.
  { intros b. case_decide as Hba.
    - subst. by rewrite lookup_insert_eq, He2.
    - rewrite lookup_insert_ne by done. by destruct (h' !! b). }
  assert (promote a l ≡ₚ l) as Hperm.
  { apply promote_Permutation; [by apply ring_NoDup in Hr|done]. }
  assert (∀ b, payload <$> <[a := set_ref (e_ref e2 + 1) e2]> h' !! b
            = (λ x, payload (if decide (b = a)
                             then set_ref (e_ref x + 1) x else x)) <$> h !! b) as F.
  { intros b. rewrite L. specialize (Hd b).
    destruct (h' !! b) as [x'|], (h !! b) as [x|]; simplify_eq /=; try done.
    f_equal. case_decide; unfold payload; simpl; congruence. }
  assert (∀ b e', <[a := set_ref (e_ref e2 + 1) e2]> h' !! b = Some e' →
            ∃ e0, h !! b = Some e0 ∧
              payload e' = payload (if decide (b = a)
                                    then set_ref (e_ref e0 + 1) e0 else e0)) as G.
  { intros b e' Hb'. specialize (F b). rewrite Hb' in F.
    destruct (h !! b) as [e0|]; simplify_eq /=. exists e0. split; [done|].
    unfold payload. congruence. }
  assert (total (<[a := set_ref (e_ref e2 + 1) e2]> h') (promote a l)
          = total h l) as Ht.
  { rewrite (total_Permutation _ _ _ Hperm).
    rewrite <- (same_data_total h h') by done.
    apply total_ext. intros b _. unfold esize. rewrite L.
    destruct (h' !! b); simpl; [|done]. by case_decide. }
  split; [|split; [done|exact F]].
  eapply (rep_shrink B B l); [done|..]; cbn [heap cache].
  - eapply ring_frame; [done|]. intros b eb _ Heb. rewrite L, Heb. simpl.
    eexists. split; [done|]. by case_decide.
  - done.
  - by rewrite Ht.
  - by rewrite Ht.
  - intros b. by rewrite Hperm.
  - intros b e' (e0 & He0 & Hp0)%G. exists e0. split; [done|].
    unfold view. case_decide; injection Hp0 as -> -> -> _; done.
  - intros b e' (e0 & He0 & Hp0)%G.
    destruct (Href b e0 He0) as [Hrb Hposb].
    rewrite (in_list_Permutation _ _ b Hperm), held_cons.
    assert (e_ref e' = if decide (b = a) then (e_ref e0 + 1)%Z else e_ref e0)
      as -> by (case_decide; by injection Hp0).
    rewrite (decide_ext (a = b) (b = a)) by done.
    case_decide; lia.
  - intros b v [[= -> ->]|Hbv]%elem_of_cons.
    + rewrite lookup_insert_eq. eexists. split; [done|].
      unfold view. simpl. by injection Hp2 as -> -> -> _.
    + destruct (Hhs b v Hbv) as (e0 & He0 & <-).
      specialize (F b). rewrite He0 in F.
      destruct (<[a:=set_ref (e_ref e2 + 1) e2]> h' !! b) as [e'|];
        simplify_eq /=.
      exists e'. split; [done|]. unfold view. case_decide; simpl in *; congruence.
Qed.

Lemma cache_insert_present B l m hs key val sz a :
  rep B l m hs → (B < SIZE_MOD)%N → (sz ≤ MAX_OBJECT_SIZE)%N →
  lookup_key (heap m) key l = Some a →
  ∃ m', cache_insert m key val sz = Some (m', Some a) ∧
    rep B (promote a l) m' hs ∧
    c_size (cache m') = c_size (cache m) ∧
    same_data (heap m) (heap m').
Proof.
  intros Hrep HB Hsz Hlk.
  pose proof (lookup_key_Some _ _ _ _ Hlk) as [Hin Hkey].
  pose proof Hrep as [Hr Hh Hs Hb Ho Hk Href Hhs].
  destruct m as [h c]. simpl in *.
  unfold cache_insert. rewrite decide_False by lia.
  rewrite (find_ring h c l) by done.
  cbn [mbind option_bind heap]. rewrite Hlk.
  destruct (move_front_ring h c l a) as (h' & Hmv & Hr' & Hd); [done..|lia|].
  destruct (remove_entry (Mem h c) a) as [m1|]; [|done].
  cbn [mbind option_bind] in Hmv |- *. rewrite Hmv.
  cbn [mbind option_bind heap cache].
  assert (promote a l ≡ₚ l) as Hperm.
  { apply promote_Permutation; [by apply ring_NoDup in Hr|done]. }
  assert (total h' (promote a l) = total h l) as Ht.
  { by rewrite (total_Permutation _ _ _ Hperm), (same_data_total h h'). }
  eexists. split; [reflexivity|]. split; [|done].
  eapply (rep_shrink B B l); [done|..]; cbn [heap cache]; try done.
  - by rewrite Ht.
  - by rewrite Ht.
  - intros b. by rewrite Hperm.
  - intros b e' (e0 & ? & Hp)%(same_data_lookup h h'); [|done].
    exists e0. split; [done|]. unfold view. by injection Hp as -> -> -> _.
  - intros b e' (e0 & He0 & Hp)%(same_data_lookup h h'); [|done].
    rewrite (in_list_Permutation _ _ b Hperm).
    replace (e_ref e') with (e_ref e0) by (by injection Hp). eauto.
  - intros b v (e0 & He0 & <-)%Hhs.
    destruct (same_data_lookup_r h h' b e0 Hd He0) as (e' & ? & Hp).
    exists e'. split; [done|]. unfold view. by injection Hp as -> -> -> _.
Qed.

Lemma held_drop_handle hs a b :
  held (drop_handle a hs) b
  = if decide (b = a) then pred (held hs a) else held hs b.
Proof.
  induction hs as [|[c v] hs IH]; simpl.
  - by case_decide.
  - rewrite !held_cons.
    destruct (decide (c = a)), (decide (b = a)); subst;
      rewrite ?held_cons, ?IH; repeat case_decide; done.
Qed.

Lemma drop_handle_subseteq hs a : drop_handle a hs ⊆ hs.
Proof.
  induction hs as [|x hs IH]; simpl; [done|]. case_decide; set_solver.
Qed.

Lemma unref_live h a e :
  h !! a = Some e → (0 < e_ref e)%Z →
  unref h a = Some (if decide (e_ref e = 1%Z) then delete a h
                    else <[a := set_ref (e_ref e - 1) e]> h).
Proof.
  intros He Hpos. unfold unref, free_entry. rewrite He. simpl.
  rewrite decide_False by (unfold INT_MIN; lia).
  destruct (decide (e_ref e = 1%Z)) as [->|]; [done|].
  by rewrite decide_False by lia.
Qed.

Lemma unref_lookup h a e b :
  (if decide (e_ref e = 1%Z) then delete a h
   else <[a := set_ref (e_ref e - 1) e]> h) !! b
  = if decide (b = a)
    then (if decide (e_ref e = 1%Z) then None
          else Some (set_ref (e_ref e - 1) e))
    else h !! b.
Proof.
  destruct (decide (b = a)) as [->|]; case_decide.
  - apply lookup_delete_eq.
  - apply lookup_insert_eq.
  - by apply lookup_delete_ne.
  - by apply lookup_insert_ne.
Qed.

Lemma cache_entry_release_ok B l m hs a :
  rep B l m hs → a ∈ hs.*1 →
  ∃ m' e, heap m !! a = Some e ∧
    cache_entry_release m a = Some m' ∧
    rep B l m' (drop_handle a hs) ∧
    cache m' = cache m ∧
    heap m' = (if decide (e_ref e = 1%Z) then delete a (heap m)
               else <[a := set_ref (e_ref e - 1) e]> (heap m)) ∧
    (e_ref e = 1%Z ↔ a ∉ l ∧ held hs a = 1).
Proof.
  intros Hrep ([a' v] & -> & Hin)%list_elem_of_fmap. simpl.
  pose proof Hrep as [Hr Hh Hs Hb Ho Hk Href Hhs].
  destruct m as [h c]. simpl in *.
  destruct (Hhs _ _ Hin) as (e & He & Hv).
  destruct (Href _ _ He) as [Hra Hpos].
  pose proof (held_elem_of _ _ _ Hin) as Hheld.
  unfold cache_entry_release. cbn [heap cache].
  rewrite (unref_live h a' e) by done. cbn [mbind option_bind].
  eexists _, e. split; [done|]. split; [reflexivity|].
  assert (e_ref e = 1%Z ↔ a' ∉ l ∧ held hs a' = 1) as Hone.
  { unfold in_list in Hra. case_decide; split; intros; try lia.
    - naive_solver.
    - split; [done|lia]. }
  split; [|done].
  assert (∀ b, b ∈ l →
    esize (if decide (e_ref e = 1%Z) then delete a' h
           else <[a' := set_ref (e_ref e - 1) e]> h) b = esize h b) as Hes.
  { intros b Hb'. unfold esize. rewrite unref_lookup.
    destruct (decide (b = a')) as [->|]; [|done].
    case_decide; [naive_solver|]. by rewrite He. }
  eapply (rep_shrink B B l); [done|..]; cbn [heap cache]; try done.
  - eapply ring_frame; [done|]. intros b eb Hb' Heb. rewrite unref_lookup.
    destruct (decide (b = a')) as [->|]; [|eauto].
    case_decide; [naive_solver|]. simplify_eq. eauto.
  - by rewrite (total_ext h) by done.
  - by rewrite (total_ext h) by done.
  - intros b e'. rewrite unref_lookup.
    destruct (decide (b = a')) as [->|]; [|eauto].
    case_decide; [done|]. intros [= <-]. eauto.
  - intros b e'. rewrite unref_lookup, held_drop_handle.
    destruct (decide (b = a')) as [->|]; [|eauto].
    case_decide; [done|]. intros [= <-]. simpl. lia.
  - intros b v' Hin'. rewrite unref_lookup.
    pose proof (held_elem_of _ _ _ Hin') as Hh'.
    apply drop_handle_subseteq in Hin'.
    destruct (Hhs _ _ Hin') as (eb & Heb & Hvb).
    destruct (decide (b = a')) as [->|]; [|eauto].
    rewrite held_drop_handle, decide_True in Hh' by done.
    case_decide; [lia|]. simplify_eq. eauto.
Qed.

Lemma evict_entry_ok B l z m hs :
  rep B (l ++ [z]) m hs → (B < SIZE_MOD)%N →
  ∃ m', evict_entry m z = Some m' ∧ rep B l m' hs ∧
    shrinks (heap m) (heap m') ∧
    (∀ b, b ∈ l → esize (heap m') b = esize (heap m) b) ∧
    (is_Some (heap m' !! z) ↔ 0 < held hs z).
Proof.
  intros Hrep HB.
  pose proof Hrep as [Hr Hh Hs Hb Ho Hk Href Hhs].
  destruct m as [h c]. simpl in *.
  destruct (remove_entry_ring h c l z [] Hr Hh)
    as (h1 & e & He & Hrm & Hr1 & Hd1 & He1).
  rewrite app_nil_r in Hrm, Hr1.
  unfold evict_entry. rewrite Hrm. cbn [mbind option_bind heap cache].
  destruct (Href _ _ He) as [Hra Hpos].
  assert (z ∉ l) as Hzl.
  { apply ring_NoDup, NoDup_app in Hr as (_ & Hn & _).
    intros ?. eapply Hn; [done|set_solver]. }
  assert (in_list (l ++ [z]) z = 1%Z) as Hil
    by (unfold in_list; rewrite decide_True; [done|set_solver]).
  rewrite (unref_live h1 z (set_next None (set_prev None e))) by done.
  cbn [mbind option_bind e_ref set_next set_prev].
  assert (∀ b, b ≠ z → in_list l b = in_list (l ++ [z]) b) as Hil'.
  { intros b Hbz. unfold in_list. repeat case_decide; set_solver. }
  assert (in_list l z = 0%Z) as Hilz by (unfold in_list; by rewrite decide_False).
  assert (∀ b, b ∈ l →
    esize (if decide (e_ref e = 1%Z) then delete z h1
           else <[z := set_ref (e_ref e - 1)
                        (set_next None (set_prev None e))]> h1) b = esize h b) as Hes.
  { intros b Hb'. unfold esize.
    pose proof (unref_lookup h1 z (set_next None (set_prev None e)) b) as Hl.
    cbn [e_ref set_next set_prev] in Hl. rewrite Hl.
    rewrite decide_False by (intros ->; done).
    apply (same_data_esize h h1 b Hd1). }
  assert (total h (l ++ [z]) = (total h l + e_size e)%N) as Ht.
  { rewrite total_app. simpl. replace (esize h z) with (e_size e); [lia|].
    unfold esize. by rewrite He. }
  assert (size_sub (c_size c) (e_size e) = total h l) as Hsz.
  { rewrite Hs, size_sub_small by lia. lia. }
  eexists. split; [reflexivity|].
  assert (shrinks h (if decide (e_ref e = 1%Z) then delete z h1
           else <[z := set_ref (e_ref e - 1)
                        (set_next None (set_prev None e))]> h1)) as Hshr.
  { intros b e'.
    pose proof (unref_lookup h1 z (set_next None (set_prev None e)) b) as Hl.
    cbn [e_ref set_next set_prev] in Hl. rewrite Hl.
    destruct (decide (b = z)) as [->|].
    - case_decide; [done|]. intros [= <-]. eauto.
    - intros (e0 & ? & Hp)%(same_data_lookup h h1); [|done].
      exists e0. split; [done|]. unfold view. by injection Hp as -> -> -> _. }
  split; [|split; [done|split; [done|]]].
  - eapply (rep_shrink B B (l ++ [z])); [done|..]; cbn [heap cache]; try done.
    + eapply ring_frame; [done|]. intros b eb Hb' Heb.
      pose proof (unref_lookup h1 z (set_next None (set_prev None e)) b) as Hl.
      cbn [e_ref set_next set_prev] in Hl. rewrite Hl.
      rewrite decide_False by (intros ->; done). eauto.
    + by rewrite (total_ext h) by done.
    + rewrite (total_ext h) by done. lia.
    + set_solver.
    + intros b e'.
      pose proof (unref_lookup h1 z (set_next None (set_prev None e)) b) as Hl.
      cbn [e_ref set_next set_prev] in Hl. rewrite Hl.
      destruct (decide (b = z)) as [->|].
      * case_decide; [done|]. intros [= <-]. simpl. lia.
      * intros (e0 & He0 & Hp)%(same_data_lookup h h1); [|done].
        rewrite Hil' by done.
        replace (e_ref e') with (e_ref e0) by (by injection Hp). eauto.
    + intros b v Hin. destruct (Hhs _ _ Hin) as (eb & Heb & <-).
      pose proof (held_elem_of _ _ _ Hin).
      pose proof (unref_lookup h1 z (set_next None (set_prev None e)) b) as Hl.
      cbn [e_ref set_next set_prev] in Hl. rewrite Hl.
      destruct (decide (b = z)) as [->|].
      * case_decide; [lia|]. simplify_eq. eauto.
      * destruct (same_data_lookup_r h h1 b eb Hd1 Heb) as (e' & ? & Hp).
        exists e'. split; [done|]. unfold view. by injection Hp as -> -> -> _.
  - pose proof (unref_lookup h1 z (set_next None (set_prev None e)) z) as Hl.
    cbn [e_ref set_next set_prev] in Hl. cbn [heap].
    rewrite Hl, decide_True by done.
    case_decide as Hone; split; intros Hx; try lia; [by destruct Hx|eauto].
Qed.

Lemma sum_sizes_Permutation sz l l' :
  l ≡ₚ l' → sum_sizes sz l = sum_sizes sz l'.
Proof. unfold sum_sizes. induction 1; simpl; lia. Qed.

Lemma sum_sizes_ext sz sz' l :
  (∀ b, b ∈ l → sz b = sz' b) → sum_sizes sz l = sum_sizes sz' l.
Proof.
  unfold sum_sizes. induction l as [|b l IH]; intros Hs; simpl; [done|].
  rewrite IH, Hs by set_solver. done.
Qed.

Lemma spec_evict_nil sz : spec_evict sz [] = [].
Proof. done. Qed.

Lemma spec_evict_snoc sz l z :
  spec_evict sz (l ++ [z])
  = if decide (MAX_CACHE_SIZE < sum_sizes sz (l ++ [z]))%N
    then spec_evict sz l else l ++ [z].
Proof.
  unfold spec_evict. rewrite reverse_snoc. cbn [spec_evict_lru_first].
  rewrite (sum_sizes_Permutation sz (z :: reverse l) (l ++ [z])).
  - case_decide; [done|]. by rewrite reverse_cons, reverse_involutive.
  - rewrite reverse_Permutation. apply Permutation_cons_append.
Qed.

Lemma spec_evict_ext sz sz' l :
  (∀ b, b ∈ l → sz b = sz' b) → spec_evict sz l = spec_evict sz' l.
Proof.
  induction l as [|z l IH] using rev_ind; intros Hs; [done|].
  rewrite !spec_evict_snoc, (sum_sizes_ext sz sz') by done.
  case_decide; [|done]. apply IH. intros b ?. apply Hs. set_solver.
Qed.

Lemma spec_evict_prefix sz l : spec_evict sz l `prefix_of` l.
Proof.
  induction l as [|z l IH] using rev_ind; [done|].
  rewrite spec_evict_snoc. case_decide; [|done].
  by apply prefix_app_r.
Qed.

Lemma spec_evict_bound sz l :
  (sum_sizes sz (spec_evict sz l) ≤ MAX_CACHE_SIZE)%N.
Proof.
  induction l as [|z l IH] using rev_ind; [done|].
  rewrite spec_evict_snoc. case_decide; [done|lia].
Qed.

Lemma spec_evict_id sz l :
  (sum_sizes sz l ≤ MAX_CACHE_SIZE)%N → spec_evict sz l = l.
Proof.
  destruct l as [|z l _] using rev_ind; [done|]. intros Hs.
  rewrite spec_evict_snoc. by rewrite decide_False by lia.
Qed.

Lemma spec_evict_head sz a l :
  (sz a ≤ MAX_CACHE_SIZE)%N → ∃ l', spec_evict sz (a :: l) = a :: l'.
Proof.
  intros Ha. induction l as [|z l IH] using rev_ind.
  - exists []. apply spec_evict_id. unfold sum_sizes. simpl. lia.
  - rewrite app_comm_cons, spec_evict_snoc. case_decide; eauto.
Qed.

Lemma rep_weaken B B' l m hs :
  rep B l m hs → (total (heap m) l ≤ B')%N → rep B' l m hs.
Proof. intros [] ?. by split. Qed.

Lemma shrinks_refl h : shrinks h h.
Proof. intros b e ?. eauto. Qed.

Lemma shrinks_trans h1 h2 h3 : shrinks h1 h2 → shrinks h2 h3 → shrinks h1 h3.
Proof.
  intros H1 H2 b e3 (e2 & (e1 & ? & ?)%H1 & ?)%H2. exists e1. split; congruence.
Qed.

Lemma evict_loop_ok B fuel l m hs :
  rep B l m hs → (B < SIZE_MOD)%N → length l ≤ fuel →
  ∃ m', evict_loop fuel m = Some m' ∧
    rep MAX_CACHE_SIZE (spec_evict (esize (heap m)) l) m' hs ∧
    shrinks (heap m) (heap m').
Proof.
  revert fuel m. induction l as [|z l IH] using rev_ind; intros fuel m Hrep HB Hf.
  - pose proof Hrep as [Hr Hh Hs Hb Ho Hk Href Hhs]. simpl in *.
    exists m. rewrite spec_evict_nil. split; [|split].
    + destruct fuel; simpl; rewrite decide_False; try done;
        rewrite Hs; unfold MAX_CACHE_SIZE; lia.
    + eapply rep_weaken; [done|]. simpl. unfold MAX_CACHE_SIZE. lia.
    + apply shrinks_refl.
  - pose proof Hrep as [Hr Hh Hs Hb Ho Hk Href Hhs].
    rewrite spec_evict_snoc. change (sum_sizes (esize (heap m)) (l ++ [z]))
      with (total (heap m) (l ++ [z])).
    case_decide as Hover.
    + rewrite length_app in Hf. simpl in Hf.
      destruct fuel as [|fuel]; [lia|]. simpl.
      rewrite decide_True.
      2:{ split; [by rewrite Hs|]. rewrite Hh. by destruct l. }
      assert (∃ a0 r, l ++ [z] = a0 :: r) as (a0 & r & Hl)
        by (destruct l; simpl; eauto).
      rewrite Hh, Hl. cbn [head mbind option_bind]. rewrite Hl in Hr.
      destruct (ring_alloc _ _ a0 Hr) as [e0 He0]; [set_solver|].
      rewrite He0. cbn [mbind option_bind].
      rewrite (ring_prev _ [] a0 r e0 Hr He0), app_nil_r, <- Hl, last_snoc.
      cbn [mbind option_bind].
      destruct (evict_entry_ok B l z m hs Hrep HB)
        as (m1 & -> & Hrep1 & Hshr1 & Hes1 & _).
      cbn [mbind option_bind].
      destruct (IH fuel m1 Hrep1 HB) as (m' & -> & Hrep' & Hshr'); [lia|].
      exists m'. split; [done|]. split.
      * by rewrite <- (spec_evict_ext (esize (heap m1))).
      * by eapply shrinks_trans.
    + exists m. split; [|split].
      * destruct fuel; simpl; rewrite decide_False; try done;
          rewrite Hs; intros [??]; lia.
      * eapply rep_weaken; [done|]. lia.
      * apply shrinks_refl.
Qed.

Lemma Calloc_fresh h : h !! Calloc h = None.
Proof. apply not_elem_of_dom. unfold Calloc. apply is_fresh. Qed.

Lemma held_None hs a : (∀ v, (a, v) ∉ hs) → held hs a = 0.
Proof.
  intros Hn. unfold held. induction hs as [|[b v] hs IH]; [done|].
  rewrite filter_cons. simpl. case_decide as Hb.
  - subst. exfalso. apply (Hn v). set_solver.
  - apply IH. intros v' ?. apply (Hn v'). set_solver.
Qed.

Lemma same_data_shrinks h h' : same_data h h' → shrinks h h'.
Proof.
  intros Hd b e' (e & ? & Hp)%(same_data_lookup h h'); [|done].
  exists e. split; [done|]. unfold view. by injection Hp as -> -> -> _.
Qed.

Lemma cache_insert_new l m hs key val sz :
  rep MAX_CACHE_SIZE l m hs → (sz ≤ MAX_OBJECT_SIZE)%N →
  lookup_key (heap m) key l = None →
  let a := Calloc (heap m) in
  let h0 := <[a := Entry key (malloc_with_data val sz) sz None None 1]> (heap m) in
  ∃ m' l', cache_insert m key val sz = Some (m', Some a) ∧
    heap m !! a = None ∧
    spec_evict (esize h0) (a :: l) = a :: l' ∧
    rep MAX_CACHE_SIZE (a :: l') m' hs ∧
    shrinks h0 (heap m').
Proof.
  intros Hrep Hsz Hlk a h0.
  pose proof Hrep as [Hr Hh Hs Hb Ho Hk Href Hhs].
  destruct m as [h c]. simpl in *.
  pose proof (Calloc_fresh h) as Hfresh. fold a in Hfresh.
  set (ee := Entry key (malloc_with_data val sz) sz None None 1) in *.
  assert (a ∉ l) as Hal.
  { intros Hin. destruct (ring_alloc h l a Hr Hin) as [? ?]. congruence. }
  assert (∀ b, b ≠ a → h0 !! b = h !! b) as Hh0
    by (intros; unfold h0; by rewrite lookup_insert_ne).
  assert (h0 !! a = Some ee) as Hh0a by (unfold h0; by rewrite lookup_insert_eq).
  assert (ring h0 l) as Hr0.
  { eapply ring_frame; [done|]. intros b eb Hb' Heb.
    rewrite Hh0 by (intros ->; done). eauto. }
  unfold cache_insert. rewrite decide_False by lia.
  rewrite (find_ring h c l) by done. cbn [mbind option_bind heap cache].
  rewrite Hlk. fold a. fold ee. fold h0.
  destruct (insert_front_ring h0 c l a ee Hr0 Hh Hal Hh0a) as (h1 & -> & Hr1 & Hd1).
  cbn [mbind option_bind heap cache].
  assert (total h0 l = total h l) as Ht0.
  { apply total_ext. intros b Hb'. unfold esize.
    by rewrite Hh0 by (intros ->; done). }
  assert (esize h0 a = sz) as Hsa by (unfold esize; by rewrite Hh0a).
  assert (held hs a = 0) as Hheld.
  { apply held_None. intros v (e & ? & _)%Hhs. congruence. }
  assert (rep (MAX_CACHE_SIZE + MAX_OBJECT_SIZE) (a :: l)
            (Mem h1 (Cache (size_add (c_size c) (e_size ee)) (Some a))) hs)
    as Hrep1.
  { assert (total h1 (a :: l) = (sz + total h l)%N) as Ht1.
    { rewrite (same_data_total h0 h1) by done. simpl. by rewrite Hsa, Ht0. }
    split; cbn [heap cache].
    - done.
    - done.
    - rewrite Ht1, Hs. change (e_size ee) with sz.
      rewrite size_add_small; [simpl; lia|]. size_lia.
    - rewrite Ht1. lia.
    - intros b e' (e0 & He0 & Hp)%(same_data_lookup h0 h1); [|done].
      replace (e_size e') with (e_size e0) by (by injection Hp).
      destruct (decide (b = a)) as [->|Hne].
      + rewrite Hh0a in He0. by injection He0 as <-.
      + rewrite Hh0 in He0 by done. eauto.
    - assert (∀ b eb, b ∈ l → h1 !! b = Some eb → e_key eb ≠ key) as Hnk.
      { intros b eb Hb' (e0 & He0 & Hp)%(same_data_lookup h0 h1) Hkb; [|done].
        rewrite Hh0 in He0 by (intros ->; done).
        apply (lookup_key_None h key l b Hlk Hb'). rewrite He0. simpl.
        f_equal. injection Hp as -> _ _ _. done. }
      assert (∀ ea, h1 !! a = Some ea → e_key ea = key) as Hka.
      { intros ea (e0 & He0 & Hp)%(same_data_lookup h0 h1); [|done].
        rewrite Hh0a in He0. injection He0 as <-. by injection Hp as <- _ _ _. }
      intros b1 b2 e1 e2 [->|Hb1]%elem_of_cons [->|Hb2]%elem_of_cons H1 H2 Hkk.
      + done.
      + exfalso. apply (Hnk b2 e2 Hb2 H2). rewrite <- Hkk. eauto.
      + exfalso. apply (Hnk b1 e1 Hb1 H1). rewrite Hkk. eauto.
      + destruct (same_data_lookup h0 h1 b1 e1 Hd1 H1) as (e1' & H1' & Hp1).
        destruct (same_data_lookup h0 h1 b2 e2 Hd1 H2) as (e2' & H2' & Hp2).
        rewrite Hh0 in H1' by (intros ->; done).
        rewrite Hh0 in H2' by (intros ->; done).
        eapply (Hk b1 b2); [done..|].
        injection Hp1 as -> _ _ _. injection Hp2 as -> _ _ _. done.
    - intros b e' (e0 & He0 & Hp)%(same_data_lookup h0 h1); [|done].
      replace (e_ref e') with (e_ref e0) by (by injection Hp).
      destruct (decide (b = a)) as [->|Hne].
      + rewrite Hh0a in He0. injection He0 as <-. rewrite Hheld.
        unfold in_list. rewrite decide_True by set_solver. simpl. lia.
      + rewrite Hh0 in He0 by done.
        replace (in_list (a :: l) b) with (in_list l b); [eauto|].
        unfold in_list. repeat case_decide; set_solver.
    - intros b v Hin. destruct (Hhs _ _ Hin) as (e0 & He0 & <-).
      assert (b ≠ a) as Hne by (intros ->; congruence).
      rewrite <- Hh0 in He0 by done.
      destruct (same_data_lookup_r h0 h1 b e0 Hd1 He0) as (e' & ? & Hp).
      exists e'. split; [done|]. unfold view. by injection Hp as -> -> -> _. }
  destruct (evict_loop_ok _ (size h1) _ _ _ Hrep1) as (m' & -> & Hrep' & Hshr').
  { size_lia. }
  { by apply ring_length in Hr1. }
  cbn [mbind option_bind heap] in *.
  rewrite (spec_evict_ext _ (esize h0)) in Hrep'
    by (intros; by apply same_data_esize).
  destruct (spec_evict_head (esize h0) a l) as [l' Hl'].
  { rewrite Hsa. size_lia. }
  rewrite Hl' in Hrep'. exists m', l'. split; [done|]. split; [done|].
  split; [done|]. split; [done|].
  eapply shrinks_trans; [|done]. by apply same_data_shrinks.
Qed.
End invariant.

Section system.
Implicit Types (s : sys) (c : call) (l : list addr).

Lemma rep_init : rep MAX_CACHE_SIZE [] cache_create [].
Proof.
  split; simpl; [apply ring_nil|done|done|size_lia|..];
    intros; simplify_map_eq; set_solver.
Qed.

(** Every allowed call runs to completion and keeps the invariant; an
    entry that is allocated before and after the call keeps its key, bytes
    and size. *)
Lemma do_call_rep s c l :
  rep MAX_CACHE_SIZE l (s_mem s) (s_handles s) → allowed s c →
  ∃ s' l', do_call s c = Some s' ∧
    rep MAX_CACHE_SIZE l' (s_mem s') (s_handles s') ∧
    (∀ a e e', heap (s_mem s) !! a = Some e →
       heap (s_mem s') !! a = Some e' → view e' = view e) ∧
    match c with
    | Insert _ _ _ => s_handles s' = s_handles s
    | Get _ => l' ≡ₚ l ∧ s_handles s ⊆ s_handles s'
    | Release a => l' = l ∧ s_handles s' = drop_handle a (s_handles s)
    end.
Proof.
  intros Hrep Hal. destruct s as [m hs], c as [key val sz|key|a]; simpl in *.
  - destruct (decide (MAX_OBJECT_SIZE < sz)%N) as [Hbig|Hok].
    { unfold cache_insert. rewrite decide_True by done. simpl.
      eexists _, _. split; [done|]. split; [done|]. simpl.
      split; [congruence|done]. }
    destruct (lookup_key (heap m) key l) as [a|] eqn:Hlk.
    + destruct (cache_insert_present _ l m hs key val sz a Hrep)
        as (m' & -> & Hrep' & _ & Hd); [size_lia|lia|done|]. simpl.
      eexists _, _. split; [done|]. split; [done|]. simpl. split; [|done].
      intros b e e' He (e0 & He0 & Hp)%(same_data_lookup _ _ _ _ Hd).
      rewrite He in He0. injection He0 as <-.
      unfold view. by injection Hp as -> -> -> _.
    + destruct (cache_insert_new l m hs key val sz Hrep)
        as (m' & l' & -> & Hfresh & _ & Hrep' & Hshr); [lia|done|]. simpl.
      eexists _, _. split; [done|]. split; [done|]. simpl. split; [|done].
      intros b e e' He (e0 & He0 & Hv)%Hshr.
      rewrite lookup_insert_ne in He0 by (intros <-; congruence). congruence.
  - destruct (lookup_key (heap m) key l) as [a|] eqn:Hlk.
    + destruct (cache_get_hit _ l m hs key a Hrep)
        as (m' & e & He & _ & -> & Hrep' & _ & F); [size_lia|done..|].
      simpl. pose proof (F a) as Fa. rewrite He in Fa. simpl in Fa.
      rewrite decide_True in Fa by done.
      destruct (heap m' !! a) as [e'|] eqn:He'; simplify_eq /=.
      eexists _, _. split; [done|]. simpl.
      replace (view e') with (view e) by (unfold view; congruence).
      split; [done|]. split; [|split; [|set_solver]].
      * intros b eb eb' Hb Hb'. specialize (F b). rewrite Hb, Hb' in F.
        apply (inj Some) in F. unfold view.
        case_decide; unfold payload in F; simpl in F; congruence.
      * apply promote_Permutation; [|by eapply lookup_key_Some].
        destruct Hrep. by eapply ring_NoDup.
    + rewrite (cache_get_miss _ l m hs key Hrep Hlk). simpl.
      eexists _, _. split; [done|]. split; [done|]. simpl.
      split; [congruence|done].
  - destruct (cache_entry_release_ok _ l m hs a Hrep Hal)
      as (m' & e & He & -> & Hrep' & _ & Hh' & _). simpl.
    eexists _, _. split; [done|]. split; [done|]. simpl. split; [|done].
    intros b eb eb' Hb. rewrite Hh', unref_lookup.
    destruct (decide (b = a)) as [->|]; [|congruence].
    case_decide; [done|]. intros [= <-]. rewrite He in Hb. by injection Hb as ->.
Qed.

Lemma reachable_rep s :
  reachable s → ∃ l, rep MAX_CACHE_SIZE l (s_mem s) (s_handles s).
Proof.
  induction 1 as [|s c s' _ [l IH] Hal Hdo].
  - exists []. apply rep_init.
  - destruct (do_call_rep s c l IH Hal) as (s'' & l' & Hdo' & Hrep' & _).
    exists l'. rewrite Hdo in Hdo'. by injection Hdo' as <-.
Qed.

Lemma rep_entries B l m hs : rep B l m hs → entries m = l.
Proof. intros []. destruct m. by apply entries_ring. Qed.

Lemma reachable_inv s :
  reachable s →
  rep MAX_CACHE_SIZE (entries (s_mem s)) (s_mem s) (s_handles s).
Proof.
  intros [l Hrep]%reachable_rep. by rewrite (rep_entries _ _ _ _ Hrep).
Qed.

Lemma run_reachable s cs s' : reachable s → run s cs = Some s' → reachable s'.
Proof.
  revert s. induction cs as [|c cs IH]; intros s Hs; simpl.
  - by intros [= <-].
  - case_decide; [|done]. destruct (do_call s c) as [s1|] eqn:Hc; [|done].
    simpl. apply IH. by eapply reach_call.
Qed.

Lemma find_lookup_key B l m hs key :
  rep B l m hs → find m key = Some (lookup_key (heap m) key l).
Proof. intros []. destruct m. by apply find_ring. Qed.

Lemma held_pos_elem hs a : 0 < held hs a → ∃ v, (a, v) ∈ hs.
Proof.
  induction hs as [|[b v] hs IH]; [unfold held; simpl; lia|].
  rewrite held_cons. case_decide as Hb.
  - subst. intros _. exists v. set_solver.
  - intros [v' ?]%IH. exists v'. set_solver.
Qed.

(** What [cache_get] does in a reachable state. *)
Lemma cache_get_spec s key :
  reachable s → allowed s (Get key) →
  match lookup_key (heap (s_mem s)) key (entries (s_mem s)) with
  | None => cache_get (s_mem s) key = Some (s_mem s, None)
  | Some a =>
      ∃ m' e, heap (s_mem s) !! a = Some e ∧ e_key e = key ∧
        a ∈ entries (s_mem s) ∧
        cache_get (s_mem s) key = Some (m', Some a) ∧
        entries m' = promote a (entries (s_mem s)) ∧
        c_head (cache m') = Some a ∧
        c_size (cache m') = c_size (cache (s_mem s)) ∧
        held_total m' = held_total (s_mem s) ∧
        present_keys m' ≡ₚ present_keys (s_mem s) ∧
        ∀ b, payload <$> heap m' !! b
             = payload ∘ got a b <$> heap (s_mem s) !! b
  end.
Proof.
  intros Hrep%reachable_inv Hal. destruct s as [m hs]. simpl in *.
  destruct (lookup_key (heap m) key (entries m)) as [a|] eqn:Hlk.
  - destruct (cache_get_hit _ _ m hs key a Hrep)
      as (m' & e & He & Hk & Hget & Hrep' & Hsz & F); [size_lia|done..|].
    pose proof (rep_entries _ _ _ _ Hrep') as Hent.
    pose proof (lookup_key_Some _ _ _ _ Hlk) as [Hin _].
    assert (promote a (entries m) ≡ₚ entries m) as Hperm.
    { apply promote_Permutation; [|done]. destruct Hrep. by eapply ring_NoDup. }
    exists m', e. split_and!; try done.
    + destruct Hrep' as [_ Hh' _ _ _ _ _ _]. by rewrite Hh'.
    + unfold held_total. rewrite Hent.
      destruct Hrep as [_ _ <- _ _ _ _ _], Hrep' as [_ _ <- _ _ _ _ _]. done.
    + unfold present_keys. rewrite Hent.
      trans (omap (λ b, e_key <$> heap m' !! b) (entries m));
        [by apply omap_Permutation|].
      erewrite list_omap_ext; [done|].
      apply Forall2_same_length_lookup_2; [done|]. intros i x y Hx Hy.
      rewrite Hx in Hy. injection Hy as <-.
      specialize (F x). unfold payload, got in F.
      destruct (heap m' !! x), (heap m !! x); simplify_eq /=; try done.
      f_equal. by case_decide.
  - by eapply cache_get_miss.
Qed.
End system.

(** * The claims about the cache *)

Lemma run_init_reachable cs s : run init cs = Some s → reachable s.
Proof. apply run_reachable, reach_init. Qed.

(** C1: for every sequence of cache operations starting from [cache_create],
    after each operation the sum of the sizes of the entries held by the list
    of the cache is at most [MAX_CACHE_SIZE] (and equals the [size] field of
    the cache); no allowed operation faults; and [cache_insert] of a key that
    is not present, with a size of at most [MAX_OBJECT_SIZE], puts the new
    entry at the most-recently-used end and then evicts from the
    least-recently-used end while the total exceeds the bound. *)
Theorem cache_total_size_bounded (cs : list call) (s : sys) :
  run init cs = Some s →
  (held_total (s_mem s) ≤ MAX_CACHE_SIZE)%N ∧
  c_size (cache (s_mem s)) = held_total (s_mem s) ∧
  (∀ c, allowed s c → is_Some (do_call s c)) ∧
  (∀ key val sz,
     (sz ≤ MAX_OBJECT_SIZE)%N → find (s_mem s) key = Some None →
     let a := Calloc (heap (s_mem s)) in
     let h0 := <[a := Entry key (malloc_with_data val sz) sz None None 1]>
                 (heap (s_mem s)) in
     ∃ m', cache_insert (s_mem s) key val sz = Some (m', Some a) ∧
       entries m' = spec_evict (esize h0) (a :: entries (s_mem s)) ∧
       (held_total m' ≤ MAX_CACHE_SIZE)%N).
Proof.
  intros Hrep%run_init_reachable%reachable_inv.
  pose proof Hrep as [Hr Hh Hs Hb Ho Hk Href Hhs].
  split; [done|]. split; [done|]. split.
  - intros c Hal. destruct (do_call_rep s c _ Hrep Hal) as (s' & _ & -> & _). eauto.
  - intros key val sz Hsz Hfind a h0.
    rewrite (find_lookup_key _ _ _ _ _ Hrep) in Hfind. injection Hfind as Hlk.
    destruct (cache_insert_new _ _ _ key val sz Hrep Hsz Hlk)
      as (m' & l' & Hins & _ & Hev & Hrep' & _).
    exists m'. split; [done|].
    unfold held_total. rewrite (rep_entries _ _ _ _ Hrep'). split.
    + by rewrite <- Hev.
    + by destruct Hrep'.
Qed.

(** C2: in every interleaving of insert, get and release in which workers
    release only handles that they hold, each once, every allocated entry
    has a positive reference count, one for its membership in the list plus
    one per handle; every handle that is not released yet points to an
    allocated entry that still has the key, bytes and size that [cache_get]
    returned, also when the entry was evicted in between; and an operation
    frees an entry only by the decrement that takes its count from one to
    zero, in [cache_entry_release] or in an eviction by [cache_insert]. *)
Theorem no_entry_freed_while_referenced (cs : list call) (s : sys) :
  run init cs = Some s →
  (∀ a e, heap (s_mem s) !! a = Some e →
     (0 < e_ref e)%Z ∧
     e_ref e = (in_list (entries (s_mem s)) a
                + Z.of_nat (held (s_handles s) a))%Z) ∧
  (∀ a v, (a, v) ∈ s_handles s →
     ∃ e, heap (s_mem s) !! a = Some e ∧ view e = v) ∧
  (∀ c, allowed s c →
     ∃ s', do_call s c = Some s' ∧
       ∀ a e, heap (s_mem s) !! a = Some e →
         match heap (s_mem s') !! a with
         | Some e' => view e' = view e
         | None =>
             e_ref e = 1%Z ∧
             (c = Release a ∨
              ∃ key val sz, c = Insert key val sz ∧
                a ∈ entries (s_mem s) ∧ a ∉ entries (s_mem s'))
         end).
Proof.
  intros Hrep%run_init_reachable%reachable_inv.
  pose proof Hrep as [Hr Hh Hs Hb Ho Hk Href Hhs].
  split; [|split; [done|]].
  { intros a e He. destruct (Href a e He). done. }
  intros c Hal.
  destruct (do_call_rep s c _ Hrep Hal) as (s' & l' & Hdo & Hrep' & Hst & Hc).
  exists s'. split; [done|]. intros a e He.
  destruct (heap (s_mem s') !! a) as [e'|] eqn:He'; [by eapply Hst|].
  destruct (Href a e He) as [Hra Hpos].
  pose proof (rep_entries _ _ _ _ Hrep') as Hent'.
  assert (a ∉ l') as Hnl'.
  { intros Hin. destruct Hrep' as [Hr' _ _ _ _ _ _ _].
    destruct (ring_alloc _ _ _ Hr' Hin). congruence. }
  assert (held (s_handles s') a = 0) as Hh0.
  { apply held_None. intros v Hv. destruct Hrep' as [_ _ _ _ _ _ _ Hhs'].
    destruct (Hhs' _ _ Hv) as (? & ? & _). congruence. }
  destruct c as [key val sz|key|a0].
  - rewrite Hc in Hh0. rewrite Hh0 in Hra. unfold in_list in Hra.
    case_decide; [|lia]. split; [lia|]. right. exists key, val, sz.
    by rewrite Hent'.
  - destruct Hc as [Hperm Hsub]. exfalso.
    assert (held (s_handles s) a = 0) as Hh1.
    { apply held_None. intros v Hv%Hsub. by apply held_elem_of in Hv; lia. }
    assert (a ∉ entries (s_mem s)) as Hnl by (by rewrite <- Hperm).
    rewrite Hh1 in Hra. unfold in_list in Hra.
    rewrite decide_False in Hra by done. lia.
  - destruct Hc as [-> Hdrop]. rewrite Hdrop, held_drop_handle in Hh0.
    unfold in_list in Hra. rewrite decide_False in Hra by done.
    case_decide; [subst; split; [lia|by left]|lia].
Qed.

Lemma demo_run : run init demo_calls = Some demo.
Proof. vm_compute. reflexivity. Qed.

Lemma cache_total_size_bounded_witness :
  run init demo_calls = Some demo ∧
  (held_total (s_mem demo) ≤ MAX_CACHE_SIZE)%N.
Proof.
  split; [vm_compute; reflexivity|].
  apply (cache_total_size_bounded demo_calls demo). vm_compute. reflexivity.
Defined.

Lemma no_entry_freed_while_referenced_witness :
  run init demo_calls = Some demo ∧
  ∀ a v, (a, v) ∈ s_handles demo →
    ∃ e, heap (s_mem demo) !! a = Some e ∧ view e = v.
Proof.
  split; [vm_compute; reflexivity|].
  apply (no_entry_freed_while_referenced demo_calls demo). vm_compute. reflexivity.
Defined.

Lemma elem_of_present_keys m key :
  key ∈ present_keys m ↔
  ∃ a, a ∈ entries m ∧ e_key <$> heap m !! a = Some key.
Proof. unfold present_keys. apply list_elem_of_omap. Qed.

(** C4: [cache_insert] with a size above [MAX_OBJECT_SIZE] returns [NULL] and
    leaves every cache state as it is; [cache_get] in a reachable state
    always returns, either a pointer to an entry of the list whose key is the
    one asked for, or [NULL] when no entry has it and then with the state
    unchanged; in both cases every entry keeps its key, bytes and size. *)
Theorem insert_rejects_oversized_get_never_fails
    (m : mem) (key : string) (val : list byte) (sz : N)
    (cs : list call) (s : sys) (key' : string) :
  (MAX_OBJECT_SIZE < sz)%N →
  run init cs = Some s → allowed s (Get key') →
  cache_insert m key val sz = Some (m, None) ∧
  ∃ m' r, cache_get (s_mem s) key' = Some (m', r) ∧
    match r with
    | Some a =>
        a ∈ entries (s_mem s) ∧ e_key <$> heap (s_mem s) !! a = Some key'
    | None => key' ∉ present_keys (s_mem s) ∧ m' = s_mem s
    end ∧
    ∀ b e, heap (s_mem s) !! b = Some e →
      ∃ e', heap m' !! b = Some e' ∧ view e' = view e.
Proof.
  intros Hbig Hs%run_init_reachable Hal. split.
  { unfold cache_insert. by rewrite decide_True. }
  pose proof (cache_get_spec s key' Hs Hal) as Hget.
  destruct (lookup_key _ _ _) as [a|] eqn:Hlk.
  - destruct Hget as (m' & e & He & Hk & Hin & -> & _ & _ & _ & _ & _ & F).
    exists m', (Some a). split; [done|]. split.
    + split; [done|]. by rewrite He, <- Hk.
    + intros b eb Hb. specialize (F b). rewrite Hb in F. simpl in F.
      destruct (heap m' !! b) as [e'|]; [|done]. exists e'. split; [done|].
      apply (inj Some) in F. unfold got, payload, view in *.
      case_decide; simpl in F; congruence.
  - rewrite Hget. exists (s_mem s), None. split; [done|]. split; [|eauto].
    split; [|done]. intros (a & Hin & Hk)%elem_of_present_keys.
    by eapply lookup_key_None.
Qed.

Lemma insert_rejects_oversized_get_never_fails_witness :
  cache_insert (s_mem demo) "http://h/c" (replicate (N.to_nat 102401) x00) 102401
  = Some (s_mem demo, None) ∧
  ∃ m' r, cache_get (s_mem demo) "http://h/a" = Some (m', r).
Proof.
  destruct (insert_rejects_oversized_get_never_fails (s_mem demo) "http://h/c"
              (replicate (N.to_nat 102401) x00) 102401 demo_calls demo
              "http://h/a") as (H1 & m' & r & H2 & _).
  - reflexivity.
  - vm_compute. reflexivity.
  - vm_compute. reflexivity.
  - split; [exact H1|]. exists m', r. exact H2.
Defined.



Lemma lookup_key_unique B l m hs key a e :
  rep B l m hs → a ∈ l → heap m !! a = Some e → e_key e = key →
  lookup_key (heap m) key l = Some a.
Proof.
  intros Hrep Hin He Hk.
  destruct (lookup_key (heap m) key l) as [a'|] eqn:Hlk.
  - apply lookup_key_Some in Hlk as [Hin' Hk'].
    destruct (heap m !! a') as [e'|] eqn:He'; [|done]. injection Hk' as Hk'.
    f_equal. destruct Hrep as [_ _ _ _ _ Hkeys _ _].
    eapply Hkeys; [done..|]. congruence.
  - exfalso. eapply lookup_key_None; [done..|]. rewrite He. simpl. by rewrite Hk.
Qed.






Lemma run_insert_oversized s key val sz cs :
  (MAX_OBJECT_SIZE < sz)%N → run s (Insert key val sz :: cs) = run s cs.
Proof.
  intros Hbig. simpl. unfold cache_insert.
  rewrite decide_True by done. simpl. by destruct s.
Qed.

(** C9 as stated fails: a 200-KiB object is larger than [MAX_OBJECT_SIZE],
    so none of [k0] .. [k6] is inserted: the total after [k5] is 0, not
    1 MiB, and [cache_get] of [k6] returns [NULL]. *)
Lemma scenario_200KiB_nothing_cached :
  run init (scenario_inserts (200 * KiB) 6) = Some init ∧
  held_total (s_mem init) = 0%N ∧
  run init (scenario_inserts (200 * KiB) 7) = Some init ∧
  cache_get (s_mem init) (scenario_key 6) = Some (s_mem init, None).
Proof.
  unfold scenario_inserts. cbn [seq fmap list_fmap].
  rewrite !run_insert_oversized by reflexivity. done.
Qed.

(** C9, amended: the ten 200-KiB objects are all rejected, being larger than
    [MAX_OBJECT_SIZE], so the cache stays empty and [cache_get] returns
    [NULL] for every key.  With objects of 100 KiB, [k0] .. [k9] are all held
    (1000 KiB in total, nothing evicted); the insert of an eleventh object
    [k10] evicts [k0]: [cache_get] of [k0] returns [NULL] and [cache_get] of
    [k10] returns the bytes inserted for [k10]. *)
Theorem scenario_lru_eviction :
  run init (scenario_inserts (200 * KiB) 10) = Some init ∧
  (∀ key, cache_get (s_mem init) key = Some (s_mem init, None)) ∧
  held_total ∘ s_mem <$> run init (scenario_inserts (100 * KiB) 10)
    = Some (1000 * KiB)%N ∧
  present_keys ∘ s_mem <$> run init (scenario_inserts (100 * KiB) 10)
    = Some (scenario_key <$> [9; 8; 7; 6; 5; 4; 3; 2; 1; 0]) ∧
  held_total ∘ s_mem <$> run init (scenario_inserts (100 * KiB) 11)
    = Some (1000 * KiB)%N ∧
  present_keys ∘ s_mem <$> run init (scenario_inserts (100 * KiB) 11)
    = Some (scenario_key <$> [10; 9; 8; 7; 6; 5; 4; 3; 2; 1]) ∧
  run init (scenario_inserts (100 * KiB) 11)
    ≫= (λ s, get_bytes (s_mem s) (scenario_key 0)) = Some None ∧
  run init (scenario_inserts (100 * KiB) 11)
    ≫= (λ s, get_bytes (s_mem s) (scenario_key 10))
    = Some (Some (scenario_object (100 * KiB) 10, 100 * KiB)%N).
Proof.
  split.
  { unfold scenario_inserts. cbn [seq fmap list_fmap].
    rewrite !run_insert_oversized by reflexivity. done. }
  split; [done|].
  repeat split; vm_compute; reflexivity.
Qed.

(** * The request rewriter *)

Section strings.
Implicit Types (s t u : string).

Lemma str_app_nil_l s : EmptyString +:+ s = s.
Proof. done. Qed.

Lemma str_app_cons c s t : String c s +:+ t = String c (s +:+ t).
Proof. done. Qed.

Lemma str_app_nil_r s : s +:+ EmptyString = s.
Proof. induction s as [|c s IH]; [done|]. by rewrite str_app_cons, IH. Qed.

Lemma str_app_assoc s t u : (s +:+ t) +:+ u = s +:+ (t +:+ u).
Proof. induction s as [|c s IH]; [done|]. by rewrite !str_app_cons, IH. Qed.

Lemma str_length_app s t :
  String.length (s +:+ t) = String.length s + String.length t.
Proof.
  induction s as [|c s IH]; [done|]. rewrite str_app_cons. simpl. by rewrite IH.
Qed.

Lemma substring_all s : substring 0 (String.length s) s = s.
Proof. induction s as [|c s IH]; [done|]. simpl. by rewrite IH. Qed.
End strings.

Section rewriter.
Implicit Types (p : parser_t) (hs : list header_t) (b : reqbuf).

(** A text that fits is stored whole. *)
Lemma snprintf_fits b s :
  off b + String.length s + 1 ≤ MAXLINE →
  snprintf b s = Some (Reqbuf (off b + String.length s) (text b +:+ s)).
Proof.
  intros Hfit. unfold snprintf.
  rewrite Nat.min_l by lia. rewrite decide_True by lia.
  by rewrite substring_all.
Qed.

Lemma lines_cons h hs : lines (h :: hs) = header_line h +:+ lines hs.
Proof. done. Qed.

Lemma has_host_cons h hs :
  has_host (h :: hs) = streq (h_name h) "Host" || has_host hs.
Proof.
  unfold has_host, streq.
  destruct (bool_decide (h_name h = "Host")) eqn:Hh; simpl.
  - apply bool_decide_eq_true_2, Exists_cons. left.
    by apply bool_decide_eq_true_1 in Hh.
  - apply bool_decide_eq_false_1 in Hh. apply bool_decide_ext.
    rewrite Exists_cons. naive_solver.
Qed.

Lemma overridden_not_host name : overridden name = true → streq name "Host" = false.
Proof.
  unfold overridden, streq. intros Hov. apply bool_decide_eq_false_2.
  intros ->. vm_compute in Hov. done.
Qed.

Lemma copy_headers_fits fuel p host_found t :
  length (drop (p_cursor p) (p_headers p)) < fuel →
  String.length (t +:+ lines (passed_through (drop (p_cursor p) (p_headers p)))) + 1
    ≤ MAXLINE →
  ∃ p', copy_headers fuel p host_found (Reqbuf (String.length t) t)
        = Some (p', host_found || has_host (drop (p_cursor p) (p_headers p)),
                Reqbuf (String.length (t +:+ lines (passed_through (drop (p_cursor p) (p_headers p)))))
                       (t +:+ lines (passed_through (drop (p_cursor p) (p_headers p))))).
Proof.
  revert p host_found t. induction fuel as [|fuel IH]; intros p hf t Hfuel Hfit;
    [lia|].
  simpl. unfold parser_retrieve_next_header.
  destruct (p_headers p !! p_cursor p) as [h|] eqn:Hh.
  - rewrite (drop_S _ _ _ Hh) in Hfuel, Hfit |- *.
    set (p' := Parser (p_values p) (p_headers p) (S (p_cursor p))).
    change (drop (S (p_cursor p)) (p_headers p))
      with (drop (p_cursor p') (p_headers p')) in *.
    unfold passed_through in *. rewrite filter_cons in Hfit |- *.
    rewrite has_host_cons.
    destruct (overridden (h_name h)) eqn:Hov.
    + rewrite decide_False in Hfit |- * by done.
      destruct (IH p' hf t) as (p'' & ->); [simpl in *; lia|done|].
      exists p''. by rewrite (overridden_not_host _ Hov).
    + rewrite decide_True in Hfit |- * by done.
      rewrite lines_cons in Hfit |- *.
      change (h_name h +:+ ": " +:+ h_value h +:+ CRLF) with (header_line h).
      rewrite <- (str_app_assoc t) in Hfit |- *.
      rewrite snprintf_fits.
      2:{ simpl. rewrite !str_length_app in Hfit. lia. }
      cbn [mbind option_bind off text]. rewrite <- str_length_app.
      destruct (IH p' (if streq (h_name h) "Host" then true else hf)
                  (t +:+ header_line h)) as (p'' & ->);
        [simpl in *; lia|done|].
      exists p''. do 2 f_equal.
      destruct (streq (h_name h) "Host"), hf; done.
  - exists p. rewrite (drop_ge (p_headers p)) by (by apply lookup_ge_None).
    simpl. by rewrite orb_false_r, str_app_nil_r.
Qed.

Lemma lines_app hs1 hs2 : lines (hs1 ++ hs2) = lines hs1 +:+ lines hs2.
Proof.
  induction hs1 as [|h hs1 IH]; [done|].
  change ((h :: hs1) ++ hs2) with (h :: (hs1 ++ hs2)).
  by rewrite !lines_cons, IH, str_app_assoc.
Qed.

Lemma override_headers_lines :
  lines [ Header "Connection" "close"; Header "Proxy-Connection" "close";
          Header "User-Agent" header_user_agent ] +:+ CRLF
  = override_headers.
Proof. reflexivity. Qed.

Lemma passed_through_no_override name hs :
  overridden name = true →
  filter (λ h, h_name h = name) (passed_through hs) = [].
Proof.
  intros Hov. unfold passed_through. induction hs as [|h hs IH]; [done|].
  rewrite filter_cons. case_decide as Hh; [|done].
  rewrite filter_cons_False; [done|]. intros Hn. congruence.
Qed.

Lemma synthesized_host_no_override name info hs :
  overridden name = true →
  filter (λ h, h_name h = name) (synthesized_host info hs) = [].
Proof.
  intros Hov. unfold synthesized_host. destruct (has_host hs); [done|].
  rewrite filter_cons_False; [done|]. simpl. intros <-. vm_compute in Hov. done.
Qed.

Lemma construct_new_request_fits p info :
  let hs := drop (p_cursor p) (p_headers p) in
  String.length (request_message (i_uri info) (rewritten_headers info hs))
    < MAXLINE →
  ∃ p', construct_new_request p info
        = Some (true, request_message (i_uri info) (rewritten_headers info hs), p').
Proof.
  intros hs Hfit. unfold request_message, rewritten_headers in *.
  rewrite !lines_app in Hfit |- *.
  set (reqline := "GET " +:+ i_uri info +:+ " HTTP/1.0" +:+ CRLF).
  assert ("GET " +:+ i_uri info +:+ " HTTP/1.0" +:+ CRLF +:+
            (lines (passed_through hs) +:+ lines (synthesized_host info hs) +:+
             lines [Header "Connection" "close"; Header "Proxy-Connection" "close";
                    Header "User-Agent" header_user_agent]) +:+ CRLF
          = ((reqline +:+ lines (passed_through hs))
             +:+ lines (synthesized_host info hs)) +:+ override_headers) as Heq.
  { rewrite <- override_headers_lines. unfold reqline.
    by rewrite !str_app_assoc. }
  rewrite Heq in Hfit |- *. clear Heq.
  rewrite !str_length_app in Hfit.
  unfold construct_new_request. fold reqline.
  rewrite (snprintf_fits (Reqbuf 0 EmptyString) reqline) by (cbn [off]; lia).
  cbn [mbind option_bind off text]. rewrite str_app_nil_l.
  change (0 + String.length reqline) with (String.length reqline).
  destruct (copy_headers_fits (S (length (p_headers p))) p false reqline)
    as (p' & ->).
  { rewrite length_drop. lia. }
  { fold hs. rewrite str_length_app. lia. }
  fold hs. cbn [mbind option_bind orb].
  exists p'. unfold synthesized_host in *. destruct (has_host hs).
  - change (String.length (lines [])) with 0 in Hfit.
    cbn [mbind option_bind]. rewrite snprintf_fits.
    2:{ cbn [off]. rewrite str_length_app. lia. }
    cbn [mbind option_bind off text]. by rewrite str_app_nil_r.
  - set (hostline := "Host: " +:+ i_host info +:+ ":" +:+ i_port info +:+ CRLF).
    assert (lines [Header "Host" (i_host info +:+ ":" +:+ i_port info)]
            = hostline) as Hhl.
    { unfold lines, header_line, hostline. simpl.
      by rewrite !str_app_assoc, str_app_nil_r. }
    rewrite Hhl in Hfit |- *.
    rewrite snprintf_fits.
    2:{ cbn [off]. rewrite str_length_app. lia. }
    cbn [mbind option_bind off text]. rewrite snprintf_fits.
    2:{ cbn [off]. rewrite !str_length_app. lia. }
    done.
Qed.
End rewriter.

(** C8: when the rewritten request fits the request buffer,
    [construct_new_request] returns [true] and leaves in the buffer the
    request line [GET <uri> HTTP/1.0] followed by the client's headers
    without every [Connection], [Proxy-Connection] and [User-Agent] (names
    compared as [strcmp] does), a [Host] header made from host and port
    exactly when the client sent none, and the three overrides; each of the
    three names occurs exactly once, with the fixed value, however many of
    them the client sent. *)
Theorem rewriter_emits_each_override_once (p : parser_t) (info : http_info) :
  let hs := drop (p_cursor p) (p_headers p) in
  let emitted := rewritten_headers info hs in
  String.length (request_message (i_uri info) emitted) < MAXLINE →
  (∃ p', construct_new_request p info
         = Some (true, request_message (i_uri info) emitted, p')) ∧
  filter (λ h, h_name h = "Connection") emitted
    = [Header "Connection" "close"] ∧
  filter (λ h, h_name h = "Proxy-Connection") emitted
    = [Header "Proxy-Connection" "close"] ∧
  filter (λ h, h_name h = "User-Agent") emitted
    = [Header "User-Agent" header_user_agent] ∧
  (∃ rest, request_message (i_uri info) emitted
           = "GET " +:+ i_uri info +:+ " HTTP/1.0" +:+ CRLF +:+ rest) ∧
  emitted = passed_through hs ++ synthesized_host info hs ++
            [ Header "Connection" "close"; Header "Proxy-Connection" "close";
              Header "User-Agent" header_user_agent ] ∧
  (synthesized_host info hs
   = [Header "Host" (i_host info +:+ ":" +:+ i_port info)]
   ↔ ∀ h, h ∈ hs → h_name h ≠ "Host") ∧
  (synthesized_host info hs = [] ↔ ∃ h, h ∈ hs ∧ h_name h = "Host").
Proof.
  intros hs emitted Hfit. split; [by apply construct_new_request_fits|].
  assert (∀ name, overridden name = true →
    filter (λ h, h_name h = name) emitted
    = filter (λ h, h_name h = name)
        [ Header "Connection" "close"; Header "Proxy-Connection" "close";
          Header "User-Agent" header_user_agent ]) as Hcount.
  { intros name Hov. unfold emitted, rewritten_headers.
    by rewrite !filter_app, passed_through_no_override,
      synthesized_host_no_override. }
  split; [by rewrite Hcount|]. split; [by rewrite Hcount|].
  split; [by rewrite Hcount|]. split; [by eexists|]. split; [done|].
  unfold synthesized_host, has_host. case_bool_decide as Hex.
  - apply Exists_exists in Hex as (h & Hin & Hn). split; split.
    + done.
    + intros Hno. by destruct (Hno h).
    + eauto.
    + done.
  - split; split.
    + intros _ h Hin Hn. apply Hex, Exists_exists. eauto.
    + done.
    + done.
    + intros (h & Hin & Hn). destruct Hex. apply Exists_exists. eauto.
Qed.

Lemma rewriter_emits_each_override_once_witness :
  ∃ p', construct_new_request demo_parser demo_info
        = Some (true,
                request_message "http://h/a"
                  [ Header "Accept" "*/*"; Header "connection" "x";
                    Header "Host" "h:80"; Header "Connection" "close";
                    Header "Proxy-Connection" "close";
                    Header "User-Agent" header_user_agent ],
                p').
Proof.
  destruct (rewriter_emits_each_override_once demo_parser demo_info) as [H _].
  - apply Nat.ltb_lt. vm_compute. reflexivity.
  - exact H.
Defined.

(** * The response forwarder *)

Section forwarder.
Implicit Types (w : world) (bs buf : list byte).

Lemma concat_blocks fuel n bs :
  0 < n → length bs ≤ fuel → mjoin (blocks fuel n bs) = bs.
Proof.
  intros Hn. revert bs. induction fuel as [|fuel IH]; intros bs Hf.
  - destruct bs; [done|simpl in Hf; lia].
  - simpl. case_decide as Hl; [by destruct bs|].
    simpl. rewrite IH, take_drop; [done|]. rewrite length_drop. lia.
Qed.

Lemma forward_loop_ok fuel buf cs w :
  origin_end w = AtEOF → room w ClientFd = None →
  length (origin_bytes w) < fuel →
  (cs + N.of_nat (length (origin_bytes w)) < SIZE_MOD)%N →
  ∃ buf', forward_loop fuel buf cs w
          = Some (Some (buf', (cs + N.of_nat (length (origin_bytes w)))%N),
                  forwarded fuel w) ∧
    (length (origin_bytes w) ≤ N.to_nat MAX_OBJECT_SIZE →
     buf' = origin_bytes w ++ drop (length (origin_bytes w)) buf).
Proof.
  revert buf cs w. induction fuel as [|fuel IH]; intros buf cs w He Hr Hf Hs;
    [lia|].
  destruct w as [cl ce ob oe rm co gc lg]. cbn [origin_bytes origin_end room] in *.
  subst oe. cbn [forward_loop].
  assert (0 < N.to_nat MAX_OBJECT_SIZE) as Hpos
    by (rewrite MAX_OBJECT_SIZE_eq; lia).
  unfold bind at 1. unfold rio_readnb. cbn [origin_bytes origin_end].
  unfold forwarded. remember (N.to_nat MAX_OBJECT_SIZE) as n eqn:Hn.
  destruct (decide (length ob = 0)) as [Hz|Hnz].
  { destruct ob; [|done]. rewrite decide_False by (simpl; lia).
    cbn [set_origin_bytes client_lines client_end origin_bytes origin_end room
         connect_ok g_cache log].
    rewrite decide_True by done. exists buf. unfold ret.
    cbn [client_lines client_end origin_bytes origin_end room connect_ok
         g_cache log length blocks fmap list_fmap].
    rewrite decide_True by done. cbn [fmap list_fmap].
    rewrite app_nil_r, N.add_0_r. done. }
  assert (∀ chunk rest,
    chunk ≠ [] → length rest < fuel → length ob = length chunk + length rest →
    (length ob ≤ n → chunk = ob) →
    Wrote ClientFd chunk :: (Wrote ClientFd <$> blocks fuel n rest)
      = (Wrote ClientFd <$> blocks (S fuel) n ob) →
    ∃ buf',
      (if decide (length chunk = 0) then ret (Some (buf, cs))
       else bind (rio_writen ClientFd
                    (take (length chunk) (chunk ++ drop (length chunk) buf)))
              (λ ok, if negb ok then ret None
                     else forward_loop fuel (chunk ++ drop (length chunk) buf)
                            (size_add cs (N.of_nat (length chunk)))))
        (World cl ce rest AtEOF rm co gc lg)
      = Some (Some (buf', (cs + N.of_nat (length ob))%N),
              World cl ce [] AtEOF rm co gc
                (lg ++ (Wrote ClientFd <$> blocks (S fuel) n ob))) ∧
      (length ob ≤ n → buf' = ob ++ drop (length ob) buf)) as Hstep.
  { intros chunk rest Hne Hrest Hlen Hsingle Hblocks.
    rewrite decide_False by (by destruct chunk).
    rewrite take_app_length. unfold bind at 1, rio_writen. cbn [room]. rewrite Hr.
    cbn [negb add_event client_lines client_end origin_bytes origin_end room
         connect_ok g_cache log].
    rewrite size_add_small by lia. unfold add_event.
    cbn [client_lines client_end origin_bytes origin_end room connect_ok
         g_cache log].
    destruct (IH (chunk ++ drop (length chunk) buf)
                (cs + N.of_nat (length chunk))%N
                (World cl ce rest AtEOF rm co gc (lg ++ [Wrote ClientFd chunk])))
      as (buf' & -> & Hbuf'); [done|done|done|simpl; lia|].
    exists buf'. split.
    - unfold forwarded.
      cbn [client_lines client_end origin_bytes origin_end room connect_ok
           g_cache log]. rewrite <- Hn, <- Hblocks, <- app_assoc.
      do 3 f_equal. f_equal. lia.
    - intros Hle. simpl in Hbuf'. rewrite (Hsingle Hle) in *.
      assert (rest = []) as -> by (destruct rest; [done|simpl in Hlen; lia]).
      simpl in Hbuf'. rewrite Hbuf' by lia. by rewrite drop_0. }
  destruct (decide (n ≤ length ob)) as [Hle|Hgt].
  - cbn [set_origin_bytes client_lines client_end origin_bytes origin_end room
         connect_ok g_cache log].
    apply Hstep.
    + intros Ht. apply (f_equal length) in Ht. rewrite length_take in Ht.
      simpl in Ht. lia.
    + rewrite length_drop. lia.
    + rewrite length_take, length_drop. lia.
    + intros ?. apply take_ge. lia.
    + simpl. by rewrite decide_False.
  - cbn [set_origin_bytes client_lines client_end origin_bytes origin_end room
         connect_ok g_cache log].
    apply Hstep.
    + by destruct ob.
    + simpl. lia.
    + simpl. lia.
    + done.
    + simpl. rewrite decide_False by done.
      rewrite take_ge, drop_ge by lia. by destruct fuel.
Qed.

Lemma cache_insert_reachable hs m key val sz :
  reachable (Sys m hs) → (sz ≤ MAX_OBJECT_SIZE)%N →
  ∃ m' a, cache_insert m key val sz = Some (m', Some a).
Proof.
  intros Hrep%reachable_inv Hsz. simpl in Hrep.
  destruct (lookup_key (heap m) key (entries m)) as [a|] eqn:Hlk.
  - destruct (cache_insert_present _ _ _ _ key val sz a Hrep)
      as (m' & -> & _); [size_lia|done..|]. eauto.
  - destruct (cache_insert_new _ _ _ key val sz Hrep Hsz Hlk)
      as (m' & l' & -> & _). eauto.
Qed.

Lemma written_wrote f (chunks : list (list byte)) evs :
  written f ((Wrote f <$> chunks) ++ evs) = mjoin chunks ++ written f evs.
Proof.
  induction chunks as [|c chunks IH]; [done|].
  unfold written in *. cbn [fmap list_fmap app omap list_omap].
  rewrite decide_True by done. cbn [mjoin list_join].
  rewrite <- app_assoc. f_equal. exact IH.
Qed.

Lemma inserts_wrote f (chunks : list (list byte)) evs :
  inserts ((Wrote f <$> chunks) ++ evs) = inserts evs.
Proof. unfold inserts. induction chunks as [|c chunks IH]; [done|]. by simpl. Qed.

Lemma events_since_app w w' evs :
  log w' = log w ++ evs → events_since w w' = evs.
Proof. intros Hl. unfold events_since. by rewrite Hl, drop_app_length. Qed.

Lemma single_read_iff w :
  origin_end w = AtEOF →
  single_read w ↔ length (origin_bytes w) ≤ N.to_nat MAX_OBJECT_SIZE.
Proof.
  intros He. unfold single_read, rio_readnb. rewrite He.
  remember (N.to_nat MAX_OBJECT_SIZE) as n.
  case_decide as Hn; simpl; split; intros H.
  - injection H as H. apply (f_equal length) in H. rewrite length_take in H. lia.
  - by rewrite take_ge.
  - lia.
  - done.
Qed.
End forwarder.

(** C5: for every response of an origin that ends with end of file (of
    fewer than 2^64 bytes, the range of [size_t]) and a client that takes
    all writes, [forward_http_response] returns [true], has written to the
    client exactly the bytes of the response, in order, and has called
    [cache_insert] if and only if the number of bytes is in
    (0, [MAX_OBJECT_SIZE]] and the response came in a single read; the
    call then passes the URI, the buffer holding the response and its
    length, so that the bytes cached are the response; a response of at
    most [MAX_OBJECT_SIZE] bytes always comes in a single read. *)
Theorem forwarder_writes_all_and_caches_small
    (w : world) (hs : list handle) (buf0 : list byte) (key : string) :
  origin_end w = AtEOF → room w ClientFd = None →
  reachable (Sys (g_cache w) hs) →
  (N.of_nat (length (origin_bytes w)) < SIZE_MOD)%N →
  let resp := origin_bytes w in
  let total := N.of_nat (length resp) in
  ∃ w', forward_http_response buf0 key w = Some (true, w') ∧
    written ClientFd (events_since w w') = resp ∧
    origin_bytes w' = [] ∧
    ((0 < total ≤ MAX_OBJECT_SIZE)%N ∧ single_read w →
     inserts (events_since w w')
       = [(key, resp ++ drop (length resp) buf0, total)] ∧
     malloc_with_data (resp ++ drop (length resp) buf0) total = resp) ∧
    (¬ ((0 < total ≤ MAX_OBJECT_SIZE)%N ∧ single_read w) →
     inserts (events_since w w') = [] ∧ g_cache w' = g_cache w) ∧
    ((total ≤ MAX_OBJECT_SIZE)%N → single_read w).
Proof.
  intros He Hr Hc Hlen resp total. subst resp total.
  destruct (forward_loop_ok (S (length (origin_bytes w))) buf0 0%N w)
    as (buf' & Hloop & Hbuf'); [done|done|lia|lia|].
  unfold forward_http_response. unfold bind at 1. rewrite Hloop.
  rewrite N.add_0_l.
  assert (single_read w ↔ (N.of_nat (length (origin_bytes w)) ≤ MAX_OBJECT_SIZE)%N) as Hsingle.
  { rewrite single_read_iff by done. lia. }
  assert (mjoin (blocks (S (length (origin_bytes w)))
                   (N.to_nat MAX_OBJECT_SIZE) (origin_bytes w)) = origin_bytes w) as Hjoin.
  { apply concat_blocks; [|lia].
    clear. rewrite MAX_OBJECT_SIZE_eq. lia. }
  case_decide as Hd.
  - destruct (cache_insert_reachable hs (g_cache w) key buf' (N.of_nat (length (origin_bytes w))) Hc)
      as (m' & a & Hins); [lia|].
    unfold bind, g_cache_insert, forwarded.
    cbn [g_cache set_g_cache add_event client_lines client_end origin_bytes
         origin_end room connect_ok log].
    rewrite Hins. cbn [mbind option_bind]. unfold ret.
    eexists. split; [reflexivity|].
    erewrite events_since_app
      by (unfold add_event, set_g_cache; cbn [log]; rewrite <- app_assoc;
          reflexivity).
    cbn [origin_bytes g_cache].
    rewrite written_wrote, inserts_wrote, Hjoin.
    split; [by rewrite app_nil_r|]. split; [done|].
    assert (buf' = origin_bytes w ++ drop (length (origin_bytes w)) buf0) as ->.
    { apply Hbuf'. lia. }
    split; [|split; [|tauto]].
    + intros _. split; [done|].
      unfold malloc_with_data, memcpy, memset.
      rewrite Nat2N.id, take_app_length, drop_replicate, Nat.sub_diag.
      apply app_nil_r.
    + intros Hn. destruct Hn. split; [lia|]. apply Hsingle. lia.
  - unfold ret, forwarded. eexists. split; [reflexivity|].
    erewrite events_since_app
      by (cbn [log]; rewrite <- (app_nil_r (Wrote ClientFd <$> _)); reflexivity).
    cbn [origin_bytes g_cache].
    rewrite written_wrote, inserts_wrote, Hjoin.
    split; [by rewrite app_nil_r|]. split; [done|]. split; [|split; [done|tauto]].
    intros [[??] _]. destruct Hd. lia.
Qed.

Lemma forwarder_writes_all_and_caches_small_witness :
  ∃ w', forward_http_response (replicate (N.to_nat MAX_OBJECT_SIZE) x00)
          "http://h/c" (demo_world (bytes_of "HTTP/1.0 200 OK"))
        = Some (true, w') ∧
    written ClientFd (events_since (demo_world (bytes_of "HTTP/1.0 200 OK")) w')
    = bytes_of "HTTP/1.0 200 OK".
Proof.
  destruct (forwarder_writes_all_and_caches_small
              (demo_world (bytes_of "HTTP/1.0 200 OK")) (s_handles demo)
              (replicate (N.to_nat MAX_OBJECT_SIZE) x00) "http://h/c")
    as (w' & H1 & H2 & _).
  - reflexivity.
  - reflexivity.
  - apply (run_init_reachable demo_calls). vm_compute. reflexivity.
  - vm_compute. reflexivity.
  - exists w'. split; [exact H1|exact H2].
Defined.


(** * The worker *)

Section worker.
Implicit Types (w : world) (p : parser_t).

Lemma read_request_lines_frame lex fuel p n w r w1 :
  read_request_lines lex fuel p n w = Some (r, w1) →
  log w1 = log w ∧ room w1 = room w ∧ g_cache w1 = g_cache w.
Proof.
  revert p n w. induction fuel as [|fuel IH]; intros p n w; [done|].
  cbn [read_request_lines]. unfold bind at 1, rio_readlineb.
  destruct w as [cl ce ob oe rm co gc lg]. cbn [client_lines client_end].
  destruct cl as [|line cl].
  - destruct ce; [|by intros [= <- <-]].
    rewrite decide_True by done. by intros [= <- <-].
  - cbn [set_client_lines client_lines client_end origin_bytes origin_end room
         connect_ok g_cache log].
    case_decide; [by intros [= <- <-]|].
    destruct (streq line CRLF); [by intros [= <- <-]|].
    destruct (parser_parse_line lex p line) as [p' []].
    + intros Hrec. by apply IH in Hrec.
    + intros Hrec. by apply IH in Hrec.
    + by intros [= <- <-].
Qed.

Lemma error_replies_fit :
  Forall (λ '(errnum, shortmsg, longmsg),
            String.length (clienterror_body errnum shortmsg longmsg) < MAXBUF ∧
            String.length (clienterror_headers errnum shortmsg
              (String.length (clienterror_body errnum shortmsg longmsg)))
              < MAXLINE) error_replies.
Proof.
  unfold error_replies.
  repeat (apply Forall_cons_2;
          [split; apply Nat.ltb_lt; vm_compute; reflexivity|]).
  apply Forall_nil_2.
Qed.

Lemma validate_error_replies p e : validate p = inl e → e ∈ error_replies.
Proof.
  unfold validate, error_replies.
  repeat (match goal with
          | |- context [match ?x with _ => _ end] => destruct x
          end; try done);
    intros [= <-]; set_solver.
Qed.

Lemma clienterror_writes w errnum shortmsg longmsg :
  room w ClientFd = None →
  (errnum, shortmsg, longmsg) ∈ error_replies →
  ∃ w', clienterror ClientFd errnum shortmsg longmsg w = Some (tt, w') ∧
    log w' = log w ++ error_page errnum shortmsg longmsg ∧
    room w' = room w.
Proof.
  intros Hr Hin.
  pose proof (proj1 (Forall_forall _ _) error_replies_fit _ Hin) as [Hb Hh].
  unfold clienterror.
  rewrite decide_False by lia. rewrite decide_False by lia.
  unfold bind, rio_writen. rewrite Hr. cbn [negb add_event room]. rewrite Hr.
  unfold ret. eexists. split; [reflexivity|]. cbn [log room add_event].
  split; [|done]. by rewrite <- app_assoc.
Qed.

(** [parse_http_request] is the reading loop followed by [validate]. *)
Lemma parse_http_request_validate lex w p n w1 :
  read_request_lines lex (S (length (client_lines w))) parser_new 0 w
  = Some (Some (p, n), w1) →
  n ≠ 0 →
  parse_http_request lex ClientFd parser_new w
  = match validate p with
    | inl (errnum, shortmsg, longmsg) =>
        bind (clienterror ClientFd errnum shortmsg longmsg)
             (λ _, ret (p, None)) w1
    | inr info => Some ((p, Some info), w1)
    end.
Proof.
  intros Hread Hn. unfold parse_http_request. unfold bind at 1. rewrite Hread.
  rewrite decide_False by done. unfold validate.
  repeat (match goal with
          | |- context [match ?x with _ => _ end] => destruct x
          end; try done).
Qed.

Lemma serve_rejects lex buf0 w p n w1 errnum shortmsg longmsg :
  room w ClientFd = None →
  read_request_lines lex (S (length (client_lines w))) parser_new 0 w
  = Some (Some (p, n), w1) →
  n ≠ 0 →
  validate p = inl (errnum, shortmsg, longmsg) →
  ∃ w', serve lex buf0 w = Some (tt, w') ∧
    events_since w w' = error_page errnum shortmsg longmsg ++ [Closed ClientFd].
Proof.
  intros Hr Hread Hn Hv.
  destruct (read_request_lines_frame _ _ _ _ _ _ _ Hread) as (Hl1 & Hr1 & _).
  destruct (clienterror_writes w1 errnum shortmsg longmsg) as (w2 & Hce & Hl2 & _).
  { by rewrite Hr1. }
  { by eapply validate_error_replies. }
  unfold serve. unfold bind at 1. unfold bind at 1.
  rewrite (parse_http_request_validate _ _ _ _ _ Hread Hn), Hv.
  unfold bind at 1. rewrite Hce. unfold ret, close.
  eexists. split; [reflexivity|].
  apply events_since_app. cbn [log add_event]. by rewrite Hl2, Hl1, app_assoc.
Qed.
End worker.

(** C7, amended: for every request of which the worker parsed at least one
    line, the worker sends one error reply, decided by the first check that
    fails in the order of [parse_http_request], and then closes the
    connection: 400 Bad Request when the version cannot be retrieved or is
    neither 1.0 nor 1.1; otherwise 400 when the method cannot be retrieved
    and 501 Not Implemented when it is not GET; otherwise 400 when the
    scheme cannot be retrieved and 501 when it is not http; otherwise 400
    when the URI, the host, the port or the path cannot be retrieved. *)
Theorem worker_replies_by_first_failed_check
    (lex : string → parsed_line) (buf0 : list byte) (w w1 : world)
    (p : parser_t) (n : nat) :
  room w ClientFd = None →
  read_request_lines lex (S (length (client_lines w))) parser_new 0 w
  = Some (Some (p, n), w1) →
  n ≠ 0 →
  let replies errnum shortmsg :=
    ∃ longmsg w', serve lex buf0 w = Some (tt, w') ∧
      events_since w w' = error_page errnum shortmsg longmsg ++ [Closed ClientFd] in
  (¬ version_ok p → replies "400" "Bad Request") ∧
  (version_ok p → parser_retrieve p METHOD = None →
   replies "400" "Bad Request") ∧
  (version_ok p → (∀ m, parser_retrieve p METHOD = Some m → m ≠ "GET") →
   is_Some (parser_retrieve p METHOD) →
   replies "501" "Not Implemented") ∧
  (version_ok p → parser_retrieve p METHOD = Some "GET" →
   parser_retrieve p SCHEME = None → replies "400" "Bad Request") ∧
  (version_ok p → parser_retrieve p METHOD = Some "GET" →
   (∀ sc, parser_retrieve p SCHEME = Some sc → sc ≠ "http") →
   is_Some (parser_retrieve p SCHEME) →
   replies "501" "Not Implemented") ∧
  (version_ok p → parser_retrieve p METHOD = Some "GET" →
   parser_retrieve p SCHEME = Some "http" →
   parser_retrieve p URI = None ∨ parser_retrieve p HOST = None ∨
   parser_retrieve p PORT = None ∨ parser_retrieve p PATH = None →
   replies "400" "Bad Request").
Proof.
  intros Hr Hread Hn replies.
  assert (∀ errnum shortmsg longmsg,
            validate p = inl (errnum, shortmsg, longmsg) →
            replies errnum shortmsg) as Hrep.
  { intros errnum shortmsg longmsg Hv.
    destruct (serve_rejects lex buf0 w p n w1 _ _ _ Hr Hread Hn Hv) as (w' & ? & ?).
    by exists longmsg, w'. }
  assert (∀ v, parser_retrieve p HTTP_VERSION = Some v →
            negb (streq v "1.0" || streq v "1.1") = false → version_ok p) as Hvok.
  { intros v Hv Hb. apply negb_false_iff, orb_true_iff in Hb as [Hb|Hb];
      apply bool_decide_eq_true_1 in Hb; subst; [by left|by right]. }
  assert (version_ok p → ∃ v, parser_retrieve p HTTP_VERSION = Some v ∧
            negb (streq v "1.0" || streq v "1.1") = false) as Hvok'.
  { intros [Hv|Hv]; eexists; (split; [exact Hv|done]). }
  split_and!.
  - intros Hbad. unfold validate in Hrep.
    destruct (parser_retrieve p HTTP_VERSION) as [v|] eqn:Hv; [|by eapply Hrep].
    destruct (negb (streq v "1.0" || streq v "1.1")) eqn:Hb; [by eapply Hrep|].
    destruct Hbad. by eapply Hvok.
  - intros (v & Hv & Hb)%Hvok' Hm. unfold validate in Hrep.
    rewrite Hv, Hb, Hm in Hrep. by eapply Hrep.
  - intros (v & Hv & Hb)%Hvok' Hne [m Hm]. unfold validate in Hrep.
    rewrite Hv, Hb, Hm in Hrep.
    assert (streq m "GET" = false) as Hs
      by (apply bool_decide_eq_false_2; by apply Hne).
    rewrite Hs in Hrep. by eapply Hrep.
  - intros (v & Hv & Hb)%Hvok' Hm Hsc. unfold validate in Hrep.
    rewrite Hv, Hb, Hm, Hsc in Hrep. by eapply Hrep.
  - intros (v & Hv & Hb)%Hvok' Hm Hne [sc Hsc]. unfold validate in Hrep.
    rewrite Hv, Hb, Hm, Hsc in Hrep.
    assert (streq sc "http" = false) as Hs
      by (apply bool_decide_eq_false_2; by apply Hne).
    simpl in Hrep. rewrite Hs in Hrep. by eapply Hrep.
  - intros (v & Hv & Hb)%Hvok' Hm Hsc Hmiss. unfold validate in Hrep.
    rewrite Hv, Hb, Hm, Hsc in Hrep. simpl in Hrep, Hmiss.
    destruct (r_uri (p_values p)); [|by eapply Hrep].
    destruct (r_host (p_values p)); [|by eapply Hrep].
    destruct (r_port (p_values p)); [|by eapply Hrep].
    destruct (r_path (p_values p)); [|by eapply Hrep].
    naive_solver.
Qed.


Lemma worker_replies_by_first_failed_check_witness :
  ∃ longmsg w',
    serve example_lex [] (client_world ["POST http://h/ HTTP/1.0" +:+ CRLF; CRLF])
    = Some (tt, w') ∧
    events_since (client_world ["POST http://h/ HTTP/1.0" +:+ CRLF; CRLF]) w'
    = error_page "501" "Not Implemented" longmsg ++ [Closed ClientFd].
Proof.
  edestruct (worker_replies_by_first_failed_check example_lex []
               (client_world ["POST http://h/ HTTP/1.0" +:+ CRLF; CRLF]))
    as (_ & _ & H3 & _).
  - reflexivity.
  - vm_compute. reflexivity.
  - vm_compute. discriminate.
  - apply H3.
    + left. reflexivity.
    + intros m [= <-]. discriminate.
    + eexists. reflexivity.
Defined.

(** C7 as stated fails: the version is checked before the method, so a
    request with the method POST and the version 2.0 is answered with
    400 Bad Request, not with 501 Not Implemented. *)
Lemma post_with_bad_version_gets_400 :
  (∃ p n w1,
     read_request_lines example_lex 3 parser_new 0
       (client_world ["POST http://h/ HTTP/2.0" +:+ CRLF; CRLF])
     = Some (Some (p, n), w1) ∧
     parser_retrieve p METHOD = Some "POST" ∧
     parser_retrieve p HTTP_VERSION = Some "2.0") ∧
  ∃ w',
    serve example_lex [] (client_world ["POST http://h/ HTTP/2.0" +:+ CRLF; CRLF])
    = Some (tt, w') ∧
    events_since (client_world ["POST http://h/ HTTP/2.0" +:+ CRLF; CRLF]) w'
    = error_page "400" "Bad Request" "Wrong HTTP version" ++ [Closed ClientFd] ∧
    ∀ longmsg,
      events_since (client_world ["POST http://h/ HTTP/2.0" +:+ CRLF; CRLF]) w'
      ≠ error_page "501" "Not Implemented" longmsg ++ [Closed ClientFd].
Proof.
  split.
  - eexists _, _, _. split; [vm_compute; reflexivity|]. split; reflexivity.
  - eexists. split; [vm_compute; reflexivity|]. split; [vm_compute; reflexivity|].
    intros longmsg. vm_compute. discriminate.
Qed.

(** A request whose first line does not parse gets no reply at all: the
    reading loop stops with [n = 0], which [parse_http_request] takes for an
    empty request. *)
Lemma unparsable_first_line_gets_no_reply
    (lex : string → parsed_line) (buf0 : list byte) (line : string)
    (rest : list string) :
  lex line = IsError → line ≠ EmptyString → line ≠ CRLF →
  ∃ w', serve lex buf0 (client_world (line :: rest)) = Some (tt, w') ∧
    events_since (client_world (line :: rest)) w' = [Closed ClientFd].
Proof.
  intros Hlex Hne Hcrlf. unfold serve, parse_http_request, client_world.
  unfold bind at 1. unfold bind at 1. unfold bind at 1.
  cbn [client_lines length read_request_lines].
  unfold bind at 1. unfold rio_readlineb. cbn [client_lines set_client_lines].
  rewrite decide_False by (by destruct line).
  unfold streq. rewrite bool_decide_eq_false_2 by done.
  unfold parser_parse_line. rewrite Hlex. unfold ret.
  rewrite decide_True by done. unfold close, add_event. eexists.
  split; [reflexivity|]. done.
Qed.

Lemma unparsable_first_line_example :
  ∃ w', serve example_lex [] (client_world ["garbage" +:+ CRLF; CRLF])
        = Some (tt, w') ∧
    events_since (client_world ["garbage" +:+ CRLF; CRLF]) w'
    = [Closed ClientFd].
Proof.
  apply (unparsable_first_line_gets_no_reply example_lex []
           ("garbage" +:+ CRLF) [CRLF]).
  - reflexivity.
  - discriminate.
  - discriminate.
Qed.

(** C6: [construct_new_request] never returns [false]: whatever the request,
    it returns [true] or writes past the end of [new_req].  For a request
    with three headers of 4000 characters the rewritten request is longer
    than [MAXLINE], and the function writes past the end of the buffer
    instead of reporting failure. *)
Theorem rewriter_overruns_instead_of_failing :
  (∀ p info,
     construct_new_request p info = None ∨
     ∃ out p', construct_new_request p info = Some (true, out, p')) ∧
  MAXLINE < String.length
              (request_message (i_uri demo_info)
                 (rewritten_headers demo_info (p_headers overflow_parser))) ∧
  construct_new_request overflow_parser demo_info = None.
Proof.
  split; [|split].
  - intros p info. unfold construct_new_request.
    destruct (snprintf _ _) as [out1|]; [|by left]. cbn [mbind option_bind].
    destruct (copy_headers _ _ _ _) as [[[p' hf] out2]|]; [|by left].
    cbn [mbind option_bind].
    destruct (if hf then Some out2 else _) as [out3|]; [|by left].
    cbn [mbind option_bind].
    destruct (snprintf out3 _) as [out4|]; [|by left].
    right. by eexists _, _.
  - apply Nat.ltb_lt. vm_compute. reflexivity.
  - vm_compute. reflexivity.
Qed.

(** * Further properties of the cache and of the worker *)

Section list_shape.
Implicit Types (h : gmap addr entry_t) (l : list addr) (a b : addr).
Implicit Types (m : mem) (hs : list handle) (s : sys).

Lemma NoDup_omap_keys h l :
  NoDup l →
  (∀ a b ea eb, a ∈ l → b ∈ l → h !! a = Some ea → h !! b = Some eb →
     e_key ea = e_key eb → a = b) →
  NoDup (omap (λ a, e_key <$> h !! a) l).
Proof.
  induction 1 as [|a l Hni Hnd IH]; intros Hk; simpl; [constructor|].
  destruct (h !! a) as [ea|] eqn:Ha; simpl.
  - constructor.
    + intros (b & Hb & Hkb)%list_elem_of_omap.
      destruct (h !! b) as [eb|] eqn:Hbe; [|done]. injection Hkb as Hkb.
      apply Hni. rewrite (Hk a b ea eb); [done|set_solver|set_solver|done..].
    + apply IH. intros ???? ??. apply Hk; set_solver.
  - apply IH. intros ???? ??. apply Hk; set_solver.
Qed.

Lemma length_omap_keys h l :
  (∀ a, a ∈ l → is_Some (h !! a)) →
  length (omap (λ a, e_key <$> h !! a) l) = length l.
Proof.
  induction l as [|a l IH]; intros Hal; [done|]. simpl.
  destruct (Hal a) as [e ->]; [set_solver|]. simpl. f_equal.
  apply IH. intros ??. apply Hal. set_solver.
Qed.

Lemma size_list_to_set_length l : size (list_to_set l : gset addr) ≤ length l.
Proof.
  induction l as [|a l IH]; [by rewrite list_to_set_nil, size_empty|].
  rewrite list_to_set_cons, size_union_alt, size_singleton. simpl.
  assert (list_to_set l ∖ {[a]} ⊆ (list_to_set l : gset addr)) as Hsub
    by set_solver.
  apply subseteq_size in Hsub. lia.
Qed.

Lemma ring_links h l a :
  ring h l → a ∈ l →
  ∃ e nx pv en ep,
    h !! a = Some e ∧ e_next e = Some nx ∧ e_prev e = Some pv ∧
    nx ∈ l ∧ pv ∈ l ∧
    h !! nx = Some en ∧ e_prev en = Some a ∧
    h !! pv = Some ep ∧ e_next ep = Some a.
Proof.
  intros Hr (l1 & l2 & ->)%list_elem_of_split.
  destruct (ring_alloc h _ a Hr) as [e He]; [set_solver|].
  pose proof (ring_next h l1 a l2 e Hr He) as Hnx.
  pose proof (ring_prev h l1 a l2 e Hr He) as Hpv.
  assert (∃ nx en, e_next e = Some nx ∧ nx ∈ l1 ++ a :: l2 ∧
            h !! nx = Some en ∧ e_prev en = Some a) as (nx & en & ? & ? & ? & ?).
  { destruct l2 as [|n l2].
    - destruct l1 as [|n l1].
      + exists a, e. simpl in *. split; [done|]. split; [set_solver|done].
      + simpl in Hnx. destruct (ring_alloc h _ n Hr) as [en Hen]; [set_solver|].
        exists n, en. split; [done|]. split; [set_solver|]. split; [done|].
        rewrite (ring_prev h [] n (l1 ++ [a]) en); [|done..].
        rewrite app_nil_r.
        change (n :: l1 ++ [a]) with ((n :: l1) ++ [a]). by rewrite last_snoc.
    - simpl in Hnx. destruct (ring_alloc h _ n Hr) as [en Hen]; [set_solver|].
      exists n, en. split; [done|]. split; [set_solver|]. split; [done|].
      rewrite (ring_prev h (l1 ++ [a]) n l2 en);
        [|by rewrite <- app_assoc|done].
      rewrite app_assoc.
      change (n :: (l2 ++ l1) ++ [a]) with ((n :: l2 ++ l1) ++ [a]).
      by rewrite last_snoc. }
  assert (∃ pv ep, e_prev e = Some pv ∧ pv ∈ l1 ++ a :: l2 ∧
            h !! pv = Some ep ∧ e_next ep = Some a) as (pv & ep & ? & ? & ? & ?).
  { destruct l1 as [|y l1 _] using rev_ind.
    - destruct l2 as [|x l2 _] using rev_ind.
      + exists a, e. simpl in *. split; [done|]. split; [set_solver|done].
      + rewrite app_nil_r in Hpv.
        change (a :: l2 ++ [x]) with ((a :: l2) ++ [x]) in Hpv.
        rewrite last_snoc in Hpv.
        destruct (ring_alloc h _ x Hr) as [ex Hex]; [set_solver|].
        exists x, ex. split; [done|]. split; [set_solver|]. split; [done|].
        rewrite (ring_next h ([] ++ a :: l2) x [] ex); [done|done..].
    - rewrite app_assoc in Hpv.
      change (a :: (l2 ++ l1) ++ [y]) with ((a :: l2 ++ l1) ++ [y]) in Hpv.
      rewrite last_snoc in Hpv.
      destruct (ring_alloc h _ y Hr) as [ey Hey]; [set_solver|].
      exists y, ey. split; [done|]. split; [set_solver|]. split; [done|].
      rewrite (ring_next h l1 y (a :: l2) ey);
        [done|by rewrite <- app_assoc in Hr|done]. }
  by exists e, nx, pv, en, ep.
Qed.

End list_shape.

(** X1: in every state that the cache reaches from [cache_create], the
    entries of the list are distinct nodes with distinct keys, and [find]
    returns the one entry of the list that has the key, or [NULL] exactly
    when no entry has it. *)
Theorem cached_keys_are_distinct (cs : list call) (s : sys) :
  run init cs = Some s →
  NoDup (entries (s_mem s)) ∧
  NoDup (present_keys (s_mem s)) ∧
  length (present_keys (s_mem s)) = length (entries (s_mem s)) ∧
  ∀ key,
    (find (s_mem s) key = Some None ↔ key ∉ present_keys (s_mem s)) ∧
    ∀ a, find (s_mem s) key = Some (Some a) ↔
         a ∈ entries (s_mem s) ∧ e_key <$> heap (s_mem s) !! a = Some key.
Proof.
  intros Hrep%run_init_reachable%reachable_inv.
  pose proof Hrep as [Hr Hh Hs Hb Ho Hk Href Hhs].
  split; [by apply ring_NoDup in Hr|]. split.
  { apply NoDup_omap_keys; [by apply ring_NoDup in Hr|done]. }
  split.
  { apply length_omap_keys. intros a. by apply ring_alloc. }
  intros key. rewrite (find_lookup_key _ _ _ _ _ Hrep). split.
  - rewrite elem_of_present_keys. split.
    + intros [= Hlk] (a & Hin & Hka). by eapply lookup_key_None.
    + intros Hn. destruct (lookup_key _ _ _) as [a|] eqn:Hlk; [|done].
      apply lookup_key_Some in Hlk. exfalso. apply Hn. by exists a.
  - intros a. split.
    + intros [= Hlk]. by apply lookup_key_Some in Hlk.
    + intros [Hin Hka]. destruct (heap (s_mem s) !! a) as [e|] eqn:He; [|done].
      injection Hka as Hka. do 2 f_equal.
      by rewrite (lookup_key_unique _ _ _ _ key a e Hrep).
Qed.

Lemma cached_keys_are_distinct_witness :
  run init demo_calls = Some demo ∧ NoDup (present_keys (s_mem demo)).
Proof.
  split; [vm_compute; reflexivity|].
  apply (cached_keys_are_distinct demo_calls demo). vm_compute. reflexivity.
Defined.

(** X2: in every reachable state [cache->head] is the first entry of
    the list, every entry of the list has non-null [next] and [prev] pointers
    to entries of the list with [e->next->prev == e] and [e->prev->next == e],
    and [cache->head->prev], the victim of an eviction, is the least recently
    used entry. *)
Theorem cache_list_is_circular_and_doubly_linked (cs : list call) (s : sys) :
  run init cs = Some s →
  c_head (cache (s_mem s)) = head (entries (s_mem s)) ∧
  (∀ a, a ∈ entries (s_mem s) →
     ∃ e nx pv en ep,
       heap (s_mem s) !! a = Some e ∧
       e_next e = Some nx ∧ e_prev e = Some pv ∧
       nx ∈ entries (s_mem s) ∧ pv ∈ entries (s_mem s) ∧
       heap (s_mem s) !! nx = Some en ∧ e_prev en = Some a ∧
       heap (s_mem s) !! pv = Some ep ∧ e_next ep = Some a) ∧
  (∀ hd e, c_head (cache (s_mem s)) = Some hd →
     heap (s_mem s) !! hd = Some e →
     e_prev e = last (entries (s_mem s))).
Proof.
  intros Hrep%run_init_reachable%reachable_inv.
  pose proof Hrep as [Hr Hh Hs Hb Ho Hk Href Hhs].
  split; [done|]. split; [intros a; by apply ring_links|].
  intros hd e Hhd He. rewrite Hh in Hhd.
  destruct (entries (s_mem s)) as [|x l] eqn:Hl; [done|].
  injection Hhd as ->.
  rewrite (ring_prev (heap (s_mem s)) [] hd l e); [by rewrite app_nil_r|done..].
Qed.

Lemma cache_list_is_circular_and_doubly_linked_witness :
  run init demo_calls = Some demo ∧
  c_head (cache (s_mem demo)) = head (entries (s_mem demo)).
Proof.
  split; [vm_compute; reflexivity|].
  apply (cache_list_is_circular_and_doubly_linked demo_calls demo).
  vm_compute. reflexivity.
Defined.

(** X3: no entry leaks: in every reachable state an entry is allocated
    if and only if it is in the list or a worker holds a handle for it, so
    the number of allocated entries is at most the number of list entries
    plus the number of handles, and equal to the number of list entries when
    no handle is outstanding. *)
Theorem unreferenced_entries_are_freed (cs : list call) (s : sys) :
  run init cs = Some s →
  (∀ a, is_Some (heap (s_mem s) !! a) ↔
        a ∈ entries (s_mem s) ∨ a ∈ (s_handles s).*1) ∧
  size (heap (s_mem s)) ≤ length (entries (s_mem s)) + length (s_handles s) ∧
  (s_handles s = [] → size (heap (s_mem s)) = length (entries (s_mem s))).
Proof.
  intros Hrep%run_init_reachable%reachable_inv.
  pose proof Hrep as [Hr Hh Hs Hb Ho Hk Href Hhs].
  assert (∀ a, is_Some (heap (s_mem s) !! a) ↔
             a ∈ entries (s_mem s) ∨ a ∈ (s_handles s).*1) as Hdom.
  { intros a. split.
    - intros [e He]. destruct (Href a e He) as [Hra Hpos].
      unfold in_list in Hra. case_decide; [by left|right].
      destruct (held_pos_elem (s_handles s) a) as [v Hv]; [lia|].
      apply list_elem_of_fmap. by exists (a, v).
    - intros [Hin|((a' & v) & -> & Hin)%list_elem_of_fmap].
      + by eapply ring_alloc.
      + destruct (Hhs _ _ Hin) as (e & ? & _). by exists e. }
  assert (dom (heap (s_mem s))
          ≡ list_to_set (entries (s_mem s) ++ (s_handles s).*1)) as Hd.
  { intros a. rewrite elem_of_dom, Hdom, elem_of_list_to_set, elem_of_app. done. }
  split; [done|]. split.
  - rewrite <- size_dom, Hd.
    etrans; [apply size_list_to_set_length|].
    rewrite length_app, length_fmap. done.
  - intros Hnil. rewrite Hnil in Hd. simpl in Hd. rewrite app_nil_r in Hd.
    rewrite <- size_dom, Hd. apply size_list_to_set. by apply ring_NoDup in Hr.
Qed.

Lemma unreferenced_entries_are_freed_witness :
  run init demo_calls = Some demo ∧
  size (heap (s_mem demo)) ≤ length (entries (s_mem demo)) + length (s_handles demo).
Proof.
  split; [vm_compute; reflexivity|].
  apply (unreferenced_entries_are_freed demo_calls demo). vm_compute. reflexivity.
Defined.

Section eviction_order.
Implicit Types (l rl : list addr) (sz : addr → N).

Lemma spec_evict_lru_first_suffix sz rl :
  ∃ gone, rl = gone ++ spec_evict_lru_first sz rl ∧
    ∀ pre z, gone = pre ++ [z] →
      (MAX_CACHE_SIZE < sum_sizes sz (z :: spec_evict_lru_first sz rl))%N.
Proof.
  induction rl as [|x rl (gone & Hg & Hmin)]; simpl.
  - exists []. split; [done|]. by intros [|??] ?.
  - case_decide as Hover.
    + exists (x :: gone). split; [by rewrite Hg at 1|].
      intros pre z Hpre. destruct gone as [|g gone].
      * destruct pre as [|? [|??]]; simplify_eq /=.
        simpl in Hg. by rewrite <- Hg.
      * destruct pre as [|p pre]; [by destruct gone|].
        simplify_eq /=. by eapply Hmin.
    + exists []. split; [done|]. by intros [|??] ?.
Qed.

Lemma spec_evict_split sz l :
  ∃ gone, l = spec_evict sz l ++ gone ∧
    ∀ z rest, gone = z :: rest →
      (MAX_CACHE_SIZE < sum_sizes sz (spec_evict sz l) + sz z)%N.
Proof.
  destruct (spec_evict_lru_first_suffix sz (reverse l)) as (gone & Hg & Hmin).
  exists (reverse gone). unfold spec_evict. split.
  - rewrite <- reverse_app, <- Hg. by rewrite reverse_involutive.
  - intros z rest Hz.
    specialize (Hmin (reverse rest) z).
    rewrite <- (reverse_involutive gone), Hz, reverse_cons in Hmin.
    specialize (Hmin eq_refl). simpl in Hmin.
    rewrite (sum_sizes_Permutation sz (reverse _) (spec_evict_lru_first sz (reverse l)))
      by apply reverse_Permutation.
    lia.
Qed.

End eviction_order.

(** X4: a [cache_insert] of a new key with a size of at most
    [MAX_OBJECT_SIZE] puts the new entry at the head, keeps a most recently
    used part [stay] of the old list in its order and evicts the rest
    [gone]; what stays fits in [MAX_CACHE_SIZE] together with the new entry,
    and would not fit with the most recently used evicted entry added (the
    eviction stops as soon as the size allows); an evicted entry is freed at
    once exactly when no worker holds it, and the entries that stay keep
    their key, bytes and size. *)
Theorem insert_evicts_least_recently_used
    (cs : list call) (s : sys) (key : string) (val : list byte) (sz : N) :
  run init cs = Some s → (sz ≤ MAX_OBJECT_SIZE)%N →
  find (s_mem s) key = Some None →
  ∃ m' a stay gone,
    cache_insert (s_mem s) key val sz = Some (m', Some a) ∧
    entries (s_mem s) = stay ++ gone ∧
    entries m' = a :: stay ∧
    (sz + total (heap (s_mem s)) stay ≤ MAX_CACHE_SIZE)%N ∧
    (∀ z rest, gone = z :: rest →
       (MAX_CACHE_SIZE
        < sz + total (heap (s_mem s)) stay + esize (heap (s_mem s)) z)%N) ∧
    (∀ z, z ∈ gone →
       (heap m' !! z = None ↔ held (s_handles s) z = 0)) ∧
    (∀ b e, b ∈ stay → heap (s_mem s) !! b = Some e →
       view <$> heap m' !! b = Some (view e)).
Proof.
  intros Hrep%run_init_reachable%reachable_inv Hsz Hfind.
  rewrite (find_lookup_key _ _ _ _ _ Hrep) in Hfind. injection Hfind as Hlk.
  destruct (cache_insert_new _ _ _ key val sz Hrep Hsz Hlk)
    as (m' & l' & Hins & Hfresh & Hev & Hrep' & Hshr).
  set (a := Calloc (heap (s_mem s))) in *.
  set (h0 := <[a := Entry key (malloc_with_data val sz) sz None None 1]>
               (heap (s_mem s))) in *.
  destruct (spec_evict_split (esize h0) (a :: entries (s_mem s)))
    as (gone & Hsplit & Hmin).
  rewrite Hev in Hsplit, Hmin. injection Hsplit as Hsplit.
  pose proof Hrep as [Hr Hh Hs Hb Ho Hk Href Hhs].
  pose proof Hrep' as [Hr' Hh' Hs' Hb' Ho' Hk' Href' Hhs'].
  assert (a ∉ entries (s_mem s)) as Hna.
  { intros Hin. destruct (ring_alloc _ _ _ Hr Hin). congruence. }
  assert (∀ b, b ≠ a → esize h0 b = esize (heap (s_mem s)) b) as Hes.
  { intros b Hb0. unfold esize, h0. by rewrite lookup_insert_ne. }
  assert (esize h0 a = sz) as Hesa.
  { unfold esize, h0. by rewrite lookup_insert_eq. }
  assert (∀ l, a ∉ l → sum_sizes (esize h0) l = total (heap (s_mem s)) l) as Hsum.
  { induction l as [|b l IH]; intros Hnl; [done|]. simpl.
    rewrite Hes by set_solver. rewrite IH by set_solver. done. }
  assert (a ∉ l') as Hnl' by (rewrite Hsplit in Hna; set_solver).
  exists m', a, l', gone. split; [done|]. split; [done|].
  split; [by apply (rep_entries _ _ _ _ Hrep')|]. split.
  { pose proof (spec_evict_bound (esize h0) (a :: entries (s_mem s))) as Hbd.
    rewrite Hev in Hbd. simpl in Hbd. rewrite Hesa, Hsum in Hbd by done. done. }
  split.
  { intros z rest Hz. specialize (Hmin z rest Hz). simpl in Hmin.
    rewrite Hesa, Hsum, Hes in Hmin by (try done; rewrite Hsplit, Hz in Hna; set_solver).
    lia. }
  split.
  - intros z Hz.
    assert (z ∉ a :: l') as Hzl.
    { apply ring_NoDup in Hr. rewrite Hsplit in Hr, Hna.
      apply NoDup_app in Hr as (_ & Hdisj & _).
      intros [->|Hzl]%elem_of_cons; [set_solver|]. by eapply Hdisj. }
    split.
    + intros Hnone. apply held_None. intros v Hv.
      destruct (Hhs' _ _ Hv) as (? & ? & _). congruence.
    + intros Hheld. destruct (heap m' !! z) as [e'|] eqn:He'; [|done].
      destruct (Href' z e' He') as [Hre Hpos]. unfold in_list in Hre.
      rewrite decide_False in Hre by done. lia.
  - intros b e Hb0 He.
    destruct (ring_alloc _ _ b Hr') as [e' He']; [set_solver|].
    rewrite He'. simpl. f_equal.
    destruct (Hshr b e' He') as (e0 & He0 & Hv).
    unfold h0 in He0. rewrite lookup_insert_ne in He0 by set_solver. congruence.
Qed.

Lemma insert_evicts_least_recently_used_witness :
  ∃ m' a stay gone,
    cache_insert (s_mem demo) "http://h/c" (bytes_of "xyz") 3 = Some (m', Some a) ∧
    entries (s_mem demo) = stay ++ gone ∧ entries m' = a :: stay.
Proof.
  destruct (insert_evicts_least_recently_used demo_calls demo "http://h/c"
              (bytes_of "xyz") 3) as (m' & a & stay & gone & H1 & H2 & H3 & _).
  - vm_compute. reflexivity.
  - vm_compute. discriminate.
  - vm_compute. reflexivity.
  - exists m', a, stay, gone. split; [exact H1|]. split; [exact H2|exact H3].
Defined.

(** X5: [cache_entry_release] of a handle that a worker holds changes
    neither the cache object nor the list nor any other entry; it frees the
    entry exactly when the entry has been evicted and this was the last
    handle for it, and otherwise only lowers its reference count by one. *)
Theorem release_frees_only_the_last_reference
    (cs : list call) (s : sys) (a : addr) :
  run init cs = Some s → a ∈ (s_handles s).*1 →
  ∃ m' e, heap (s_mem s) !! a = Some e ∧
    cache_entry_release (s_mem s) a = Some m' ∧
    cache m' = cache (s_mem s) ∧
    entries m' = entries (s_mem s) ∧
    (∀ b, b ≠ a → heap m' !! b = heap (s_mem s) !! b) ∧
    (heap m' !! a = None ↔
     a ∉ entries (s_mem s) ∧ held (s_handles s) a = 1) ∧
    (∀ e', heap m' !! a = Some e' → e' = set_ref (e_ref e - 1) e).
Proof.
  intros Hrep%run_init_reachable%reachable_inv Hin.
  destruct (cache_entry_release_ok _ _ _ _ a Hrep Hin)
    as (m' & e & He & Hrel & Hrep' & Hc & Hheap & Hlast).
  exists m', e. split; [done|]. split; [done|]. split; [done|].
  split; [by apply (rep_entries _ _ _ _ Hrep')|].
  rewrite Hheap. split; [|split].
  - intros b Hb. case_decide.
    + by rewrite lookup_delete_ne.
    + by rewrite lookup_insert_ne.
  - rewrite <- Hlast. case_decide as Hd.
    + by rewrite lookup_delete_eq.
    + by rewrite lookup_insert_eq.
  - intros e'. case_decide.
    + by rewrite lookup_delete_eq.
    + rewrite lookup_insert_eq. by intros [= <-].
Qed.

Lemma release_frees_only_the_last_reference_witness :
  ∃ m' e, heap (s_mem demo) !! 1%positive = Some e ∧
    cache_entry_release (s_mem demo) 1%positive = Some m'.
Proof.
  destruct (release_frees_only_the_last_reference demo_calls demo 1%positive)
    as (m' & e & H1 & H2 & _).
  - vm_compute. reflexivity.
  - vm_compute. apply list_elem_of_In. simpl. tauto.
  - exists m', e. split; [exact H1|exact H2].
Defined.

Lemma cache_get_then_release (s : sys) (key : string) (a : addr) :
  reachable s → allowed s (Get key) →
  find (s_mem s) key = Some (Some a) →
  ∃ m1 m2 e e1,
    heap (s_mem s) !! a = Some e ∧ e_key e = key ∧
    cache_get (s_mem s) key = Some (m1, Some a) ∧
    heap m1 !! a = Some e1 ∧ view e1 = view e ∧
    cache_entry_release m1 a = Some m2 ∧
    entries m2 = promote a (entries (s_mem s)) ∧
    cache m2 = cache m1 ∧
    c_size (cache m2) = c_size (cache (s_mem s)) ∧
    (∀ b, payload <$> heap m2 !! b = payload <$> heap (s_mem s) !! b) ∧
    reachable (Sys m2 (s_handles s)).
Proof.
  intros Hreach Hal Hfind.
  pose proof (reachable_inv _ Hreach) as Hrep.
  rewrite (find_lookup_key _ _ _ _ key Hrep) in Hfind. injection Hfind as Hlk.
  destruct (cache_get_hit _ _ _ _ key a Hrep)
    as (m1 & e & He & Hk & Hget & Hrep1 & Hsz & F); [done|done|done|].
  destruct (cache_entry_release_ok _ _ _ _ a Hrep1)
    as (m2 & e1 & He1 & Hrel & Hrep2 & Hc & Hheap & _); [set_solver|].
  simpl in Hrep2. rewrite decide_True in Hrep2 by done.
  assert (e_ref e1 = (e_ref e + 1)%Z ∧
          payload (set_ref (e_ref e1 - 1) e1) = payload e ∧
          view e1 = view e) as (Hre & Hpe & Hve).
  { specialize (F a). rewrite He1, He in F. simpl in F. apply (inj Some) in F.
    rewrite decide_True in F by done. unfold payload, view in F |- *.
    simpl in F |- *.
    injection F as Hk1 Hv1 Hs1 Hr1. split; [done|].
    rewrite Hk1, Hv1, Hs1, Hr1. split; [f_equal; lia|done]. }
  exists m1, m2, e, e1. split; [done|]. split; [done|]. split; [done|].
  split; [done|]. split; [done|]. split; [done|].
  split; [by apply (rep_entries _ _ _ _ Hrep2)|]. split; [done|].
  split; [by rewrite Hc|].
  destruct Hrep as [_ _ _ _ _ _ Href _]. destruct (Href a e He) as [_ Hpos].
  split.
  - intros b. rewrite Hheap. rewrite decide_False by lia.
    destruct (decide (b = a)) as [->|Hb].
    + rewrite lookup_insert_eq, He. simpl. by rewrite Hpe.
    + rewrite lookup_insert_ne by done. rewrite F.
      destruct (heap (s_mem s) !! b); [|done]. simpl. by rewrite decide_False.
  - assert (do_call s (Get key) = Some (Sys m1 ((a, view e1) :: s_handles s))) as Hdo.
    { simpl. rewrite Hget. simpl. by rewrite He1. }
    pose proof (reach_call _ _ _ Hreach Hal Hdo) as Hreach1.
    eapply (reach_call _ (Release a)); [exact Hreach1| |].
    + simpl. set_solver.
    + simpl. rewrite Hrel. simpl. by rewrite decide_True.
Qed.

(** X6: a [cache_get] that hits followed by [cache_entry_release] of
    the returned entry leaves every entry with the key, bytes, size and
    reference count it had before; what remains of the two calls is the
    promotion of the entry to the head of the list. *)
Theorem get_then_release_restores_references
    (cs : list call) (s : sys) (key : string) (m1 : mem) (a : addr) :
  run init cs = Some s → allowed s (Get key) →
  cache_get (s_mem s) key = Some (m1, Some a) →
  ∃ m2, cache_entry_release m1 a = Some m2 ∧
    entries m2 = promote a (entries (s_mem s)) ∧
    cache m2 = cache m1 ∧
    c_size (cache m2) = c_size (cache (s_mem s)) ∧
    (∀ b, payload <$> heap m2 !! b = payload <$> heap (s_mem s) !! b) ∧
    reachable (Sys m2 (s_handles s)).
Proof.
  intros Hreach%run_init_reachable Hal Hget.
  assert (find (s_mem s) key = Some (Some a)) as Hfind.
  { unfold cache_get in Hget.
    destruct (find (s_mem s) key) as [[a'|]|]; simplify_option_eq; done. }
  destruct (cache_get_then_release s key a Hreach Hal Hfind)
    as (m1' & m2 & e & e1 & _ & _ & Hget' & _ & _ & Hrel & ?).
  rewrite Hget in Hget'. injection Hget' as <-. by exists m2.
Qed.

Lemma get_then_release_restores_references_witness :
  ∃ m1 a m2, cache_get (s_mem demo) "http://h/a" = Some (m1, Some a) ∧
    cache_entry_release m1 a = Some m2.
Proof.
  destruct (cache_get (s_mem demo) "http://h/a") as [[m1 [a|]]|] eqn:E.
  - destruct (get_then_release_restores_references demo_calls demo "http://h/a"
                m1 a) as (m2 & H & _).
    + vm_compute. reflexivity.
    + vm_compute. reflexivity.
    + exact E.
    + exists m1, a, m2. split; [reflexivity|exact H].
  - vm_compute in E. discriminate.
  - vm_compute in E. discriminate.
Defined.

(** X7: on any well-formed circular list, [remove_entry] of a node of
    the list unlinks this node only: the other nodes keep their order and
    form a well-formed list again, the head moves to the next node when the
    head is removed (and becomes [NULL] when the list gets empty), the
    removed node gets [NULL] links, [cache->size] goes down by its size, and
    no key, value, size or reference count changes. *)
Theorem remove_entry_unlinks_one_node
    (h : gmap addr entry_t) (c : _cache_t) (p q : list addr) (a : addr) :
  ring h (p ++ a :: q) → c_head c = head (p ++ a :: q) →
  ∃ m' e, h !! a = Some e ∧
    remove_entry (Mem h c) a = Some m' ∧
    entries m' = p ++ q ∧ ring (heap m') (p ++ q) ∧
    c_head (cache m') = head (p ++ q) ∧
    c_size (cache m') = size_sub (c_size c) (e_size e) ∧
    heap m' !! a = Some (set_next None (set_prev None e)) ∧
    same_data h (heap m').
Proof.
  intros Hr Hh.
  destruct (remove_entry_ring h c p a q Hr Hh) as (h' & e & He & Hrm & Hr' & Hd & Ha).
  exists (Mem h' (Cache (size_sub (c_size c) (e_size e)) (head (p ++ q)))), e.
  split; [done|]. split; [done|]. split; [by apply entries_ring|]. done.
Qed.

Lemma remove_entry_unlinks_one_node_witness :
  ∃ m', remove_entry (s_mem two_keys) 1%positive = Some m' ∧
    entries m' = [2%positive].
Proof.
  assert (reachable two_keys) as Hreach.
  { apply (run_init_reachable
             [Insert "k1" (bytes_of "one") 3; Insert "k2" (bytes_of "two") 3]).
    vm_compute. reflexivity. }
  apply reachable_inv in Hreach. destruct Hreach as [Hr Hh _ _ _ _ _ _].
  destruct (remove_entry_unlinks_one_node (heap (s_mem two_keys))
              (cache (s_mem two_keys)) [2%positive] [] 1%positive)
    as (m' & e & _ & H1 & H2 & _).
  - exact Hr.
  - exact Hh.
  - exists m'. split; [exact H1|exact H2].
Defined.

(** X8: on any well-formed circular list, [insert_front] of an
    allocated node that is not in the list makes it the head in front of
    the old nodes, which keep their order; the list is well formed again,
    [cache->size] goes up by the size of the node (modulo 2^64), and no key,
    value, size or reference count changes. *)
Theorem insert_front_links_at_head
    (h : gmap addr entry_t) (c : _cache_t) (l : list addr) (a : addr)
    (e : entry_t) :
  ring h l → c_head c = head l → a ∉ l → h !! a = Some e →
  ∃ m', insert_front (Mem h c) a = Some m' ∧
    entries m' = a :: l ∧ ring (heap m') (a :: l) ∧
    c_head (cache m') = Some a ∧
    c_size (cache m') = size_add (c_size c) (e_size e) ∧
    same_data h (heap m').
Proof.
  intros Hr Hh Hna He.
  destruct (insert_front_ring h c l a e Hr Hh Hna He) as (h' & Hins & Hr' & Hd).
  eexists. split; [exact Hins|]. split; [by apply entries_ring|]. done.
Qed.

Lemma insert_front_links_at_head_witness :
  ∃ m', insert_front
          (Mem (<[3%positive := Entry "k3" [] 0 None None 1]>
                  (heap (s_mem two_keys))) (cache (s_mem two_keys)))
          3%positive = Some m' ∧
    entries m' = [3%positive; 2%positive; 1%positive].
Proof.
  assert (reachable two_keys) as Hreach.
  { apply (run_init_reachable
             [Insert "k1" (bytes_of "one") 3; Insert "k2" (bytes_of "two") 3]).
    vm_compute. reflexivity. }
  apply reachable_inv in Hreach. destruct Hreach as [Hr Hh _ _ _ _ _ _].
  destruct (insert_front_links_at_head
              (<[3%positive := Entry "k3" [] 0 None None 1]>
                 (heap (s_mem two_keys)))
              (cache (s_mem two_keys)) [2%positive; 1%positive] 3%positive
              (Entry "k3" [] 0 None None 1))
    as (m' & H1 & H2 & _).
  - eapply ring_frame; [exact Hr|].
    intros a e Ha He. exists e. split; [|done].
    rewrite lookup_insert_ne; [exact He|].
    intros <-. vm_compute in He. discriminate.
  - exact Hh.
  - intros Hin. apply list_elem_of_In in Hin. simpl in Hin.
    destruct Hin as [?|[?|[]]]; discriminate.
  - apply lookup_insert_eq.
  - exists m'. split; [exact H1|exact H2].
Defined.

(** X19: in every reachable state, [evict_entry] of the last entry of
    the list (the one that [cache_insert] evicts) takes it out of the list
    and lowers [cache->size] by its size, which then is again the sum of the
    sizes in the list; the entry is freed if no worker holds it and stays
    allocated otherwise; every other entry stays allocated with its key,
    bytes and size. *)
Theorem evict_entry_removes_the_least_recently_used
    (cs : list call) (s : sys) (l : list addr) (z : addr) :
  run init cs = Some s → entries (s_mem s) = l ++ [z] →
  ∃ m', evict_entry (s_mem s) z = Some m' ∧
    entries m' = l ∧
    c_size (cache m')
    = (c_size (cache (s_mem s)) - esize (heap (s_mem s)) z)%N ∧
    c_size (cache m') = held_total m' ∧
    (is_Some (heap m' !! z) ↔ 0 < held (s_handles s) z) ∧
    (∀ b e', heap m' !! b = Some e' →
       ∃ e, heap (s_mem s) !! b = Some e ∧ view e = view e') ∧
    (∀ b, b ∈ l → is_Some (heap m' !! b)).
Proof.
  intros Hrep%run_init_reachable%reachable_inv Hent. rewrite Hent in Hrep.
  destruct (evict_entry_ok _ _ _ _ _ Hrep) as (m' & Hev & Hrep' & Hshr & Hsz & Hz);
    [size_lia|].
  pose proof (rep_entries _ _ _ _ Hrep') as Hent'.
  exists m'. split; [done|]. split; [done|].
  destruct Hrep as [_ _ Hs _ _ _ _ _]. pose proof Hrep' as [Hr' _ Hs' _ _ _ _ _].
  split.
  { rewrite Hs', Hs, total_app. simpl.
    rewrite (total_ext (heap (s_mem s)) (heap m') l) by (intros; by apply Hsz).
    lia. }
  split; [unfold held_total; by rewrite Hent'|]. split; [done|].
  split; [done|]. intros b Hb. by eapply ring_alloc.
Qed.

Lemma evict_entry_removes_the_least_recently_used_witness :
  ∃ m', evict_entry (s_mem demo) 1%positive = Some m' ∧
    entries m' = [2%positive].
Proof.
  destruct (evict_entry_removes_the_least_recently_used demo_calls demo
              [2%positive] 1%positive) as (m' & H1 & H2 & _).
  - vm_compute. reflexivity.
  - vm_compute. reflexivity.
  - exists m'. split; [exact H1|exact H2].
Defined.

Section rewriter_inverse.
Implicit Types (p : parser_t) (hs : list header_t) (b : reqbuf).

Lemma snprintf_off b s b' :
  snprintf b s = Some b' →
  off b' = off b + String.length s ∧ off b < MAXLINE.
Proof.
  unfold snprintf. case_decide as Hfit; [|done]. intros [= <-]. simpl.
  split; [done|lia].
Qed.

Lemma copy_headers_off fuel p host_found out p' host_found' out' :
  copy_headers fuel p host_found out = Some (p', host_found', out') →
  off out' = off out
             + String.length (lines (passed_through (drop (p_cursor p) (p_headers p)))) ∧
  host_found' = host_found || has_host (drop (p_cursor p) (p_headers p)).
Proof.
  revert p host_found out. induction fuel as [|fuel IH]; intros p hf out; [done|].
  simpl. unfold parser_retrieve_next_header.
  destruct (p_headers p !! p_cursor p) as [h|] eqn:Hh.
  - rewrite (drop_S _ _ _ Hh).
    set (p1 := Parser (p_values p) (p_headers p) (S (p_cursor p))).
    change (drop (S (p_cursor p)) (p_headers p))
      with (drop (p_cursor p1) (p_headers p1)).
    unfold passed_through. rewrite filter_cons, has_host_cons.
    destruct (overridden (h_name h)) eqn:Hov.
    + rewrite decide_False by done. intros [-> ->]%IH.
      by rewrite (overridden_not_host _ Hov).
    + rewrite decide_True by done. rewrite lines_cons.
      destruct (snprintf out _) as [out1|] eqn:Hsn; [|done].
      cbn [mbind option_bind]. intros [-> ->]%IH.
      apply snprintf_off in Hsn as [-> _].
      unfold header_line, passed_through. rewrite !str_length_app.
      split; [lia|].
      destruct (streq (h_name h) "Host"), hf; done.
  - intros [= <- <- <-].
    rewrite (drop_ge (p_headers p)) by (by apply lookup_ge_None).
    simpl. by rewrite orb_false_r, Nat.add_0_r.
Qed.

Lemma override_headers_short : String.length override_headers + 1 < MAXLINE.
Proof. apply Nat.ltb_lt. vm_compute. reflexivity. Qed.

Lemma construct_new_request_length p info r :
  construct_new_request p info = Some r →
  String.length (request_message (i_uri info)
                   (rewritten_headers info (drop (p_cursor p) (p_headers p))))
  < MAXLINE.
Proof.
  unfold construct_new_request.
  destruct (snprintf _ _) as [out1|] eqn:H1; [|done]. cbn [mbind option_bind].
  destruct (copy_headers _ _ _ _) as [[[p' hf] out2]|] eqn:H2; [|done].
  cbn [mbind option_bind].
  destruct (if hf then Some out2 else _) as [out3|] eqn:H3; [|done].
  cbn [mbind option_bind].
  destruct (snprintf out3 _) as [out4|] eqn:H4; [|done]. intros _.
  apply snprintf_off in H1 as [Ho1 _]. cbn [off] in Ho1.
  apply copy_headers_off in H2 as [Ho2 Hhf]. simpl in Hhf.
  assert (off out3 + String.length override_headers + 1 ≤ MAXLINE) as Hlast.
  { unfold snprintf in H4. case_decide as Hfit; [|done].
    pose proof override_headers_short.
    rewrite Nat.min_l in Hfit by lia. done. }
  assert (String.length override_headers
          = String.length
              (lines [ Header "Connection" "close";
                       Header "Proxy-Connection" "close";
                       Header "User-Agent" header_user_agent ])
            + String.length CRLF) as Hov
    by (rewrite <- override_headers_lines; apply str_length_app).
  unfold request_message, rewritten_headers.
  rewrite !lines_app, !str_length_app in *.
  unfold synthesized_host. rewrite <- Hhf.
  destruct hf.
  - injection H3 as <-. change (String.length (lines [])) with 0. lia.
  - apply snprintf_off in H3 as [Ho3 _].
    assert (String.length (lines [Header "Host" (i_host info +:+ ":" +:+ i_port info)])
            = String.length ("Host: " +:+ i_host info +:+ ":" +:+ i_port info +:+ CRLF))
      as ->.
    { unfold lines, header_line. simpl. by rewrite !str_app_assoc, str_app_nil_r. }
    rewrite !str_length_app in *. lia.
Qed.

End rewriter_inverse.

(** X9: [construct_new_request] stays within [new_req] exactly when
    the rewritten request with its terminating NUL fits in [MAXLINE] bytes;
    whenever it stays within the buffer it returns [true] and the buffer
    holds the whole rewritten request (nothing is truncated). *)
Theorem rewriter_overruns_exactly_when_too_long (p : parser_t) (info : http_info) :
  (is_Some (construct_new_request p info) ↔
   String.length (request_message (i_uri info)
                    (rewritten_headers info (drop (p_cursor p) (p_headers p))))
   < MAXLINE) ∧
  ∀ b out p', construct_new_request p info = Some (b, out, p') →
    b = true ∧
    out = request_message (i_uri info)
            (rewritten_headers info (drop (p_cursor p) (p_headers p))) ∧
    String.length out < MAXLINE.
Proof.
  split.
  - split.
    + intros [r Hr]. by eapply construct_new_request_length.
    + intros Hfit. destruct (construct_new_request_fits p info Hfit) as (p' & ->).
      eauto.
  - intros b out p' Hc.
    pose proof (construct_new_request_length _ _ _ Hc) as Hfit.
    destruct (construct_new_request_fits p info Hfit) as (p'' & Hc').
    rewrite Hc in Hc'. by injection Hc' as -> -> _.
Qed.

Section forwarder_failures.
Implicit Types (w : world) (bs buf : list byte).

Lemma forward_loop_safe fuel buf cs w :
  length (origin_bytes w) < fuel →
  (cs + N.of_nat (length (origin_bytes w)) < SIZE_MOD)%N →
  ∃ r w' chunks,
    forward_loop fuel buf cs w = Some (r, w') ∧
    log w' = log w ++ (Wrote ClientFd <$> chunks) ∧
    g_cache w' = g_cache w ∧
    mjoin chunks `prefix_of` origin_bytes w ∧
    match r with
    | Some (buf', cs') =>
        mjoin chunks = origin_bytes w ∧
        cs' = (cs + N.of_nat (length (origin_bytes w)))%N ∧
        origin_end w = AtEOF ∧
        can_take w ClientFd (length (origin_bytes w)) ∧
        (length (origin_bytes w) ≤ N.to_nat MAX_OBJECT_SIZE →
         buf' = origin_bytes w ++ drop (length (origin_bytes w)) buf)
    | None =>
        ¬ (origin_end w = AtEOF ∧
           can_take w ClientFd (length (origin_bytes w)))
    end.
Proof.
  revert buf cs w. induction fuel as [|fuel IH]; intros buf cs w Hf Hs; [lia|].
  destruct w as [cl ce ob oe rm co gc lg].
  cbn [origin_bytes origin_end room log g_cache] in *.
  cbn [forward_loop].
  assert (0 < N.to_nat MAX_OBJECT_SIZE) as Hpos
    by (rewrite MAX_OBJECT_SIZE_eq; lia).
  unfold bind at 1. unfold rio_readnb. cbn [origin_bytes origin_end].
  remember (N.to_nat MAX_OBJECT_SIZE) as n eqn:Hn.
  unfold can_take. cbn [room].
  (* one chunk is written and the loop goes on with the rest *)
  assert (∀ chunk rest,
    chunk ≠ [] → length rest < fuel → ob = chunk ++ rest →
    (length ob ≤ n → rest = []) →
    ∃ r w' chunks,
      (if decide (length chunk = 0) then ret (Some (buf, cs))
       else bind (rio_writen ClientFd
                    (take (length chunk) (chunk ++ drop (length chunk) buf)))
              (λ ok, if negb ok then ret None
                     else forward_loop fuel (chunk ++ drop (length chunk) buf)
                            (size_add cs (N.of_nat (length chunk)))))
        (World cl ce rest oe rm co gc lg) = Some (r, w') ∧
      log w' = lg ++ (Wrote ClientFd <$> chunks) ∧
      g_cache w' = gc ∧
      mjoin chunks `prefix_of` ob ∧
      match r with
      | Some (buf', cs') =>
          mjoin chunks = ob ∧ cs' = (cs + N.of_nat (length ob))%N ∧
          oe = AtEOF ∧
          match rm ClientFd with None => True | Some r => length ob ≤ r end ∧
          (length ob ≤ n → buf' = ob ++ drop (length ob) buf)
      | None =>
          ¬ (oe = AtEOF ∧
             match rm ClientFd with None => True | Some r => length ob ≤ r end)
      end) as Hstep.
  { intros chunk rest Hne Hrest -> Hsingle. rewrite length_app in *.
    rewrite decide_False by (by destruct chunk).
    rewrite take_app_length. unfold bind at 1, rio_writen. cbn [room].
    assert (∀ rm',
      (match rm ClientFd with
       | None => True | Some r => length chunk + length rest ≤ r end ↔
       match rm' ClientFd with
       | None => True | Some r => length rest ≤ r end) →
      ∃ r w' chunks,
        forward_loop fuel (chunk ++ drop (length chunk) buf)
          (size_add cs (N.of_nat (length chunk)))
          (World cl ce rest oe rm' co gc (lg ++ [Wrote ClientFd chunk]))
        = Some (r, w') ∧
        log w' = lg ++ (Wrote ClientFd <$> chunks) ∧ g_cache w' = gc ∧
        mjoin chunks `prefix_of` chunk ++ rest ∧
        match r with
        | Some (buf', cs') =>
            mjoin chunks = chunk ++ rest ∧
            cs' = (cs + N.of_nat (length chunk + length rest))%N ∧
            oe = AtEOF ∧
            match rm ClientFd with
            | None => True | Some r => length chunk + length rest ≤ r end ∧
            (length chunk + length rest ≤ n →
             buf' = (chunk ++ rest) ++ drop (length chunk + length rest) buf)
        | None =>
            ¬ (oe = AtEOF ∧
               match rm ClientFd with
               | None => True | Some r => length chunk + length rest ≤ r end)
        end) as Hgo.
    { intros rm' Hrm.
      destruct (IH (chunk ++ drop (length chunk) buf)
                  (size_add cs (N.of_nat (length chunk)))
                  (World cl ce rest oe rm' co gc (lg ++ [Wrote ClientFd chunk])))
        as (r & w' & chunks & Hrun & Hlog & Hgc & Hpre & Hres).
      { done. }
      { cbn [origin_bytes]. rewrite size_add_small by lia. lia. }
      cbn [origin_bytes origin_end room log g_cache] in *.
      exists r, w', (chunk :: chunks). split; [done|]. split.
      { rewrite Hlog, <- app_assoc. done. }
      split; [done|]. split.
      { change (mjoin (chunk :: chunks)) with (chunk ++ mjoin chunks).
        by apply prefix_app. }
      unfold can_take in Hres. cbn [room] in Hres.
      destruct r as [[buf' cs']|].
      - destruct Hres as (Hj & -> & -> & Hroom & Hbuf). split.
        { change (mjoin (chunk :: chunks)) with (chunk ++ mjoin chunks).
          by rewrite Hj. }
        split; [rewrite size_add_small by lia; lia|]. split; [done|].
        split; [by apply Hrm|].
        intros Hle. rewrite (Hsingle Hle) in Hbuf |- *.
        cbn [length] in Hbuf. rewrite Hbuf by lia.
        by rewrite drop_0, app_nil_r, Nat.add_0_r.
      - intros [-> Hroom]. apply Hres. split; [done|]. by apply Hrm. }
    destruct (rm ClientFd) as [r|] eqn:Hroom.
    - case_decide as Hle.
      + cbn [negb]. unfold add_event, set_room.
        cbn [client_lines client_end origin_bytes origin_end room connect_ok
             g_cache log].
        apply Hgo. rewrite decide_True by done. lia.
      + cbn [negb]. unfold ret, add_event, set_room.
        cbn [client_lines client_end origin_bytes origin_end room connect_ok
             g_cache log].
        eexists None, _, [take r chunk]. split; [reflexivity|].
        cbn [log g_cache fmap list_fmap mjoin list_join].
        split; [done|]. split; [done|]. split.
        { rewrite app_nil_r. etrans; [apply prefix_take|]. by apply prefix_app_r. }
        intros [_ ?]. lia.
    - cbn [negb]. unfold add_event.
      cbn [client_lines client_end origin_bytes origin_end room connect_ok
           g_cache log].
      apply Hgo. by rewrite Hroom. }
  destruct (decide (n ≤ length ob)) as [Hle|Hgt].
  - cbn [set_origin_bytes client_lines client_end origin_bytes origin_end room
         connect_ok g_cache log].
    apply Hstep.
    + intros Ht. apply (f_equal length) in Ht. rewrite length_take in Ht.
      simpl in Ht. lia.
    + rewrite length_drop. lia.
    + by rewrite take_drop.
    + intros ?. apply drop_ge. lia.
  - destruct oe.
    + cbn [set_origin_bytes client_lines client_end origin_bytes origin_end room
           connect_ok g_cache log].
      destruct ob as [|b ob].
      * rewrite decide_True by done. unfold ret.
        eexists (Some (buf, cs)), _, []. split; [reflexivity|].
        cbn [log g_cache fmap list_fmap mjoin list_join length].
        split; [by rewrite app_nil_r|]. split; [done|]. split; [done|].
        split; [done|]. split; [lia|]. split; [done|].
        split; [destruct (rm ClientFd); [lia|done]|].
        intros _. by rewrite drop_0.
      * apply Hstep; [done|simpl in *; lia|by rewrite app_nil_r|done].
    + cbn [set_origin_bytes client_lines client_end origin_bytes origin_end room
           connect_ok g_cache log].
      unfold ret. eexists None, _, []. split; [reflexivity|].
      cbn [log g_cache fmap list_fmap mjoin list_join].
      split; [by rewrite app_nil_r|]. split; [done|].
      split; [apply prefix_nil|]. by intros [? _].
Qed.

End forwarder_failures.

Section forwarder_result.
Implicit Types (w : world) (hs : list handle).

Lemma written_other f g (chunks : list (list byte)) evs :
  f ≠ g → written f ((Wrote g <$> chunks) ++ evs) = written f evs.
Proof.
  intros Hfg. induction chunks as [|c chunks IH]; [done|].
  unfold written in *. cbn [fmap list_fmap app omap list_omap].
  by rewrite decide_False by done.
Qed.

Lemma forward_http_response_safe hs buf0 key w :
  reachable (Sys (g_cache w) hs) →
  (N.of_nat (length (origin_bytes w)) < SIZE_MOD)%N →
  let resp := origin_bytes w in
  let total := N.of_nat (length resp) in
  let buf := resp ++ drop (length resp) buf0 in
  ∃ b w' chunks ins,
    forward_http_response buf0 key w = Some (b, w') ∧
    log w' = log w ++ (Wrote ClientFd <$> chunks) ++ ins ∧
    mjoin chunks `prefix_of` resp ∧
    (b = true ↔ origin_end w = AtEOF ∧ can_take w ClientFd (length resp)) ∧
    (b = true → mjoin chunks = resp) ∧
    (if decide (b = true ∧ (0 < total ≤ MAX_OBJECT_SIZE)%N)
     then ins = [Inserted key buf total] ∧
          (fst <$> cache_insert (g_cache w) key buf total) = Some (g_cache w')
     else ins = [] ∧ g_cache w' = g_cache w) ∧
    reachable (Sys (g_cache w') hs).
Proof.
  intros Hreach Hlen resp total buf. subst resp total buf.
  destruct (forward_loop_safe (S (length (origin_bytes w))) buf0 0%N w)
    as (r & w1 & chunks & Hloop & Hlog & Hgc & Hpre & Hres); [lia|lia|].
  unfold forward_http_response. unfold bind at 1. rewrite Hloop.
  destruct r as [[buf cs]|].
  - destruct Hres as (Hj & -> & He & Hroom & Hbuf). rewrite N.add_0_l.
    case_decide as Hd.
    + rewrite Hbuf by lia.
      destruct (cache_insert_reachable hs (g_cache w) key
                  (origin_bytes w ++ drop (length (origin_bytes w)) buf0)
                  (N.of_nat (length (origin_bytes w))) Hreach)
        as (m' & a & Hins); [lia|].
      unfold bind, g_cache_insert. rewrite Hgc, Hins.
      cbn [mbind option_bind]. unfold ret.
      eexists true, _, chunks, [Inserted key _ _]. split; [reflexivity|].
      unfold add_event, set_g_cache. cbn [log g_cache].
      split; [by rewrite Hlog, <- app_assoc|]. split; [done|].
      split; [done|]. split; [done|]. split.
      * rewrite decide_True by (split; [done|lia]). done.
      * eapply (reach_call _ (Insert key _ _)); [exact Hreach|done|].
        simpl. rewrite Hins. done.
    + unfold ret. eexists true, _, chunks, []. split; [reflexivity|].
      split; [by rewrite app_nil_r|]. split; [done|]. split; [done|].
      split; [done|]. split; [|by rewrite Hgc].
      rewrite decide_False by (intros [_ ?]; apply Hd; lia). done.
  - unfold ret. eexists false, _, chunks, []. split; [reflexivity|].
    split; [by rewrite app_nil_r|]. split; [done|]. split; [done|].
    split; [done|]. split; [|by rewrite Hgc].
    rewrite decide_False by (by intros [? _]). done.
Qed.

End forwarder_result.

(** X10: for any origin (also one whose stream fails) and any client
    (also one that stops accepting bytes), [forward_http_response] returns;
    what it has written to the client is a prefix of what the origin sent,
    and nothing is written to the origin; it returns [true] exactly when the
    origin's stream ended with end of file and the client took every byte,
    and then the client has the whole response; when it returns [false]
    nothing is inserted into the cache; the cache stays in a reachable
    state. *)
Theorem forwarder_sends_a_prefix_and_caches_only_on_success
    (w : world) (hs : list handle) (buf0 : list byte) (key : string) :
  reachable (Sys (g_cache w) hs) →
  (N.of_nat (length (origin_bytes w)) < SIZE_MOD)%N →
  ∃ b w', forward_http_response buf0 key w = Some (b, w') ∧
    written ClientFd (events_since w w') `prefix_of` origin_bytes w ∧
    written HostFd (events_since w w') = [] ∧
    (b = true ↔
     origin_end w = AtEOF ∧ can_take w ClientFd (length (origin_bytes w))) ∧
    (b = true → written ClientFd (events_since w w') = origin_bytes w) ∧
    (b = false →
     inserts (events_since w w') = [] ∧ g_cache w' = g_cache w) ∧
    reachable (Sys (g_cache w') hs).
Proof.
  intros Hreach Hlen.
  destruct (forward_http_response_safe hs buf0 key w Hreach Hlen)
    as (b & w' & chunks & ins & Hrun & Hlog & Hpre & Hb & Hall & Hins & Hre).
  exists b, w'. split; [done|].
  rewrite (events_since_app _ _ _ Hlog).
  rewrite written_wrote, written_other, inserts_wrote by done.
  assert (written ClientFd ins = [] ∧ written HostFd ins = []) as [-> ->].
  { case_decide; destruct Hins as [-> _]; done. }
  rewrite app_nil_r. split; [done|]. split; [done|]. split; [done|].
  split; [done|]. split; [|done].
  intros ->. rewrite decide_False in Hins by (by intros [? _]).
  by destruct Hins as [-> ?].
Qed.

Lemma forwarder_sends_a_prefix_and_caches_only_on_success_witness :
  ∃ b w',
    forward_http_response [] "http://h/c"
      (World [] AtEOF (bytes_of "HTTP/1.0 200 OK") ReadFails
             (λ _, Some 4) true (s_mem demo) []) = Some (b, w') ∧
    written ClientFd
      (events_since
         (World [] AtEOF (bytes_of "HTTP/1.0 200 OK") ReadFails
                (λ _, Some 4) true (s_mem demo) []) w')
    `prefix_of` bytes_of "HTTP/1.0 200 OK".
Proof.
  destruct (forwarder_sends_a_prefix_and_caches_only_on_success
              (World [] AtEOF (bytes_of "HTTP/1.0 200 OK") ReadFails
                     (λ _, Some 4) true (s_mem demo) [])
              (s_handles demo) [] "http://h/c") as (b & w' & H1 & H2 & _).
  - apply (run_init_reachable demo_calls). vm_compute. reflexivity.
  - vm_compute. reflexivity.
  - exists b, w'. split; [exact H1|exact H2].
Defined.

Section error_pages.
Implicit Types (w : world) (f g : fd).

Lemma length_bytes_of (s : string) : length (bytes_of s) = String.length s.
Proof. induction s as [|c s IH]; [done|]. simpl. by rewrite <- IH. Qed.

Lemma events_since_refl w : events_since w w = [].
Proof. unfold events_since. by rewrite drop_all. Qed.

Lemma written_cons f g bs evs :
  written f (Wrote g bs :: evs)
  = (if decide (g = f) then bs else []) ++ written f evs.
Proof. unfold written. cbn [omap list_omap]. by case_decide. Qed.

Lemma written_nil f : written f [] = [].
Proof. done. Qed.

Lemma written_single f g bs :
  written f [Wrote g bs] = if decide (g = f) then bs else [].
Proof. rewrite written_cons, written_nil. apply app_nil_r. Qed.

End error_pages.

(** X11: [clienterror] always returns and touches neither the cache
    nor the request; it writes nothing when the body does not fit [MAXBUF] or
    the headers do not fit [MAXLINE]; otherwise it writes to [fd] only, a
    prefix of the headers followed by the body (the headers carry the length
    of the body as [Content-Length]): both in full when the client takes
    them, and only what the client took of the headers, without the body,
    when the write of the headers fails. *)
Theorem clienterror_sends_headers_then_body
    (f : fd) (errnum shortmsg longmsg : string) (w : world) :
  let body := clienterror_body errnum shortmsg longmsg in
  let hdr := clienterror_headers errnum shortmsg (String.length body) in
  ∃ w', clienterror f errnum shortmsg longmsg w = Some (tt, w') ∧
    g_cache w' = g_cache w ∧ client_lines w' = client_lines w ∧
    (∀ g, g ≠ f → written g (events_since w w') = []) ∧
    written f (events_since w w') `prefix_of` bytes_of hdr ++ bytes_of body ∧
    (MAXBUF ≤ String.length body ∨ MAXLINE ≤ String.length hdr →
     events_since w w' = []) ∧
    (String.length body < MAXBUF → String.length hdr < MAXLINE →
     can_take w f (String.length hdr + String.length body) →
     events_since w w' = [Wrote f (bytes_of hdr); Wrote f (bytes_of body)]) ∧
    (String.length body < MAXBUF → String.length hdr < MAXLINE →
     ¬ can_take w f (String.length hdr) →
     ∃ r, room w f = Some r ∧
       events_since w w' = [Wrote f (take r (bytes_of hdr))]).
Proof.
  intros body hdr. unfold clienterror. fold body. fold hdr.
  destruct w as [cl ce ob oe rm co gc lg].
  case_decide as Hb.
  { unfold ret. eexists. split; [reflexivity|].
    rewrite events_since_refl. split; [done|]. split; [done|].
    split; [done|]. split; [apply prefix_nil|]. split; [done|].
    split; intros; lia. }
  case_decide as Hh.
  { unfold ret. eexists. split; [reflexivity|].
    rewrite events_since_refl. split; [done|]. split; [done|].
    split; [done|]. split; [apply prefix_nil|]. split; [done|].
    split; intros; lia. }
  unfold bind at 1. unfold rio_writen at 1. unfold can_take. cbn [room].
  destruct (rm f) as [r|] eqn:Hroom.
  - case_decide as Hfit1.
    + cbn [negb]. unfold bind, rio_writen, add_event, set_room.
      cbn [client_lines client_end origin_bytes origin_end room connect_ok
           g_cache log].
      rewrite decide_True by done.
      rewrite length_bytes_of in Hfit1.
      case_decide as Hfit2; unfold ret, add_event, set_room;
        cbn [client_lines client_end origin_bytes origin_end room connect_ok
             g_cache log];
        (eexists; split; [reflexivity|]);
        (erewrite events_since_app by (cbn [log]; rewrite <- app_assoc; reflexivity));
        cbn [app];
        (split; [done|]); (split; [done|]).
      * rewrite !length_bytes_of in Hfit2.
        split.
        { intros g Hg. rewrite !written_cons, written_nil.
          by rewrite !decide_False by done. }
        split.
        { rewrite !written_cons, written_nil, !decide_True by done.
          by rewrite app_nil_r. }
        split; [intros [?|?]; lia|]. split; [done|]. intros; lia.
      * rewrite !length_bytes_of in Hfit2.
        split.
        { intros g Hg. rewrite !written_cons, written_nil.
          by rewrite !decide_False by done. }
        split.
        { rewrite !written_cons, written_nil, !decide_True by done.
          rewrite app_nil_r. apply prefix_app, prefix_take. }
        split; [intros [?|?]; lia|]. split; intros; lia.
    + cbn [negb]. unfold ret, add_event, set_room.
      cbn [client_lines client_end origin_bytes origin_end room connect_ok
           g_cache log].
      rewrite length_bytes_of in Hfit1.
      eexists. split; [reflexivity|].
      erewrite events_since_app by (cbn [log]; reflexivity).
      split; [done|]. split; [done|]. split.
      { intros g Hg. rewrite written_single. by rewrite decide_False. }
      split.
      { rewrite written_single, decide_True by done.
        etrans; [apply prefix_take|]. by apply prefix_app_r. }
      split; [intros [?|?]; lia|]. split; [intros; lia|].
      intros _ _ _. by exists r.
  - cbn [negb]. unfold bind, rio_writen, add_event.
    cbn [client_lines client_end origin_bytes origin_end room connect_ok
         g_cache log].
    rewrite Hroom. unfold ret, add_event.
    cbn [client_lines client_end origin_bytes origin_end room connect_ok
         g_cache log].
    eexists. split; [reflexivity|].
    erewrite events_since_app by (cbn [log]; rewrite <- app_assoc; reflexivity).
    cbn [app].
    split; [done|]. split; [done|]. split.
    { intros g Hg. rewrite !written_cons, written_nil.
          by rewrite !decide_False by done. }
    split.
    { rewrite !written_cons, written_nil, !decide_True by done.
      by rewrite app_nil_r. }
    split; [intros [?|?]; lia|]. split; [done|]. intros _ _ []. done.
Qed.

Section serving.
Implicit Types (w : world) (p : parser_t) (hs : list handle).

Lemma serve_unfold lex buf0 :
  serve lex buf0
  = (do _ <- (do (p, r) <- parse_http_request lex ClientFd parser_new;
              match r with
              | None => ret tt
              | Some info => serve_request buf0 p info
              end);
     close ClientFd).
Proof. reflexivity. Qed.

Lemma read_request_lines_only_reads lex fuel p n w r w1 :
  read_request_lines lex fuel p n w = Some (r, w1) →
  w1 = set_client_lines (client_lines w1) w.
Proof.
  revert p n w. induction fuel as [|fuel IH]; intros p n w; [done|].
  cbn [read_request_lines]. unfold bind at 1, rio_readlineb.
  destruct w as [cl ce ob oe rm co gc lg]. cbn [client_lines client_end].
  destruct cl as [|line cl].
  - destruct ce; [|by intros [= <- <-]].
    rewrite decide_True by done. by intros [= <- <-].
  - cbn [set_client_lines client_lines client_end origin_bytes origin_end room
         connect_ok g_cache log].
    case_decide; [by intros [= <- <-]|].
    destruct (streq line CRLF); [by intros [= <- <-]|].
    destruct (parser_parse_line lex p line) as [p' []].
    + intros Hrec. by apply IH in Hrec.
    + intros Hrec. by apply IH in Hrec.
    + by intros [= <- <-].
Qed.

Lemma serve_accepted lex buf0 w p n w1 info :
  read_request_lines lex (S (length (client_lines w))) parser_new 0 w
  = Some (Some (p, n), w1) →
  n ≠ 0 → validate p = inr info →
  serve lex buf0 w
  = bind (serve_request buf0 p info) (λ _, close ClientFd) w1.
Proof.
  intros Hread Hn Hv. rewrite serve_unfold. unfold bind at 1. unfold bind at 1.
  rewrite (parse_http_request_validate _ _ _ _ _ Hread Hn), Hv. reflexivity.
Qed.

Lemma rio_writen_spec f bs w :
  ∃ ok w' sent,
    rio_writen f bs w = Some (ok, w') ∧
    log w' = log w ++ [Wrote f sent] ∧
    sent `prefix_of` bs ∧
    (ok = true ↔ can_take w f (length bs)) ∧
    (ok = true → sent = bs) ∧
    g_cache w' = g_cache w ∧ origin_bytes w' = origin_bytes w ∧
    origin_end w' = origin_end w ∧ connect_ok w' = connect_ok w ∧
    (∀ g, g ≠ f → room w' g = room w g).
Proof.
  unfold rio_writen, can_take. destruct (room w f) as [r|] eqn:Hroom.
  - case_decide as Hle.
    + eexists true, _, bs. split; [reflexivity|]. unfold add_event, set_room.
      cbn [log g_cache origin_bytes origin_end connect_ok room].
      repeat (split; [done|]). intros g Hg. by rewrite decide_False.
    + eexists false, _, (take r bs). split; [reflexivity|].
      unfold add_event, set_room.
      cbn [log g_cache origin_bytes origin_end connect_ok room].
      split; [done|]. split; [apply prefix_take|]. split; [done|].
      repeat (split; [done|]). intros g Hg. by rewrite decide_False.
  - eexists true, _, bs. split; [reflexivity|]. unfold add_event.
    cbn [log g_cache origin_bytes origin_end connect_ok room].
    repeat (split; [done|]). done.
Qed.

Lemma serve_request_hit hs buf0 p info w a :
  reachable (Sys (g_cache w) hs) →
  (Z.of_nat (length hs) < INT_MAX - 1)%Z →
  find (g_cache w) (i_uri info) = Some (Some a) →
  ∃ w' e sent,
    heap (g_cache w) !! a = Some e ∧ e_key e = i_uri info ∧
    serve_request buf0 p info w = Some (tt, w') ∧
    log w' = log w ++ [Wrote ClientFd sent] ∧
    sent `prefix_of` take (N.to_nat (e_size e)) (e_val e) ∧
    (can_take w ClientFd (length (take (N.to_nat (e_size e)) (e_val e))) →
     sent = take (N.to_nat (e_size e)) (e_val e)) ∧
    entries (g_cache w') = promote a (entries (g_cache w)) ∧
    (∀ b, payload <$> heap (g_cache w') !! b
          = payload <$> heap (g_cache w) !! b) ∧
    reachable (Sys (g_cache w') hs).
Proof.
  intros Hreach Hal Hfind.
  destruct (cache_get_then_release (Sys (g_cache w) hs) (i_uri info) a)
    as (m1 & m2 & e & e1 & He & Hk & Hget & He1 & Hv & Hrel & Hent & _ & _ & Hpay & Hre);
    [done..|].
  cbn [s_mem s_handles] in *.
  unfold serve_request. unfold bind at 1. unfold g_cache_get.
  rewrite Hget. cbn [mbind option_bind]. rewrite He1. cbn [mbind option_bind].
  assert (e_size e1 = e_size e ∧ e_val e1 = e_val e) as [-> ->].
  { unfold view in Hv. by injection Hv. }
  destruct (rio_writen_spec ClientFd (take (N.to_nat (e_size e)) (e_val e))
              (set_g_cache m1 w))
    as (ok & w2 & sent & Hw & Hlog & Hpre & Hok & Hsent & Hgc & _).
  unfold bind at 1. rewrite Hw. unfold g_cache_entry_release.
  rewrite Hgc. cbn [g_cache set_g_cache]. rewrite Hrel. cbn [mbind option_bind].
  eexists _, e, sent. split; [done|]. split; [done|]. split; [reflexivity|].
  cbn [log set_g_cache g_cache]. split; [by rewrite Hlog|]. split; [done|].
  split; [|done]. intros Hc. by apply Hsent, Hok.
Qed.

Lemma serve_request_miss hs buf0 p info w req p' :
  reachable (Sys (g_cache w) hs) →
  find (g_cache w) (i_uri info) = Some None →
  construct_new_request p info = Some (true, req, p') →
  (N.of_nat (length (origin_bytes w)) < SIZE_MOD)%N →
  let resp := origin_bytes w in
  let total := N.of_nat (length resp) in
  let buf := resp ++ drop (length resp) buf0 in
  ∃ w' evs,
    serve_request buf0 p info w = Some (tt, w') ∧
    log w' = log w ++ evs ∧
    reachable (Sys (g_cache w') hs) ∧
    (connect_ok w = false → evs = [] ∧ g_cache w' = g_cache w) ∧
    (connect_ok w = true →
     ∃ sent rest,
       evs = Connected (i_host info) (i_port info) :: Wrote HostFd sent :: rest ∧
       sent `prefix_of` bytes_of req ∧
       (¬ can_take w HostFd (length (bytes_of req)) →
        rest = [] ∧ g_cache w' = g_cache w) ∧
       (can_take w HostFd (length (bytes_of req)) →
        sent = bytes_of req ∧
        ∃ b chunks ins,
          rest = (Wrote ClientFd <$> chunks) ++ ins ∧
          mjoin chunks `prefix_of` resp ∧
          (b = true ↔
           origin_end w = AtEOF ∧ can_take w ClientFd (length resp)) ∧
          (b = true → mjoin chunks = resp) ∧
          (if decide (b = true ∧ (0 < total ≤ MAX_OBJECT_SIZE)%N)
           then ins = [Inserted (i_uri info) buf total] ∧
                (fst <$> cache_insert (g_cache w) (i_uri info) buf total)
                = Some (g_cache w')
           else ins = [] ∧ g_cache w' = g_cache w))).
Proof.
  intros Hreach Hfind Hreq Hlen resp total buf. subst resp total buf.
  unfold serve_request. unfold bind at 1. unfold g_cache_get, cache_get.
  rewrite Hfind. cbn [mbind option_bind]. rewrite Hreq.
  assert (set_g_cache (g_cache w) w = w) as -> by (by destruct w).
  unfold bind at 1. unfold open_clientfd.
  destruct (connect_ok w) eqn:Hco.
  - cbn [negb].
    destruct (rio_writen_spec HostFd (bytes_of req)
                (add_event (Connected (i_host info) (i_port info)) w))
      as (ok & w2 & sent & Hw & Hlog & Hpre & Hok & Hsent & Hgc & Hob & Hoe & _ & Hrm).
    unfold bind at 1. rewrite Hw.
    assert (can_take (add_event (Connected (i_host info) (i_port info)) w)
              HostFd (length (bytes_of req))
            ↔ can_take w HostFd (length (bytes_of req))) as Hct by done.
    rewrite Hct in Hok.
    cbn [log add_event g_cache origin_bytes origin_end room] in Hlog, Hgc, Hob, Hoe, Hrm.
    destruct ok.
    + cbn [negb].
      destruct (forward_http_response_safe hs buf0 (i_uri info) w2)
        as (b & w3 & chunks & ins & Hf & Hlog3 & Hpre3 & Hb & Hall & Hins & Hre3).
      { by rewrite Hgc. }
      { by rewrite Hob. }
      unfold bind at 1. rewrite Hf. unfold ret.
      rewrite Hob, Hoe, Hgc in *.
      assert (can_take w2 ClientFd (length (origin_bytes w))
              ↔ can_take w ClientFd (length (origin_bytes w))) as Hct2.
      { unfold can_take. by rewrite Hrm. }
      rewrite Hct2 in Hb.
      eexists _, _. split; [reflexivity|]. split.
      { rewrite Hlog3, Hlog, <- !app_assoc. reflexivity. }
      split; [done|]. split; [done|]. intros _.
      exists sent, ((Wrote ClientFd <$> chunks) ++ ins). split; [done|].
      split; [done|]. split; [intros Hn; destruct Hn; by apply Hok|].
      intros _. split; [by apply Hsent|].
      by exists b, chunks, ins.
    + cbn [negb]. unfold ret. eexists _, _. split; [reflexivity|]. split.
      { rewrite Hlog, <- !app_assoc. reflexivity. }
      split; [by rewrite Hgc|]. split; [done|]. intros _.
      exists sent, []. split; [done|]. split; [done|]. split; [done|].
      intros Hc. apply Hok in Hc. done.
  - cbn [negb]. unfold ret. eexists _, []. split; [reflexivity|].
    split; [by rewrite app_nil_r|]. split; [done|]. split; [done|]. done.
Qed.

End serving.

Section exchanges.
Implicit Types (w : world) (p : parser_t) (hs : list handle).




End exchanges.





Section unreachable.
Implicit Types (w : world) (p : parser_t) (hs : list handle).

Lemma serve_request_unreachable buf0 p info w req p' :
  find (g_cache w) (i_uri info) = Some None →
  construct_new_request p info = Some (true, req, p') →
  connect_ok w = false ∨ ¬ can_take w HostFd (length (bytes_of req)) →
  ∃ w' evs,
    serve_request buf0 p info w = Some (tt, w') ∧
    log w' = log w ++ evs ∧ g_cache w' = g_cache w ∧
    (connect_ok w = false → evs = []) ∧
    (connect_ok w = true →
     ∃ sent, evs = [Connected (i_host info) (i_port info); Wrote HostFd sent] ∧
       sent `prefix_of` bytes_of req ∧ sent ≠ bytes_of req).
Proof.
  intros Hfind Hreq Hun.
  unfold serve_request. unfold bind at 1. unfold g_cache_get, cache_get.
  rewrite Hfind. cbn [mbind option_bind]. rewrite Hreq.
  assert (set_g_cache (g_cache w) w = w) as -> by (by destruct w).
  unfold bind at 1. unfold open_clientfd.
  destruct (connect_ok w) eqn:Hco.
  - destruct Hun as [?|Hun]; [done|]. cbn [negb].
    unfold bind at 1. unfold rio_writen, can_take in *. unfold add_event at 1.
    cbn [room].
    destruct (room w HostFd) as [r|] eqn:Hroom; [|done].
    rewrite decide_False by done. cbn [negb]. unfold ret, add_event, set_room.
    cbn [log]. eexists _, _. split; [reflexivity|]. cbn [log g_cache].
    split; [by rewrite <- app_assoc|]. split; [done|]. split; [done|].
    intros _. eexists. split; [done|]. split; [apply prefix_take|].
    intros Heq. apply (f_equal length) in Heq. rewrite length_take in Heq. lia.
  - cbn [negb]. unfold ret. eexists _, []. split; [reflexivity|].
    split; [by rewrite app_nil_r|]. done.
Qed.

End unreachable.

(** X14: when the URI is not cached and the origin cannot be connected
    to, or does not take the whole rewritten request, [serve] closes the
    client connection without having written a single byte to the client
    (no error page is sent), and the cache is unchanged. *)
Theorem unreachable_origin_gets_no_reply
    (lex : string → parsed_line) (buf0 : list byte) (w : world)
    (w1 : world) (p : parser_t) (n : nat) (info : http_info) :
  read_request_lines lex (S (length (client_lines w))) parser_new 0 w
  = Some (Some (p, n), w1) →
  n ≠ 0 → validate p = inr info →
  find (g_cache w) (i_uri info) = Some None →
  String.length (request_message (i_uri info)
                   (rewritten_headers info (drop (p_cursor p) (p_headers p))))
  < MAXLINE →
  let request := request_message (i_uri info)
                   (rewritten_headers info (drop (p_cursor p) (p_headers p))) in
  connect_ok w = false ∨ ¬ can_take w HostFd (String.length request) →
  ∃ w', serve lex buf0 w = Some (tt, w') ∧
    written ClientFd (events_since w w') = [] ∧
    g_cache w' = g_cache w ∧
    (connect_ok w = false → events_since w w' = [Closed ClientFd]) ∧
    (connect_ok w = true →
     ∃ sent,
       events_since w w'
       = [ Connected (i_host info) (i_port info); Wrote HostFd sent;
           Closed ClientFd ] ∧
       sent `prefix_of` bytes_of request ∧ sent ≠ bytes_of request).
Proof.
  intros Hread Hn Hv Hfind Hfit request Hun. subst request.
  pose proof (read_request_lines_only_reads _ _ _ _ _ _ _ Hread) as Hw1.
  assert (g_cache w1 = g_cache w ∧ log w1 = log w ∧ room w1 = room w ∧
          connect_ok w1 = connect_ok w)
    as (Hgc & Hlog & Hroom & Hco1) by (by rewrite Hw1).
  destruct (construct_new_request_fits p info Hfit) as (p' & Hreq).
  edestruct (serve_request_unreachable buf0 p info w1)
    as (w2 & evs & Hrun & Hlog2 & Hgc2 & Hoff & Hon).
  { by rewrite Hgc. }
  { exact Hreq. }
  { rewrite Hco1, length_bytes_of. unfold can_take in *. by rewrite Hroom. }
  rewrite Hco1 in Hoff, Hon.
  rewrite (serve_accepted _ _ _ _ _ _ _ Hread Hn Hv).
  unfold bind. rewrite Hrun. unfold close.
  eexists. split; [reflexivity|].
  erewrite events_since_app
    by (unfold add_event; cbn [log]; rewrite Hlog2, Hlog, <- app_assoc; reflexivity).
  unfold add_event. cbn [g_cache]. rewrite Hgc2, Hgc.
  split.
  { destruct (connect_ok w).
    - destruct Hon as (sent & -> & _); [done|]. reflexivity.
    - by rewrite Hoff. }
  split; [done|]. split.
  - intros Hc. by rewrite Hoff.
  - intros Hc. destruct (Hon Hc) as (sent & -> & ? & ?). by exists sent.
Qed.

Lemma unreachable_origin_gets_no_reply_witness :
  ∃ w',
    serve get_lex [] (exchange_world "GET http://h/c HTTP/1.1" (bytes_of "OK") false)
    = Some (tt, w') ∧
    written ClientFd
      (events_since
         (exchange_world "GET http://h/c HTTP/1.1" (bytes_of "OK") false) w')
    = [].
Proof.
  edestruct (unreachable_origin_gets_no_reply get_lex []
               (exchange_world "GET http://h/c HTTP/1.1" (bytes_of "OK") false))
    as (w' & H1 & H2 & _).
  - vm_compute. reflexivity.
  - vm_compute. discriminate.
  - vm_compute. reflexivity.
  - vm_compute. reflexivity.
  - apply Nat.ltb_lt. vm_compute. reflexivity.
  - left. reflexivity.
  - exists w'. split; [exact H1|exact H2].
Defined.

Section totality.
Implicit Types (w : world) (p : parser_t) (hs : list handle).

Lemma read_request_lines_total lex fuel p n w :
  length (client_lines w) < fuel →
  ∃ r w1, read_request_lines lex fuel p n w = Some (r, w1).
Proof.
  revert p n w. induction fuel as [|fuel IH]; intros p n w Hf; [lia|].
  cbn [read_request_lines]. unfold bind at 1, rio_readlineb.
  destruct w as [cl ce ob oe rm co gc lg]. cbn [client_lines client_end] in *.
  destruct cl as [|line cl].
  - destruct ce; [|unfold ret; eauto].
    rewrite decide_True by done. unfold ret. eauto.
  - cbn [set_client_lines client_lines client_end origin_bytes origin_end room
         connect_ok g_cache log].
    case_decide; [unfold ret; eauto|].
    destruct (streq line CRLF); [unfold ret; eauto|].
    destruct (parser_parse_line lex p line) as [p' []].
    + apply IH. simpl in *. lia.
    + apply IH. simpl in *. lia.
    + unfold ret. eauto.
Qed.

Lemma clienterror_frame f errnum shortmsg longmsg w :
  ∃ w' evs, clienterror f errnum shortmsg longmsg w = Some (tt, w') ∧
    log w' = log w ++ evs ∧ Forall (λ e, is_closed e = false) evs ∧
    g_cache w' = g_cache w ∧ origin_bytes w' = origin_bytes w.
Proof.
  unfold clienterror.
  case_decide.
  { unfold ret. eexists _, []. split; [reflexivity|].
    by rewrite app_nil_r. }
  case_decide.
  { unfold ret. eexists _, []. split; [reflexivity|].
    by rewrite app_nil_r. }
  set (hdr := bytes_of _). set (body := bytes_of _).
  destruct (rio_writen_spec f hdr w)
    as (ok & w2 & sent & Hw & Hlog & _ & _ & _ & Hgc & Hob & _).
  unfold bind at 1. rewrite Hw. destruct ok; cbn [negb].
  - destruct (rio_writen_spec f body w2)
      as (ok2 & w3 & sent2 & Hw2 & Hlog2 & _ & _ & _ & Hgc2 & Hob2 & _).
    unfold bind. rewrite Hw2. unfold ret.
    eexists _, [Wrote f sent; Wrote f sent2]. split; [reflexivity|].
    split; [by rewrite Hlog2, Hlog, <- app_assoc|].
    split; [by repeat constructor|]. by rewrite Hgc2, Hob2.
  - unfold ret. eexists _, [Wrote f sent]. split; [reflexivity|].
    split; [done|]. split; [by repeat constructor|]. done.
Qed.

Lemma parse_http_request_total lex w :
  ∃ p r w1 evs,
    parse_http_request lex ClientFd parser_new w = Some ((p, r), w1) ∧
    log w1 = log w ++ evs ∧ Forall (λ e, is_closed e = false) evs ∧
    g_cache w1 = g_cache w ∧ origin_bytes w1 = origin_bytes w ∧
    match r with
    | Some info =>
        ∃ n, read_request_lines lex (S (length (client_lines w))) parser_new 0 w
             = Some (Some (p, n), w1) ∧
          n ≠ 0 ∧ validate p = inr info
    | None => True
    end.
Proof.
  destruct (read_request_lines_total lex (S (length (client_lines w)))
              parser_new 0 w) as (r & w0 & Hread); [lia|].
  pose proof (read_request_lines_only_reads _ _ _ _ _ _ _ Hread) as Hw0.
  assert (g_cache w0 = g_cache w ∧ log w0 = log w ∧
          origin_bytes w0 = origin_bytes w)
    as (Hgc & Hlog & Hob) by (by rewrite Hw0).
  destruct r as [[p n]|].
  - destruct (decide (n = 0)) as [->|Hn].
    + unfold parse_http_request. unfold bind at 1. rewrite Hread.
      rewrite decide_True by done. unfold ret.
      eexists p, None, w0, []. split; [reflexivity|].
      by rewrite app_nil_r, Hlog.
    + rewrite (parse_http_request_validate _ _ _ _ _ Hread Hn).
      destruct (validate p) as [[[errnum shortmsg] longmsg]|info] eqn:Hv.
      * destruct (clienterror_frame ClientFd errnum shortmsg longmsg w0)
          as (w1 & evs & Hce & Hlog1 & Hq & Hgc1 & Hob1).
        unfold bind. rewrite Hce. unfold ret.
        eexists p, None, w1, evs. split; [reflexivity|].
        split; [by rewrite Hlog1, Hlog|]. split; [done|].
        by rewrite Hgc1, Hob1.
      * eexists p, (Some info), w0, []. split; [reflexivity|].
        split; [by rewrite app_nil_r|]. split; [done|]. split; [done|].
        split; [done|]. by exists n.
  - unfold parse_http_request. unfold bind at 1. rewrite Hread. unfold ret.
    eexists parser_new, None, w0, []. split; [reflexivity|].
    by rewrite app_nil_r, Hlog.
Qed.

Lemma construct_new_request_true p info b req p' :
  construct_new_request p info = Some (b, req, p') → b = true.
Proof.
  unfold construct_new_request. intros H. simplify_option_eq.
  repeat case_match; simplify_option_eq; done.
Qed.

Lemma Forall_not_closed_writes (chunks : list (list byte)) :
  Forall (λ e, is_closed e = false) (Wrote ClientFd <$> chunks).
Proof. induction chunks; by constructor. Qed.

Lemma serve_request_total hs buf0 p info w :
  reachable (Sys (g_cache w) hs) →
  (Z.of_nat (length hs) < INT_MAX - 1)%Z →
  (N.of_nat (length (origin_bytes w)) < SIZE_MOD)%N →
  is_Some (construct_new_request p info) →
  ∃ w' evs, serve_request buf0 p info w = Some (tt, w') ∧
    log w' = log w ++ evs ∧ Forall (λ e, is_closed e = false) evs ∧
    reachable (Sys (g_cache w') hs).
Proof.
  intros Hreach Hal Hlen [[[b req] p'] Hreq].
  pose proof (construct_new_request_true _ _ _ _ _ Hreq) as ->.
  pose proof (reachable_inv _ Hreach) as Hrep. cbn [s_mem s_handles] in Hrep.
  pose proof (find_lookup_key _ _ _ _ (i_uri info) Hrep) as Hfind.
  destruct (lookup_key _ _ _) as [a|].
  - destruct (serve_request_hit hs buf0 p info w a Hreach Hal Hfind)
      as (w' & e & sent & _ & _ & Hrun & Hlog & _ & _ & _ & _ & Hre).
    exists w', [Wrote ClientFd sent]. split; [done|]. split; [done|].
    split; [by repeat constructor|done].
  - destruct (serve_request_miss hs buf0 p info w req p' Hreach Hfind Hreq Hlen)
      as (w' & evs & Hrun & Hlog & Hre & Hoff & Hon).
    exists w', evs. split; [done|]. split; [done|]. split; [|done].
    destruct (connect_ok w).
    + destruct (Hon eq_refl) as (sent & rest & -> & _ & Hno & Hyes).
      do 2 (constructor; [done|]).
      destruct (room w HostFd) as [r|] eqn:Hroom.
      * destruct (decide (length (bytes_of req) ≤ r)) as [Hle|Hgt].
        -- destruct Hyes as (_ & b & chunks & ins & -> & _ & _ & _ & Hins).
           { unfold can_take. by rewrite Hroom. }
           apply Forall_app. split; [apply Forall_not_closed_writes|].
           case_decide; destruct Hins as [-> _]; by repeat constructor.
        -- destruct Hno as [-> _]; [|done].
           unfold can_take. by rewrite Hroom.
      * destruct Hyes as (_ & b & chunks & ins & -> & _ & _ & _ & Hins).
        { unfold can_take. by rewrite Hroom. }
        apply Forall_app. split; [apply Forall_not_closed_writes|].
        case_decide; destruct Hins as [-> _]; by repeat constructor.
    + by destruct (Hoff eq_refl) as [-> _].
Qed.

End totality.

(** X15: for every client, origin and lexer, as long as the rewritten
    request fits the request buffer, [serve] returns; its last action is the
    closing of the client descriptor, nothing is closed before (the
    descriptor of the origin is never closed), and the cache is left in a
    reachable state with the same outstanding handles: the worker has
    released what it got. *)
Theorem serve_closes_the_client_once_and_keeps_the_cache_consistent
    (lex : string → parsed_line) (buf0 : list byte) (w : world)
    (hs : list handle) :
  reachable (Sys (g_cache w) hs) →
  (Z.of_nat (length hs) < INT_MAX - 1)%Z →
  (N.of_nat (length (origin_bytes w)) < SIZE_MOD)%N →
  (∀ p n w1 info,
     read_request_lines lex (S (length (client_lines w))) parser_new 0 w
     = Some (Some (p, n), w1) →
     validate p = inr info →
     String.length
       (request_message (i_uri info)
          (rewritten_headers info (drop (p_cursor p) (p_headers p))))
     < MAXLINE) →
  ∃ w' evs, serve lex buf0 w = Some (tt, w') ∧
    events_since w w' = evs ++ [Closed ClientFd] ∧
    Forall (λ e, is_closed e = false) evs ∧
    reachable (Sys (g_cache w') hs).
Proof.
  intros Hreach Hal Hlen Hfit.
  destruct (parse_http_request_total lex w)
    as (p & r & w1 & evs1 & Hparse & Hlog1 & Hq1 & Hgc1 & Hob1 & Hr).
  rewrite serve_unfold. unfold bind at 1. unfold bind at 1. rewrite Hparse.
  destruct r as [info|].
  - destruct Hr as (n & Hread & Hn & Hv).
    destruct (serve_request_total hs buf0 p info w1)
      as (w2 & evs2 & Hrun & Hlog2 & Hq2 & Hre);
      [by rewrite Hgc1|done|by rewrite Hob1| |].
    { destruct (construct_new_request_fits p info (Hfit _ _ _ _ Hread Hv))
        as (p' & ->). eauto. }
    rewrite Hrun. unfold close, add_event.
    eexists _, (evs1 ++ evs2). split; [reflexivity|]. split.
    { apply events_since_app. cbn [log].
      by rewrite Hlog2, Hlog1, <- !app_assoc. }
    split; [by apply Forall_app|done].
  - unfold ret, close, add_event.
    eexists _, evs1. split; [reflexivity|]. split.
    { apply events_since_app. cbn [log]. by rewrite Hlog1, <- !app_assoc. }
    split; [done|]. cbn [g_cache]. by rewrite Hgc1.
Qed.

Lemma serve_closes_the_client_once_and_keeps_the_cache_consistent_witness :
  ∃ w' evs,
    serve get_lex [] (exchange_world "GET http://h/c HTTP/1.1" (bytes_of "OK") true)
    = Some (tt, w') ∧
    events_since (exchange_world "GET http://h/c HTTP/1.1" (bytes_of "OK") true) w'
    = evs ++ [Closed ClientFd] ∧
    Forall (λ e, is_closed e = false) evs.
Proof.
  destruct (serve_closes_the_client_once_and_keeps_the_cache_consistent
              get_lex []
              (exchange_world "GET http://h/c HTTP/1.1" (bytes_of "OK") true)
              (s_handles demo))
    as (w' & evs & H1 & H2 & H3 & _).
  - apply (run_init_reachable demo_calls). vm_compute. reflexivity.
  - vm_compute. reflexivity.
  - vm_compute. reflexivity.
  - intros p n w1 info Hread Hv.
    vm_compute in Hread. injection Hread as <- _ _.
    vm_compute in Hv. injection Hv as <-.
    apply Nat.ltb_lt. vm_compute. reflexivity.
  - exists w', evs. split; [exact H1|]. split; [exact H2|exact H3].
Defined.

Section reading.
Implicit Types (w : world) (p : parser_t) (ls : list string).

Lemma read_request_lines_go lex fuel p n w ls tail :
  Forall (goes_on lex) ls → client_lines w = ls ++ tail → length ls < fuel →
  read_request_lines lex fuel p n w
  = read_request_lines lex (fuel - length ls) (parse_lines lex p ls)
      (n + chars ls) (set_client_lines tail w).
Proof.
  intros Hls. revert fuel p n w.
  induction Hls as [|line ls (Hne & Hnb & Hok) _ IH]; intros fuel p n w Hcl Hf.
  - simpl in *. rewrite Nat.sub_0_r, Nat.add_0_r. destruct w; simpl in *.
    by subst.
  - destruct fuel as [|fuel]; [simpl in Hf; lia|].
    cbn [read_request_lines]. unfold bind at 1, rio_readlineb.
    rewrite Hcl. cbn [app].
    rewrite decide_False by (by destruct line).
    unfold streq. rewrite bool_decide_eq_false_2 by done.
    unfold parser_parse_line at 1.
    destruct (lex line) as [r|h|] eqn:Hlex; [| |done].
    + rewrite (IH fuel _ _ (set_client_lines (ls ++ tail) w));
        [|done|simpl in Hf; lia].
      cbn [parse_lines foldl chars foldr length]. unfold parser_parse_line at 2.
      rewrite Hlex. cbn [fst Nat.sub].
      fold (parse_lines lex). fold (chars ls).
      replace (n + String.length line + chars ls)
        with (n + (String.length line + chars ls)) by lia.
      by destruct w.
    + rewrite (IH fuel _ _ (set_client_lines (ls ++ tail) w));
        [|done|simpl in Hf; lia].
      cbn [parse_lines foldl chars foldr length]. unfold parser_parse_line at 2.
      rewrite Hlex. cbn [fst Nat.sub].
      fold (parse_lines lex). fold (chars ls).
      replace (n + String.length line + chars ls)
        with (n + (String.length line + chars ls)) by lia.
      by destruct w.
Qed.

Lemma serve_silent lex buf0 w p n w1 :
  read_request_lines lex (S (length (client_lines w))) parser_new 0 w
  = Some (match n with Some 0 => Some (p, 0) | _ => None end, w1) →
  ∃ w', serve lex buf0 w = Some (tt, w') ∧
    events_since w w' = [Closed ClientFd] ∧ g_cache w' = g_cache w.
Proof.
  intros Hread.
  pose proof (read_request_lines_only_reads _ _ _ _ _ _ _ Hread) as Hw1.
  assert (g_cache w1 = g_cache w ∧ log w1 = log w) as [Hgc Hlog]
    by (by rewrite Hw1).
  rewrite serve_unfold. unfold bind at 1. unfold bind at 1.
  unfold parse_http_request. unfold bind at 1. rewrite Hread.
  destruct n as [[|?]|]; unfold ret, close, add_event;
    (eexists; split; [reflexivity|]); cbn [log g_cache];
    (split; [apply events_since_app; cbn [log]; by rewrite Hlog|done]).
Qed.

End reading.

Lemma read_request_lines_stops lex fuel p n w ls rest :
  Forall (goes_on lex) ls → length (client_lines w) < fuel →
  let read := read_request_lines lex fuel p n w in
  (client_lines w = ls ++ CRLF :: rest →
   read = Some (Some (parse_lines lex p ls, n + chars ls),
                set_client_lines rest w)) ∧
  (client_lines w = ls → client_end w = AtEOF →
   read = Some (Some (parse_lines lex p ls, n + chars ls),
                set_client_lines [] w)) ∧
  (client_lines w = ls → client_end w = ReadFails →
   read = Some (None, set_client_lines [] w)) ∧
  (∀ line, client_lines w = ls ++ line :: rest → line ≠ EmptyString →
   line ≠ CRLF → lex line = IsError →
   read = Some (Some (parse_lines lex p ls, n + chars ls),
                set_client_lines rest w)).
Proof.
  intros Hls Hf read. subst read. split; [|split; [|split]].
  - intros Hcl.
    rewrite (read_request_lines_go lex _ _ _ w ls (CRLF :: rest) Hls Hcl)
      by (rewrite Hcl, length_app in Hf; lia).
    destruct (fuel - length ls) as [|k] eqn:Hk;
      [rewrite Hcl, length_app in Hf; simpl in Hf; lia|].
    cbn [read_request_lines]. unfold bind, rio_readlineb.
    destruct w as [cl ce ob oe rm co gc lg]; cbn [set_client_lines client_lines].
    reflexivity.
  - intros Hcl He.
    rewrite (read_request_lines_go lex _ _ _ w ls [] Hls)
      by (rewrite ?app_nil_r; done || (rewrite Hcl in Hf; lia)).
    destruct (fuel - length ls) as [|k] eqn:Hk; [rewrite Hcl in Hf; lia|].
    cbn [read_request_lines]. unfold bind, rio_readlineb.
    destruct w as [cl ce ob oe rm co gc lg];
      cbn [set_client_lines client_lines client_end] in *.
    subst. reflexivity.
  - intros Hcl He.
    rewrite (read_request_lines_go lex _ _ _ w ls [] Hls)
      by (rewrite ?app_nil_r; done || (rewrite Hcl in Hf; lia)).
    destruct (fuel - length ls) as [|k] eqn:Hk; [rewrite Hcl in Hf; lia|].
    cbn [read_request_lines]. unfold bind, rio_readlineb.
    destruct w as [cl ce ob oe rm co gc lg];
      cbn [set_client_lines client_lines client_end] in *.
    subst. reflexivity.
  - intros line Hcl Hne Hnb Herr.
    rewrite (read_request_lines_go lex _ _ _ w ls (line :: rest) Hls Hcl)
      by (rewrite Hcl, length_app in Hf; lia).
    destruct (fuel - length ls) as [|k] eqn:Hk;
      [rewrite Hcl, length_app in Hf; simpl in Hf; lia|].
    cbn [read_request_lines]. unfold bind, rio_readlineb.
    destruct w as [cl ce ob oe rm co gc lg]; cbn [set_client_lines client_lines].
    rewrite decide_False by (by destruct line).
    unfold streq. rewrite bool_decide_eq_false_2 by done.
    unfold parser_parse_line. rewrite Herr. reflexivity.
Qed.

(** X16: the reading loop of [parse_http_request] parses the lines up
    to the first blank line and leaves what follows unread; [n] is the number
    of characters of the lines parsed; an end of file in place of the blank
    line ends the request in the same way; a read error gives up the request;
    and a line that the parser refuses ends the reading with the lines before
    it parsed. *)
Theorem request_is_read_up_to_the_blank_line
    (lex : string → parsed_line) (w : world) (ls rest : list string) :
  Forall (goes_on lex) ls →
  let read := read_request_lines lex (S (length (client_lines w))) parser_new 0 w in
  (client_lines w = ls ++ CRLF :: rest →
   read = Some (Some (parse_lines lex parser_new ls, chars ls),
                set_client_lines rest w)) ∧
  (client_lines w = ls → client_end w = AtEOF →
   read = Some (Some (parse_lines lex parser_new ls, chars ls),
                set_client_lines [] w)) ∧
  (client_lines w = ls → client_end w = ReadFails →
   read = Some (None, set_client_lines [] w)) ∧
  (∀ line, client_lines w = ls ++ line :: rest → line ≠ EmptyString →
   line ≠ CRLF → lex line = IsError →
   read = Some (Some (parse_lines lex parser_new ls, chars ls),
                set_client_lines rest w)).
Proof.
  intros Hls read. subst read.
  destruct (read_request_lines_stops lex (S (length (client_lines w)))
              parser_new 0 w ls rest Hls) as (Hblank & Heof & Hfail & Hbad);
    [lia|].
  split; [exact Hblank|]. split; [exact Heof|]. split; [exact Hfail|].
  exact Hbad.
Qed.

Lemma request_is_read_up_to_the_blank_line_witness :
  read_request_lines get_lex 4 parser_new 0
    (exchange_world "GET http://h/a HTTP/1.1" [] true)
  = Some (Some (parse_lines get_lex parser_new
                  ["GET http://h/a HTTP/1.1" +:+ CRLF; "Accept: */*" +:+ CRLF],
                chars ["GET http://h/a HTTP/1.1" +:+ CRLF; "Accept: */*" +:+ CRLF]),
          set_client_lines [] (exchange_world "GET http://h/a HTTP/1.1" [] true)).
Proof.
  destruct (request_is_read_up_to_the_blank_line get_lex
              (exchange_world "GET http://h/a HTTP/1.1" [] true)
              ["GET http://h/a HTTP/1.1" +:+ CRLF; "Accept: */*" +:+ CRLF] [])
    as [H _].
  - repeat constructor; discriminate.
  - apply H. reflexivity.
Defined.

(** X17: [serve] closes the connection without any reply, and leaves
    the cache as it is, when the request starts with the blank line, when the
    client sends nothing before the end of file, when the parser refuses the
    first line, and when reading fails before the blank line. *)
Theorem request_without_a_parsed_line_gets_no_reply
    (lex : string → parsed_line) (buf0 : list byte) (w : world) :
  (∃ rest, client_lines w = CRLF :: rest) ∨
  (client_lines w = [] ∧ client_end w = AtEOF) ∨
  (∃ line rest, client_lines w = line :: rest ∧ line ≠ EmptyString ∧
     line ≠ CRLF ∧ lex line = IsError) ∨
  (Forall (goes_on lex) (client_lines w) ∧ client_end w = ReadFails) →
  ∃ w', serve lex buf0 w = Some (tt, w') ∧
    events_since w w' = [Closed ClientFd] ∧ g_cache w' = g_cache w.
Proof.
  intros [(rest & Hcl)|[[Hcl He]|[(line & rest & Hcl & Hne & Hnb & Herr)|[Hls He]]]].
  - destruct (read_request_lines_stops lex (S (length (client_lines w)))
                parser_new 0 w [] rest) as (H & _); [done|lia|].
    apply (serve_silent lex buf0 w parser_new (Some 0) (set_client_lines rest w)).
    by apply H.
  - destruct (read_request_lines_stops lex (S (length (client_lines w)))
                parser_new 0 w [] []) as (_ & H & _); [done|lia|].
    apply (serve_silent lex buf0 w parser_new (Some 0) (set_client_lines [] w)).
    by apply H.
  - destruct (read_request_lines_stops lex (S (length (client_lines w)))
                parser_new 0 w [] rest) as (_ & _ & _ & H); [done|lia|].
    apply (serve_silent lex buf0 w parser_new (Some 0) (set_client_lines rest w)).
    by apply (H line).
  - destruct (read_request_lines_stops lex (S (length (client_lines w)))
                parser_new 0 w (client_lines w) [])
      as (_ & _ & H & _); [done|lia|].
    apply (serve_silent lex buf0 w parser_new None (set_client_lines [] w)).
    by apply H.
Qed.

Lemma request_without_a_parsed_line_gets_no_reply_witness :
  ∃ w', serve get_lex []
          (World ["GET http://h/a HTTP/1.1" +:+ CRLF] ReadFails [] AtEOF
                 (λ _, None) true (s_mem demo) []) = Some (tt, w') ∧
    events_since
      (World ["GET http://h/a HTTP/1.1" +:+ CRLF] ReadFails [] AtEOF
             (λ _, None) true (s_mem demo) []) w' = [Closed ClientFd].
Proof.
  destruct (request_without_a_parsed_line_gets_no_reply get_lex []
              (World ["GET http://h/a HTTP/1.1" +:+ CRLF] ReadFails [] AtEOF
                     (λ _, None) true (s_mem demo) []))
    as (w' & H1 & H2 & _).
  - right. right. right. split; [|reflexivity].
    repeat constructor; discriminate.
  - exists w'. split; [exact H1|exact H2].
Defined.

Lemma validate_accepts (p : parser_t) (info : http_info) :
  validate p = inr info →
  i_method info = "GET" ∧ i_scheme info = "http" ∧
  (i_version info = "1.0" ∨ i_version info = "1.1") ∧
  parser_retrieve p METHOD = Some (i_method info) ∧
  parser_retrieve p HTTP_VERSION = Some (i_version info) ∧
  parser_retrieve p SCHEME = Some (i_scheme info) ∧
  parser_retrieve p URI = Some (i_uri info) ∧
  parser_retrieve p HOST = Some (i_host info) ∧
  parser_retrieve p PORT = Some (i_port info) ∧
  parser_retrieve p PATH = Some (i_path info).
Proof.
  unfold validate.
  destruct (parser_retrieve p HTTP_VERSION) as [v|] eqn:Hver; [|done].
  destruct (negb (streq v "1.0" || streq v "1.1")) eqn:Hvok; [done|].
  destruct (parser_retrieve p METHOD) as [m|] eqn:Hm; [|done].
  destruct (negb (streq m "GET")) eqn:Hget; [done|].
  destruct (parser_retrieve p SCHEME) as [sc|] eqn:Hsc; [|done].
  destruct (negb (streq sc "http")) eqn:Hhttp; [done|].
  destruct (parser_retrieve p URI) as [uri|] eqn:Huri; [|done].
  destruct (parser_retrieve p HOST) as [host|] eqn:Hhost; [|done].
  destruct (parser_retrieve p PORT) as [port|] eqn:Hport; [|done].
  destruct (parser_retrieve p PATH) as [path|] eqn:Hpath; [|done].
  intros [= <-]. cbn [i_method i_scheme i_version i_uri i_host i_port i_path].
  apply negb_false_iff in Hvok, Hget, Hhttp. unfold streq in *.
  apply bool_decide_eq_true_1 in Hget, Hhttp. subst m sc.
  apply orb_true_iff in Hvok as [Hv|Hv]; apply bool_decide_eq_true_1 in Hv;
    subst v; repeat split; auto.
Qed.

(** X18: when [parse_http_request] returns [true], the method is GET,
    the scheme is http, the version is 1.0 or 1.1, every field of [info] is
    the value that the parser holds for it, and nothing was written to the
    client: only lines of the request were consumed. *)
Theorem parse_http_request_accepts_only_get_over_http
    (lex : string → parsed_line) (w w1 : world) (p : parser_t)
    (info : http_info) :
  parse_http_request lex ClientFd parser_new w = Some ((p, Some info), w1) →
  (i_method info = "GET" ∧ i_scheme info = "http" ∧
   (i_version info = "1.0" ∨ i_version info = "1.1") ∧
   parser_retrieve p METHOD = Some (i_method info) ∧
   parser_retrieve p HTTP_VERSION = Some (i_version info) ∧
   parser_retrieve p SCHEME = Some (i_scheme info) ∧
   parser_retrieve p URI = Some (i_uri info) ∧
   parser_retrieve p HOST = Some (i_host info) ∧
   parser_retrieve p PORT = Some (i_port info) ∧
   parser_retrieve p PATH = Some (i_path info)) ∧
  w1 = set_client_lines (client_lines w1) w.
Proof.
  intros Hparse.
  destruct (parse_http_request_total lex w)
    as (p' & r & w1' & evs & Hparse' & _ & _ & _ & _ & Hr).
  rewrite Hparse in Hparse'. injection Hparse' as <- <- <-.
  destruct Hr as (n & Hread & _ & Hv).
  split; [by apply validate_accepts|].
  by eapply read_request_lines_only_reads.
Qed.

Lemma parse_http_request_accepts_only_get_over_http_witness :
  ∃ p info w1,
    parse_http_request get_lex ClientFd parser_new
      (exchange_world "GET http://h/a HTTP/1.1" [] true)
    = Some ((p, Some info), w1) ∧
    i_method info = "GET" ∧ i_scheme info = "http".
Proof.
  eexists _, _, _. split; [vm_compute; reflexivity|].
  edestruct (parse_http_request_accepts_only_get_over_http get_lex
               (exchange_world "GET http://h/a HTTP/1.1" [] true))
    as ((H1 & H2 & _) & _).
  - vm_compute. reflexivity.
  - split; [exact H1|exact H2].
Defined.
